(** * hive-scout-bee: signature extraction and approach selection

    A shallow embedding of [SignatureExtractor.ts] (both revisions found in
    the repository), [Types.ts] and [HiveScoutBee.ts], and the properties
    proved about them.

    Numbers are the host language's: IEEE 754 binary64, here Rocq's
    primitive [float], so that [+ - * /], [Math.sqrt], [Math.abs] and the
    comparisons compute bit for bit what the program computes, including
    the infinities, the two zeros and NaN.  Counters and array lengths are
    [nat] and enter an arithmetic expression through [num].  What the
    platform supplies beyond IEEE arithmetic ([parseFloat], [Math.pow],
    [Math.log2]) and the [fft-js] package are parameters of the
    development; module [Ref] gives executable stand-ins for evaluating
    concrete windows.  [Array.prototype.sort] is the engine's: the
    comparator the program sorts with is not transitive, and the order
    is then what the merge sort of Node.js makes of it (module [JS],
    section [Sort]). *)

From Stdlib Require Import Floats ZArith List String Ascii Bool Lia PeanoNat.
Import ListNotations.

Set Warnings "-inexact-float".
Set Implicit Arguments.

(** ** The host language *)

Module JS.

Definition number := float.

(** An integer-valued number (a counter, an array length). *)
Definition num (n : nat) : number :=
  SF2Prim (binary_normalize prec emax (Z.of_nat n) 0 false).

Definition isNaN (x : number) : bool := negb (x =? x)%float.

(** [x >= y], [x <= y], [x > y], [x < y] and [x === y] on numbers. *)
Definition ge (x y : number) : bool := (y <=? x)%float.
Definition le (x y : number) : bool := (x <=? y)%float.
Definition gt (x y : number) : bool := (y <? x)%float.
Definition lt (x y : number) : bool := (x <? y)%float.
Definition strict_eq (x y : number) : bool := (x =? y)%float.

Definition Math_abs (x : number) : number := abs x.
Definition Math_sqrt (x : number) : number := sqrt x.

(** [Math.max(a, b)]: NaN if either is NaN, and [+0] is larger than [-0]. *)
Definition Math_max (a b : number) : number :=
  if isNaN a || isNaN b then nan
  else if (a <? b)%float then b
  else if (b <? a)%float then a
  else if get_sign a then b else a.

(** [Math.min(a, b)]: NaN if either is NaN, and [-0] is smaller than [+0]. *)
Definition Math_min (a b : number) : number :=
  if isNaN a || isNaN b then nan
  else if (a <? b)%float then a
  else if (b <? a)%float then b
  else if get_sign a then a else b.

(** [x || 0] for an optional number: [undefined], NaN and both zeros are
    falsy. *)
Definition or_zero (x : option number) : number :=
  match x with
  | Some v => if isNaN v || (v =? 0)%float then 0%float else v
  | None => 0%float
  end.

(** [s.includes(sub)]. *)
Definition includes (s sub : string) : bool :=
  match index 0 sub s with Some _ => true | None => false end.

(** How a call completes: it returns a value, or throws.  Reading
    [a[0].name] of an empty array is the one place the sources could
    throw. *)
Inductive Completion (A : Type) : Type :=
| Normal (a : A)
| Throw (error : string).
Arguments Normal {A} a.

(** *** Map: entries in insertion order, one per key *)

Section MapOps.
Variable V : Type.

Definition Map := list (string * V).

Fixpoint get (m : Map) (k : string) : option V :=
  match m with
  | [] => None
  | (k', v) :: m' => if String.eqb k' k then Some v else get m' k
  end.

(** [set] keeps the place of a key that is already present. *)
Fixpoint set (m : Map) (k : string) (v : V) : Map :=
  match m with
  | [] => [(k, v)]
  | (k', v') :: m' =>
      if String.eqb k' k then (k', v) :: m' else (k', v') :: set m' k v
  end.

(** [delete] returns whether the key was present, and the map without it. *)
Fixpoint delete (m : Map) (k : string) : bool * Map :=
  match m with
  | [] => (false, [])
  | (k', v') :: m' =>
      if String.eqb k' k then (true, m')
      else let (b, r) := delete m' k in (b, (k', v') :: r)
  end.

Definition keys (m : Map) : list string := map fst m.
Definition values (m : Map) : list V := map snd m.
Definition size (m : Map) : nat := List.length m.
End MapOps.

(** *** Array.prototype.sort(comparefn)

    The language fixes the sorted array only for a comparator that is
    consistent on its elements; otherwise the order is the engine's.  The
    comparator of [chooseApproach] is not consistent (it is not
    transitive), so the model follows the engine the program runs on:
    Node.js, whose V8 sorts with the merge sort of [array-sort.tq]
    (runs, binary insertion, galloping merges).  The array holds objects
    only, so it has no hole and no [undefined] to set apart.

    The work array is a list; a run is the list of its elements, and the
    pending runs are kept latest first.  Loops take a number of steps
    that bounds their iterations. *)

Section Sort.
Variable A : Type.
Variable comparefn : A -> A -> number.

(** [sortState.Compare(x, y) < 0].  The engine takes a NaN result for
    [0]; every test on the result is [order < 0] or [order >= 0], the
    negation of this one. *)
Definition lessThan (x y : A) : bool := (comparefn x y <? 0)%float.

Definition kMinGallopWins : nat := 7.

(** ComputeMinRunLength: [n] itself below 64, else the six leading bits
    of [n], plus one if a lower bit is set. *)
Fixpoint minRunLoop (fuel n r : nat) : nat :=
  match fuel with
  | 0 => n + r
  | S fuel' =>
      if 64 <=? n
      then minRunLoop fuel' (Nat.shiftr n 1) (Nat.lor r (Nat.land n 1))
      else n + r
  end.

Definition ComputeMinRunLength (n : nat) : nat := minRunLoop n n 0.

(** CountAndMakeRun: the loop that extends the run while each element
    compares with the one before it as the first two do; the number of
    elements it adds. *)
Fixpoint runLoop (isDescending : bool) (previousElement : A) (rest : list A)
  : nat :=
  match rest with
  | [] => 0
  | currentElement :: rest' =>
      if Bool.eqb (lessThan currentElement previousElement) isDescending
      then S (runLoop isDescending currentElement rest')
      else 0
  end.

(** CountAndMakeRun on the elements from [low]: the length of the run
    they start with, and the elements with that run reversed if it was
    strictly descending. *)
Definition CountAndMakeRun (l : list A) : nat * list A :=
  match l with
  | elementHigh :: elementLow :: rest =>
      let isDescending := lessThan elementLow elementHigh in
      let runLength := 2 + runLoop isDescending elementLow rest in
      (runLength,
       if isDescending then rev (firstn runLength l) ++ skipn runLength l
       else l)
  | _ => (1, l)
  end.

(** The binary search shared by BinaryInsertionSort, GallopLeft and
    GallopRight: [lo] and [hi] close in on each other, [goRight m]
    telling whether the place sought is after index [m]. *)
Fixpoint searchLoop (fuel : nat) (goRight : nat -> bool) (lo hi : nat) : nat :=
  match fuel with
  | 0 => hi
  | S fuel' =>
      if lo <? hi then
        let m := lo + Nat.shiftr (hi - lo) 1 in
        if goRight m then searchLoop fuel' goRight (m + 1) hi
        else searchLoop fuel' goRight lo m
      else hi
  end.

(** One round of BinaryInsertionSort: [pivot] goes before the element at
    the index found, [order < 0] moving the search to the left. *)
Definition insertPivot (sorted : list A) (pivot : A) : list A :=
  let left := searchLoop (List.length sorted)
                (fun mid => negb (lessThan pivot (nth mid sorted pivot)))
                0 (List.length sorted) in
  firstn left sorted ++ pivot :: skipn left sorted.

(** BinaryInsertionSort(low, start, high): [sorted] are the elements
    from [low] to [start], [more] those from [start] to [high]. *)
Definition BinaryInsertionSort (sorted more : list A) : list A :=
  fold_left insertPivot more sorted.

(** The galloping loop of GallopLeft and GallopRight: [offset] becomes
    [2 * offset + 1] while it is below [maxOfs] and the element at that
    offset from the hint is on the same side of the key as the hint. *)
Fixpoint gallopLoop (fuel : nat) (continue : nat -> bool)
         (maxOfs lastOfs offset : nat) : nat * nat :=
  match fuel with
  | 0 => (lastOfs, offset)
  | S fuel' =>
      if (offset <? maxOfs) && continue offset
      then gallopLoop fuel' continue maxOfs offset (2 * offset + 1)
      else (lastOfs, offset)
  end.

(** The body GallopLeft and GallopRight share: gallop from the hint to
    the right if the place sought is after it, to the left otherwise,
    then search between the last two offsets.  The search starts at
    [lastOfs + 1]; to the left [lastOfs] may be [-1], so that bound is
    computed as a whole. *)
Definition gallopSearch (goRight : nat -> bool) (length hint : nat) : nat :=
  let '(lo, hi) :=
    if goRight hint then
      let maxOfs := length - hint in
      let '(lastOfs, offset) :=
        gallopLoop maxOfs (fun ofs => goRight (hint + ofs)) maxOfs 0 1 in
      (lastOfs + hint + 1, Nat.min offset maxOfs + hint)
    else
      let maxOfs := hint + 1 in
      let '(lastOfs, offset) :=
        gallopLoop maxOfs (fun ofs => negb (goRight (hint - ofs))) maxOfs 0 1 in
      (hint + 1 - Nat.min offset maxOfs, hint - lastOfs) in
  searchLoop length goRight lo hi.

(** GallopLeft: the leftmost index at which [key] may be inserted; its
    tests are [Compare(a[i], key) < 0]. *)
Definition GallopLeft (a : list A) (key : A) (hint : nat) : nat :=
  gallopSearch (fun i => lessThan (nth i a key) key) (List.length a) hint.

(** GallopRight: the rightmost such index; its tests are
    [Compare(key, a[i]) < 0]. *)
Definition GallopRight (a : list A) (key : A) (hint : nat) : nat :=
  gallopSearch (fun i => negb (lessThan key (nth i a key))) (List.length a) hint.

(** MergeLow.  [dest] holds what has been written, latest first; [a] is
    what is left of the copy of run A, [b] what is left of run B.  At
    [Succeed] the rest of A is copied behind what was written (the rest
    of B is in place); at [CopyB] the rest of B is moved down and the
    last element of A put behind it. *)
Definition succeedLow (dest a b : list A) : list A := rev dest ++ a ++ b.
Definition copyB (dest a b : list A) : list A := rev dest ++ b ++ a.

(** One step is one round of the loop that takes the elements one at a
    time, or one round of the galloping loop when [galloping] is set.
    [minGallop] is the local variable, [stored] the field of the sort
    state, which only the galloping loop writes. *)
Fixpoint mergeLowLoop (fuel : nat) (galloping : bool) (dest a b : list A)
         (nofWinsA nofWinsB minGallop stored : nat) : list A * nat :=
  match fuel, a, b with
  | S fuel', a0 :: a', b0 :: b' =>
      if galloping then
        let minGallop := Nat.max 1 (minGallop - 1) in
        let stored := minGallop in
        let nofWinsA := GallopRight a b0 0 in
        let dest := rev (firstn nofWinsA a) ++ dest in
        let a := skipn nofWinsA a in
        if (0 <? nofWinsA) && (List.length a =? 1) then (copyB dest a b, stored)
        else if (0 <? nofWinsA) && (List.length a =? 0)
        then (succeedLow dest a b, stored)
        else
          let dest := b0 :: dest in
          match a, b' with
          | a0 :: a', _ :: _ =>
              let nofWinsB := GallopLeft b' a0 0 in
              let dest := rev (firstn nofWinsB b') ++ dest in
              let b := skipn nofWinsB b' in
              if (0 <? nofWinsB) && (List.length b =? 0)
              then (succeedLow dest a b, stored)
              else
                let dest := a0 :: dest in
                if List.length a' =? 1 then (copyB dest a' b, stored)
                else if (kMinGallopWins <=? nofWinsA)
                        || (kMinGallopWins <=? nofWinsB)
                then mergeLowLoop fuel' true dest a' b
                                  nofWinsA nofWinsB minGallop stored
                else mergeLowLoop fuel' false dest a' b
                                  0 0 (minGallop + 1) (minGallop + 1)
          | _, _ => (succeedLow dest a b', stored)
          end
      else if lessThan b0 a0 then
        let dest := b0 :: dest in
        let nofWinsB := nofWinsB + 1 in
        if List.length b' =? 0 then (succeedLow dest a b', stored)
        else if minGallop <=? nofWinsB
        then mergeLowLoop fuel' true dest a b' 0 nofWinsB (minGallop + 1) stored
        else mergeLowLoop fuel' false dest a b' 0 nofWinsB minGallop stored
      else
        let dest := a0 :: dest in
        let nofWinsA := nofWinsA + 1 in
        if List.length a' =? 1 then (copyB dest a' b, stored)
        else if minGallop <=? nofWinsA
        then mergeLowLoop fuel' true dest a' b nofWinsA 0 (minGallop + 1) stored
        else mergeLowLoop fuel' false dest a' b nofWinsA 0 minGallop stored
  | _, _, _ => (succeedLow dest a b, stored)
  end.

(** MergeLow: the first element of B is written first. *)
Definition MergeLow (a b : list A) (stored : nat) : list A * nat :=
  match b with
  | [] => (a, stored)
  | b0 :: b' =>
      if List.length b' =? 0 then (succeedLow [b0] a b', stored)
      else if List.length a =? 1 then (copyB [b0] a b', stored)
      else mergeLowLoop (List.length a + List.length b') false [b0] a b'
                        0 0 stored stored
  end.

(** MergeHigh works from the right: [dest] holds what has been written,
    in order; [a] is what is left of run A, [b] what is left of the copy
    of run B.  At [Succeed] the rest of B is copied in front of what was
    written (the rest of A is in place); at [CopyA] the rest of A is
    moved up and the first element of B put in front of it. *)
Definition succeedHigh (dest a b : list A) : list A := a ++ b ++ dest.
Definition copyA (dest a b : list A) : list A := b ++ a ++ dest.

Definition lastOf (l : list A) (d : A) : A := nth (List.length l - 1) l d.
Definition butLast (l : list A) : list A := firstn (List.length l - 1) l.

Fixpoint mergeHighLoop (fuel : nat) (galloping : bool) (dest a b : list A)
         (nofWinsA nofWinsB minGallop stored : nat) : list A * nat :=
  match fuel, a, b with
  | S fuel', a0 :: _, b0 :: _ =>
      if galloping then
        let minGallop := Nat.max 1 (minGallop - 1) in
        let stored := minGallop in
        let k := GallopRight a (lastOf b b0) (List.length a - 1) in
        let nofWinsA := List.length a - k in
        let dest := skipn k a ++ dest in
        let a := firstn k a in
        if (0 <? nofWinsA) && (List.length a =? 0)
        then (succeedHigh dest a b, stored)
        else
          let dest := lastOf b b0 :: dest in
          let b := butLast b in
          if List.length b =? 1 then (copyA dest a b, stored)
          else
            let k := GallopLeft b (lastOf a a0) (List.length b - 1) in
            let nofWinsB := List.length b - k in
            let dest := skipn k b ++ dest in
            let b := firstn k b in
            if (0 <? nofWinsB) && (List.length b =? 1)
            then (copyA dest a b, stored)
            else if (0 <? nofWinsB) && (List.length b =? 0)
            then (succeedHigh dest a b, stored)
            else
              let dest := lastOf a a0 :: dest in
              let a := butLast a in
              if List.length a =? 0 then (succeedHigh dest a b, stored)
              else if (kMinGallopWins <=? nofWinsA)
                      || (kMinGallopWins <=? nofWinsB)
              then mergeHighLoop fuel' true dest a b
                                 nofWinsA nofWinsB minGallop stored
              else mergeHighLoop fuel' false dest a b
                                 0 0 (minGallop + 1) (minGallop + 1)
      else if lessThan (lastOf b b0) (lastOf a a0) then
        let dest := lastOf a a0 :: dest in
        let a := butLast a in
        let nofWinsA := nofWinsA + 1 in
        if List.length a =? 0 then (succeedHigh dest a b, stored)
        else if minGallop <=? nofWinsA
        then mergeHighLoop fuel' true dest a b nofWinsA 0 (minGallop + 1) stored
        else mergeHighLoop fuel' false dest a b nofWinsA 0 minGallop stored
      else
        let dest := lastOf b b0 :: dest in
        let b := butLast b in
        let nofWinsB := nofWinsB + 1 in
        if List.length b =? 1 then (copyA dest a b, stored)
        else if minGallop <=? nofWinsB
        then mergeHighLoop fuel' true dest a b 0 nofWinsB (minGallop + 1) stored
        else mergeHighLoop fuel' false dest a b 0 nofWinsB minGallop stored
  | _, _, _ => (succeedHigh dest a b, stored)
  end.

(** MergeHigh: the last element of A is written first. *)
Definition MergeHigh (a b : list A) (stored : nat) : list A * nat :=
  match a with
  | [] => (b, stored)
  | a0 :: _ =>
      let dest := [lastOf a a0] in
      let a := butLast a in
      if List.length a =? 0 then (succeedHigh dest a b, stored)
      else if List.length b =? 1 then (copyA dest a b, stored)
      else mergeHighLoop (List.length a + List.length b) false dest a b
                         0 0 stored stored
  end.

(** MergeAt on two adjacent runs, [a] before [b]: the elements of [a]
    that go before the first of [b], and those of [b] that go after the
    last of [a], stay; the rest is merged from the shorter side. *)
Definition MergeAt (a b : list A) (stored : nat) : list A * nat :=
  match b with
  | [] => (a, stored)
  | keyRight :: _ =>
      let k := GallopRight a keyRight 0 in
      let a' := skipn k a in
      if List.length a' =? 0 then (a ++ b, stored)
      else
        let keyLeft := lastOf a' keyRight in
        let lengthB := GallopLeft b keyLeft (List.length b - 1) in
        if lengthB =? 0 then (a ++ b, stored)
        else
          let b' := firstn lengthB b in
          let merged :=
            if List.length a' <=? lengthB then MergeLow a' b' stored
            else MergeHigh a' b' stored in
          (firstn k a ++ fst merged ++ skipn lengthB b, snd merged)
  end.

(** Whether RunInvariantEstablished fails at the top of the pending
    runs: the third run is not longer than the two above it together,
    or the fourth not longer than the second and third together. *)
Definition runInvariantViolated (pendingRuns : list (list A)) : bool :=
  match pendingRuns with
  | top :: second :: third :: rest =>
      (List.length third <=? List.length second + List.length top)
      || match rest with
         | fourth :: _ =>
             List.length fourth <=? List.length third + List.length second
         | [] => false
         end
  | _ => false
  end.

(** MergeCollapse: merge at the top of the pending runs until the
    invariants hold again. *)
Fixpoint MergeCollapse (fuel : nat) (pendingRuns : list (list A)) (stored : nat)
  : list (list A) * nat :=
  match fuel, pendingRuns with
  | S fuel', top :: second :: rest =>
      if runInvariantViolated pendingRuns then
        match rest with
        | third :: rest' =>
            if List.length third <? List.length top then
              let (m, stored) := MergeAt third second stored in
              MergeCollapse fuel' (top :: m :: rest') stored
            else
              let (m, stored) := MergeAt second top stored in
              MergeCollapse fuel' (m :: rest) stored
        | [] => (pendingRuns, stored)
        end
      else if List.length second <=? List.length top then
        let (m, stored) := MergeAt second top stored in
        MergeCollapse fuel' (m :: rest) stored
      else (pendingRuns, stored)
  | _, _ => (pendingRuns, stored)
  end.

(** MergeForceCollapse: merge until one run is left. *)
Fixpoint MergeForceCollapse (fuel : nat) (pendingRuns : list (list A))
         (stored : nat) : list (list A) :=
  match fuel, pendingRuns with
  | S fuel', top :: second :: rest =>
      match rest with
      | third :: rest' =>
          if List.length third <? List.length top then
            let (m, stored) := MergeAt third second stored in
            MergeForceCollapse fuel' (top :: m :: rest') stored
          else
            let (m, stored) := MergeAt second top stored in
            MergeForceCollapse fuel' (m :: rest) stored
      | [] =>
          let (m, stored) := MergeAt second top stored in
          MergeForceCollapse fuel' (m :: rest) stored
      end
  | _, _ => pendingRuns
  end.

(** One round of the main loop up to the push: the next run, extended
    by binary insertion to [minRunLength] elements (or to all that are
    left) if it is shorter, and the elements after it. *)
Definition nextRun (minRunLength : nat) (remaining : list A)
  : list A * list A :=
  let (currentRunLength, work) := CountAndMakeRun remaining in
  let forcedRunLength :=
    if currentRunLength <? minRunLength
    then Nat.min minRunLength (List.length remaining)
    else currentRunLength in
  (BinaryInsertionSort
     (firstn currentRunLength work)
     (firstn (forcedRunLength - currentRunLength) (skipn currentRunLength work)),
   skipn forcedRunLength work).

Fixpoint timSortLoop (fuel : nat) (minRunLength : nat)
         (pendingRuns : list (list A)) (stored : nat) (remaining : list A)
  : list A :=
  match fuel, remaining with
  | S fuel', _ :: _ =>
      let (run, remaining) := nextRun minRunLength remaining in
      let (pendingRuns, stored) :=
        MergeCollapse (S (List.length pendingRuns)) (run :: pendingRuns) stored in
      timSortLoop fuel' minRunLength pendingRuns stored remaining
  | _, _ =>
      List.concat (rev (MergeForceCollapse (List.length pendingRuns)
                                      pendingRuns stored))
      ++ remaining
  end.

(** ArrayTimSortImpl. *)
Definition ArrayTimSortImpl (l : list A) : list A :=
  if List.length l <? 2 then l
  else timSortLoop (List.length l) (ComputeMinRunLength (List.length l))
                   [] kMinGallopWins l.

Definition sort (l : list A) : list A := ArrayTimSortImpl l.
End Sort.

End JS.

Import JS.

(** What the platform supplies beyond IEEE arithmetic, and the [fft-js]
    package: [parseFloat(s)], [Math.pow(b, e)], [Math.log2(x)], and
    [fft.fft(v)], which returns one [[re, im]] pair per frequency bin. *)
Record Host := {
  parseFloat : string -> number;
  Math_pow : number -> number -> number;
  Math_log2 : number -> number;
  fft : list number -> list (number * number)
}.

(** ** RDF terms and quads, as the extractor reads them

    The [n3] library's terms: the extractor reads [termType], [value] and,
    on the object, [datatype] (here the datatype node's IRI, when the term
    has one), and the predicate's [value]. *)

Module RDF.
Inductive TermType := NamedNode | BlankNode | Literal | DefaultGraph.

Definition TermType_eqb (a b : TermType) : bool :=
  match a, b with
  | NamedNode, NamedNode | BlankNode, BlankNode
  | Literal, Literal | DefaultGraph, DefaultGraph => true
  | _, _ => false
  end.

Record Term := {
  termType : TermType;
  value : string;
  datatype : option string
}.

Record Quad := { subject : Term; predicate : Term; object : Term }.

(** The [DataFactory] constructors the tests build windows with: a
    literal made without a datatype is an [xsd:string]. *)
Definition namedNode (iri : string) : Term :=
  {| termType := NamedNode; value := iri; datatype := None |}.
Definition xsd (local : string) : string :=
  ("http://www.w3.org/2001/XMLSchema#" ++ local)%string.
Definition literal (v : string) (dt : option Term) : Term :=
  {| termType := Literal; value := v;
     datatype := Some (match dt with Some n => value n | None => xsd "string" end) |}.
Definition quad (s p o : Term) : Quad :=
  {| subject := s; predicate := p; object := o |}.
End RDF.

(** A window is a [Set<Quad>]: the quads in insertion order. *)
Definition Window := list RDF.Quad.

(** ** Types.ts *)

Record StreamSignature := {
  tripleCount : number;
  variance : number;
  skewness : number;
  entropy : number;
  fftEntropy : number
}.

(** Each bound is optional. *)
Record ApproachThresholds := {
  t_variance : option number;
  t_skewness : option number;
  t_entropy : option number;
  t_fftEntropy : option number;
  t_tripleCount : option number
}.

Record ApproachConfig := {
  name : string;
  description : option string;
  minThresholds : option ApproachThresholds;
  maxThresholds : option ApproachThresholds;
  priority : option number
}.

Record ApproachRecommendation := {
  recommendedApproach : string;
  matchingApproaches : list string;
  signature : StreamSignature;
  confidence : number
}.

(** [values.reduce((sum, val) => sum + val, 0)]. *)
Definition reduce_sum (values : list number) : number :=
  fold_left (fun sum val => (sum + val)%float) values 0%float.

(** ** SignatureExtractor.ts (the revision with [fftEntropy]) *)

Module SignatureExtractor.
Section WithHost.
Variable host : Host.

(** The body of the loop that collects [numericValues]: one quad. *)
Definition collect (numericValues : list number) (quad : RDF.Quad)
  : list number :=
  let objectValue := RDF.value (RDF.object quad) in
  if RDF.TermType_eqb (RDF.termType (RDF.object quad)) RDF.Literal then
    match RDF.datatype (RDF.object quad) with
    | Some datatypeValue =>
        if includes datatypeValue "integer"
           || includes datatypeValue "decimal"
           || includes datatypeValue "double"
           || includes datatypeValue "float"
        then
          let numValue := parseFloat host objectValue in
          if negb (isNaN numValue) then numericValues ++ [numValue]
          else numericValues
        else if includes datatypeValue "string" then
          let numValue := parseFloat host objectValue in
          if negb (isNaN numValue) then numericValues ++ [numValue]
          else numericValues
        else numericValues
    | None =>
        let numValue := parseFloat host objectValue in
        if negb (isNaN numValue) then numericValues ++ [numValue]
        else numericValues
    end
  else numericValues.

Definition numericValues (windowData : Window) : list number :=
  fold_left collect windowData [].

Definition calculateMean (values : list number) : number :=
  if List.length values =? 0 then 0%float
  else (reduce_sum values / num (List.length values))%float.

Definition calculateVariance (values : list number) : number :=
  if List.length values <=? 1 then 0%float
  else
    let mean := calculateMean values in
    let squaredDiffs :=
      map (fun val => Math_pow host (val - mean)%float 2%float) values in
    (reduce_sum squaredDiffs / (num (List.length values) - 1))%float.

Definition calculateSkewness (values : list number) : number :=
  if List.length values <=? 2 then 0%float
  else
    let mean := calculateMean values in
    let variance := calculateVariance values in
    let stdDev := Math_sqrt variance in
    if strict_eq stdDev 0%float then 0%float
    else
      let cubedDiffs :=
        map (fun val => Math_pow host ((val - mean) / stdDev)%float 3%float)
            values in
      let n := num (List.length values) in
      ((n / ((n - 1) * (n - 2))) * reduce_sum cubedDiffs)%float.

(** [predicateCount.set(predicate, (predicateCount.get(predicate) || 0) + 1)]. *)
Definition countPredicate (predicateCount : Map nat) (quad : RDF.Quad)
  : Map nat :=
  let predicate := RDF.value (RDF.predicate quad) in
  set predicateCount predicate
      (match get predicateCount predicate with Some c => c | None => 0 end + 1).

(** [if (p > 0) entropy -= p * Math.log2(p)]. *)
Definition entropyTerm (entropy probability : number) : number :=
  if gt probability 0%float
  then (entropy - probability * Math_log2 host probability)%float
  else entropy.

Definition calculateEntropy (quads : Window) : number :=
  let predicateCount := fold_left countPredicate quads [] in
  let total := num (List.length quads) in
  fold_left
    (fun entropy count => entropyTerm entropy (num count / total)%float)
    (values predicateCount) 0%float.

(** [while (paddedValues.length < targetLength) paddedValues.push(0)];
    [targetLength] rounds suffice. *)
Fixpoint padLoop (rounds : nat) (paddedValues : list number)
         (targetLength : nat) : list number :=
  match rounds with
  | 0 => paddedValues
  | S rounds' =>
      if List.length paddedValues <? targetLength
      then padLoop rounds' (paddedValues ++ [0%float]) targetLength
      else paddedValues
  end.

(** [Math.pow(2, Math.ceil(Math.log2(values.length)))].  The argument is
    an array length, an integer on which the three functions are exact:
    the result is the integer [2 ^ ceil(log2 n)]. *)
Definition targetLength (values : list number) : nat :=
  2 ^ Nat.log2_up (List.length values).

Definition magnitude (complex : number * number) : number :=
  let real := fst complex in
  let imag := snd complex in
  Math_sqrt (real * real + imag * imag)%float.

Definition calculateFFTEntropy (values : list number) : number :=
  if List.length values =? 0 then 0%float
  else if List.length values =? 1 then 0%float
  else
    let paddedValues :=
      padLoop (targetLength values) values (targetLength values) in
    let fftResult := fft host paddedValues in
    let magnitudes := map magnitude fftResult in
    let totalMagnitude := reduce_sum magnitudes in
    if strict_eq totalMagnitude 0%float then 0%float
    else
      let probabilities :=
        map (fun mag => (mag / totalMagnitude)%float) magnitudes in
      fold_left entropyTerm probabilities 0%float.

Definition extractSignature (windowData : Window) : StreamSignature :=
  let tripleCount := num (List.length windowData) in
  let numericValues := numericValues windowData in
  let variance := calculateVariance numericValues in
  let skewness := calculateSkewness numericValues in
  let entropy := calculateEntropy windowData in
  let fftEntropy := calculateFFTEntropy numericValues in
  {| tripleCount := tripleCount;
     variance := variance;
     skewness := skewness;
     entropy := entropy;
     fftEntropy := fftEntropy |}.
End WithHost.
End SignatureExtractor.

(** ** SignatureExtractor.ts (the earlier revision, without [fftEntropy]) *)

Module SignatureExtractorV1.
Record StreamSignature := {
  tripleCount : number;
  variance : number;
  skewness : number;
  entropy : number
}.

Section WithHost.
Variable host : Host.

Definition collect (numericValues : list number) (quad : RDF.Quad)
  : list number :=
  let objectValue := RDF.value (RDF.object quad) in
  if RDF.TermType_eqb (RDF.termType (RDF.object quad)) RDF.Literal then
    match RDF.datatype (RDF.object quad) with
    | Some datatypeValue =>
        if includes datatypeValue "integer"
           || includes datatypeValue "decimal"
           || includes datatypeValue "double"
           || includes datatypeValue "float"
        then
          let numValue := parseFloat host objectValue in
          if negb (isNaN numValue) then numericValues ++ [numValue]
          else numericValues
        else if includes datatypeValue "string" then
          let numValue := parseFloat host objectValue in
          if negb (isNaN numValue) then numericValues ++ [numValue]
          else numericValues
        else numericValues
    | None =>
        let numValue := parseFloat host objectValue in
        if negb (isNaN numValue) then numericValues ++ [numValue]
        else numericValues
    end
  else numericValues.

Definition numericValues (windowData : Window) : list number :=
  fold_left collect windowData [].

Definition calculateMean (values : list number) : number :=
  if List.length values =? 0 then 0%float
  else (reduce_sum values / num (List.length values))%float.

Definition calculateVariance (values : list number) : number :=
  if List.length values <=? 1 then 0%float
  else
    let mean := calculateMean values in
    let squaredDiffs :=
      map (fun val => Math_pow host (val - mean)%float 2%float) values in
    (reduce_sum squaredDiffs / (num (List.length values) - 1))%float.

Definition calculateSkewness (values : list number) : number :=
  if List.length values <=? 2 then 0%float
  else
    let mean := calculateMean values in
    let variance := calculateVariance values in
    let stdDev := Math_sqrt variance in
    if strict_eq stdDev 0%float then 0%float
    else
      let cubedDiffs :=
        map (fun val => Math_pow host ((val - mean) / stdDev)%float 3%float)
            values in
      let n := num (List.length values) in
      ((n / ((n - 1) * (n - 2))) * reduce_sum cubedDiffs)%float.

Definition countPredicate (predicateCount : Map nat) (quad : RDF.Quad)
  : Map nat :=
  let predicate := RDF.value (RDF.predicate quad) in
  set predicateCount predicate
      (match get predicateCount predicate with Some c => c | None => 0 end + 1).

Definition entropyTerm (entropy probability : number) : number :=
  if gt probability 0%float
  then (entropy - probability * Math_log2 host probability)%float
  else entropy.

Definition calculateEntropy (quads : Window) : number :=
  let predicateCount := fold_left countPredicate quads [] in
  let total := num (List.length quads) in
  fold_left
    (fun entropy count => entropyTerm entropy (num count / total)%float)
    (values predicateCount) 0%float.

Definition extractSignature (windowData : Window) : StreamSignature :=
  let tripleCount := num (List.length windowData) in
  let numericValues := numericValues windowData in
  let variance := calculateVariance numericValues in
  let skewness := calculateSkewness numericValues in
  let entropy := calculateEntropy windowData in
  {| tripleCount := tripleCount;
     variance := variance;
     skewness := skewness;
     entropy := entropy |}.
End WithHost.
End SignatureExtractorV1.

(** ** HiveScoutBee.ts *)

Module HiveScoutBee.

(** One entry of [minChecks] / [maxChecks]. *)
Record Check := { threshold : option number; value : number }.

(** The five checks, in the order the source lists them. *)
Definition checks (signature : StreamSignature) (t : ApproachThresholds)
  : list Check :=
  [ {| threshold := t_variance t; value := variance signature |};
    {| threshold := t_skewness t; value := skewness signature |};
    {| threshold := t_entropy t; value := entropy signature |};
    {| threshold := t_fftEntropy t; value := fftEntropy signature |};
    {| threshold := t_tripleCount t; value := tripleCount signature |} ].

(** [if (config.minThresholds) { ... }]: no checks for an absent object. *)
Definition checksOf (signature : StreamSignature)
           (t : option ApproachThresholds) : list Check :=
  match t with Some t => checks signature t | None => [] end.

(** *** calculateSpecificity *)

Record SpecificityState := {
  specificityScore : number;
  thresholdCount : nat
}.

Definition specificityMin (st : SpecificityState) (check : Check)
  : SpecificityState :=
  match threshold check with
  | Some t =>
      {| thresholdCount := thresholdCount st + 1;
         specificityScore :=
           if gt (value check) 0%float
           then (specificityScore st + t / (value check + 1))%float
           else (specificityScore st + t)%float |}
  | None => st
  end.

Definition specificityMax (st : SpecificityState) (check : Check)
  : SpecificityState :=
  match threshold check with
  | Some t =>
      {| thresholdCount := thresholdCount st + 1;
         specificityScore := (specificityScore st + 1 / (t + 1))%float |}
  | None => st
  end.

Definition calculateSpecificity (signature : StreamSignature)
           (config : ApproachConfig) : number :=
  let st := {| specificityScore := 0%float; thresholdCount := 0 |} in
  let st := fold_left specificityMin
                      (checksOf signature (minThresholds config)) st in
  let st := fold_left specificityMax
                      (checksOf signature (maxThresholds config)) st in
  if 0 <? thresholdCount st
  then (specificityScore st / num (thresholdCount st))%float
  else 0%float.

(** *** evaluateApproach *)

Record EvalState := {
  st_matches : bool;
  totalScore : number;
  criteriaCount : nat
}.

Definition evaluateMin (st : EvalState) (check : Check) : EvalState :=
  match threshold check with
  | Some t =>
      if ge (value check) t
      then {| st_matches := st_matches st;
              totalScore := (totalScore st + 1.0)%float;
              criteriaCount := criteriaCount st + 1 |}
      else {| st_matches := false;
              totalScore :=
                (totalScore st + Math_max 0 (value check / t))%float;
              criteriaCount := criteriaCount st + 1 |}
  | None => st
  end.

Definition evaluateMax (st : EvalState) (check : Check) : EvalState :=
  match threshold check with
  | Some t =>
      if le (value check) t
      then {| st_matches := st_matches st;
              totalScore := (totalScore st + 1.0)%float;
              criteriaCount := criteriaCount st + 1 |}
      else {| st_matches := false;
              totalScore :=
                (totalScore st + Math_max 0 (t / value check))%float;
              criteriaCount := criteriaCount st + 1 |}
  | None => st
  end.

Record MatchResult := { matches : bool; score : number }.

Definition evaluateApproach (signature : StreamSignature)
           (config : ApproachConfig) : MatchResult :=
  let st := {| st_matches := true; totalScore := 0%float;
               criteriaCount := 0 |} in
  let st := fold_left evaluateMin
                      (checksOf signature (minThresholds config)) st in
  let st := fold_left evaluateMax
                      (checksOf signature (maxThresholds config)) st in
  let score :=
    if 0 <? criteriaCount st
    then (totalScore st / num (criteriaCount st))%float
    else 0%float in
  {| matches := st_matches st; score := score |}.

(** *** chooseApproach *)

(** An element of [approachEvaluations]. *)
Record Evaluation := {
  ev_name : string;
  ev_score : number;
  ev_specificity : number;
  ev_priority : number
}.

(** The comparator handed to [sort]. *)
Definition compareEvaluations (a b : Evaluation) : number :=
  if gt (Math_abs (ev_specificity a - ev_specificity b)%float) 0.01%float
  then (ev_specificity b - ev_specificity a)%float
  else (ev_priority b - ev_priority a)%float.

(** The body of the loop over the registry: one entry. *)
Definition evaluateEntry (signature : StreamSignature)
           (acc : list string * list Evaluation)
           (entry : string * ApproachConfig)
  : list string * list Evaluation :=
  let (matchingApproaches, approachEvaluations) := acc in
  let (approachName, config) := entry in
  let matchResult := evaluateApproach signature config in
  if matches matchResult then
    let specificity := calculateSpecificity signature config in
    (matchingApproaches ++ [approachName],
     approachEvaluations ++
       [ {| ev_name := approachName;
            ev_score := score matchResult;
            ev_specificity := specificity;
            ev_priority := or_zero (priority config) |} ])
  else acc.

(** The object's state: the registry.  (The extractor it also holds has
    no state that the methods read.) *)
Record State := { approachConfigs : Map ApproachConfig }.

(** A method takes the object's state and returns its result and the
    state it leaves. *)
Definition Method (A : Type) : Type := State -> A * State.

Definition ret {A} (a : A) : Method A := fun this => (a, this).
Definition bind {A B} (m : Method A) (k : A -> Method B) : Method B :=
  fun this => let (a, this') := m this in k a this'.
Definition read {A} (f : State -> A) : Method A :=
  fun this => (f this, this).
Definition write (f : State -> State) : Method unit :=
  fun this => (tt, f this).

Definition constructor (approaches : list ApproachConfig) : State :=
  {| approachConfigs :=
       fold_left (fun m approach => set m (name approach) approach)
                 approaches [] |}.

Section WithHost.
Variable host : Host.

Definition chooseApproach (windowData : Window)
  : Method (Completion ApproachRecommendation) :=
  let signature := SignatureExtractor.extractSignature host windowData in
  bind (read approachConfigs) (fun configs =>
  let (matchingApproaches, approachEvaluations) :=
    fold_left (evaluateEntry signature) configs ([], []) in
  let selection : Completion (string * number) :=
    if 0 <? List.length approachEvaluations then
      match sort compareEvaluations approachEvaluations with
      | first :: _ =>
          Normal (ev_name first, Math_min (ev_score first) 1.0%float)
      | [] => Throw _ "TypeError"
      end
    else Normal ("default"%string, 0%float) in
  ret match selection with
      | Normal (recommendedApproach, confidence) =>
          Normal {| recommendedApproach := recommendedApproach;
                    matchingApproaches := matchingApproaches;
                    signature := signature;
                    confidence := confidence |}
      | Throw _ e => Throw _ e
      end).
End WithHost.

Definition addApproach (approach : ApproachConfig) : Method unit :=
  write (fun this =>
    {| approachConfigs := set (approachConfigs this) (name approach) approach |}).

Definition removeApproach (approachName : string) : Method bool :=
  fun this =>
    let (existed, configs) := delete (approachConfigs this) approachName in
    (existed, {| approachConfigs := configs |}).

Definition getAvailableApproaches : Method (list string) :=
  read (fun this => keys (approachConfigs this)).

Definition getApproachConfig (approachName : string)
  : Method (option ApproachConfig) :=
  read (fun this => get (approachConfigs this) approachName).

End HiveScoutBee.

(** ** Executable stand-ins for the platform

    Used to evaluate concrete windows; no theorem below depends on them
    except through such evaluations. *)

Module Ref.

(** *** parseFloat: the longest prefix that is a [StrDecimalLiteral],
    after leading white space, rounded to nearest (ties to even)

    A string is the UTF-8 encoding of the text.  White space is what
    [StrWhiteSpaceChar] lists: the white-space characters and the line
    terminators, among them U+00A0, U+1680, U+2000 to U+200A, U+2028,
    U+2029, U+202F, U+205F, U+3000 and U+FEFF. *)

Definition isWhiteSpace (c : ascii) : bool :=
  let n := nat_of_ascii c in
  (n =? 9) || (n =? 10) || (n =? 11) || (n =? 12) || (n =? 13) || (n =? 32).

(** U+00A0. *)
Definition isWhiteSpace2 (c1 c2 : ascii) : bool :=
  (nat_of_ascii c1 =? 194) && (nat_of_ascii c2 =? 160).

Definition isWhiteSpace3 (c1 c2 c3 : ascii) : bool :=
  let n1 := nat_of_ascii c1 in
  let n2 := nat_of_ascii c2 in
  let n3 := nat_of_ascii c3 in
  ((n1 =? 225) && (n2 =? 154) && (n3 =? 128))
  || ((n1 =? 226) && (n2 =? 128)
      && (((128 <=? n3) && (n3 <=? 138))
          || (n3 =? 168) || (n3 =? 169) || (n3 =? 175)))
  || ((n1 =? 226) && (n2 =? 129) && (n3 =? 159))
  || ((n1 =? 227) && (n2 =? 128) && (n3 =? 128))
  || ((n1 =? 239) && (n2 =? 187) && (n3 =? 191)).

Fixpoint trimStart (s : string) : string :=
  match s with
  | String c1 r1 =>
      if isWhiteSpace c1 then trimStart r1
      else
        match r1 with
        | String c2 r2 =>
            if isWhiteSpace2 c1 c2 then trimStart r2
            else
              match r2 with
              | String c3 r3 =>
                  if isWhiteSpace3 c1 c2 c3 then trimStart r3 else s
              | EmptyString => s
              end
        | EmptyString => s
        end
  | EmptyString => s
  end.

Definition digit (c : ascii) : option Z :=
  let n := nat_of_ascii c in
  if (48 <=? n) && (n <=? 57) then Some (Z.of_nat (n - 48)) else None.

(** The longest run of digits at the head of [s], appended to [acc]:
    the value, the number of digits read, and the rest of [s]. *)
Fixpoint digits (s : string) (acc : Z) (len : nat) : Z * nat * string :=
  match s with
  | String c r =>
      match digit c with
      | Some d => digits r (10 * acc + d) (S len)
      | None => (acc, len, s)
      end
  | EmptyString => (acc, len, s)
  end.

(** [m * 10^e] with sign, for a mantissa of at most [len] digits. *)
Definition decimal (negative : bool) (m e : Z) (len : nat) : number :=
  SF2Prim
    match m with
    | Zpos p =>
        if (309 <? e)%Z then S754_infinity negative
        else if (Z.of_nat len + e <? -324)%Z then S754_zero negative
        else if (0 <=? e)%Z
             then binary_round prec emax negative (p * Z.to_pos (10 ^ e)) 0
             else SFdiv prec emax (S754_finite negative p 0)
                        (S754_finite false (Z.to_pos (10 ^ (- e))) 0)
    | _ => S754_zero negative
    end.

Definition exponentPart (s : string) : Z :=
  match s with
  | String c r =>
      if Ascii.eqb c "e" || Ascii.eqb c "E" then
        let (eneg, r') :=
          match r with
          | String c' r'' =>
              if Ascii.eqb c' "+" then (false, r'')
              else if Ascii.eqb c' "-" then (true, r'')
              else (false, r)
          | EmptyString => (false, r)
          end in
        let '(ev, elen, _) := digits r' 0 0 in
        if elen =? 0 then 0%Z else if eneg then (- ev)%Z else ev
      else 0%Z
  | EmptyString => 0%Z
  end.

Definition parseUnsigned (negative : bool) (s : string) : number :=
  if prefix "Infinity" s
  then (if negative then neg_infinity else infinity)
  else
    let '(ip, ilen, r1) := digits s 0 0 in
    let '(m, flen, r2) :=
      match r1 with
      | String c r => if Ascii.eqb c "." then digits r ip 0 else (ip, 0, r1)
      | EmptyString => (ip, 0, r1)
      end in
    if ilen + flen =? 0 then nan
    else decimal negative m (exponentPart r2 - Z.of_nat flen) (ilen + flen).

Definition parseFloat (s : string) : number :=
  match trimStart s with
  | String c r =>
      if Ascii.eqb c "+" then parseUnsigned false r
      else if Ascii.eqb c "-" then parseUnsigned true r
      else parseUnsigned false (String c r)
  | EmptyString => nan
  end.

(** *** Math.pow, for the exponents the extractor passes (small
    non-negative integers): repeated multiplication *)

Definition smallNat (e : number) : option nat :=
  match Prim2SF e with
  | S754_zero _ => Some 0
  | S754_finite false m ex =>
      let v := (Zpos m * 2 ^ ex)%Z in
      if (0 <=? ex)%Z && (v <=? 64)%Z then Some (Z.to_nat v)
      else if (ex <? 0)%Z && (Zpos m mod 2 ^ (- ex) =? 0)%Z
              && (Zpos m / 2 ^ (- ex) <=? 64)%Z
           then Some (Z.to_nat (Zpos m / 2 ^ (- ex)))
           else None
  | _ => None
  end.

Definition pow (b e : number) : number :=
  match smallNat e with
  | Some k => Nat.iter k (fun acc => (acc * b)%float) 1%float
  | None => nan
  end.

(** *** Math.log2: the binary logarithm, bit by bit, by repeated
    squaring in fixed point *)

(** [y / 2^s] is in [[1, 2)]; the next [n] bits of its logarithm. *)
Fixpoint log2Bits (n : nat) (y s acc : Z) : Z :=
  match n with
  | 0 => acc
  | S n' =>
      let y2 := Z.shiftr (y * y) s in
      if (Z.shiftl 2 s <=? y2)%Z
      then log2Bits n' (Z.shiftr y2 1) s (2 * acc + 1)
      else log2Bits n' y2 s (2 * acc)
  end.

Definition log2 (x : number) : number :=
  match Prim2SF x with
  | S754_nan => nan
  | S754_zero _ => neg_infinity
  | S754_infinity false => infinity
  | S754_infinity true => nan
  | S754_finite true _ _ => nan
  | S754_finite false m e =>
      let d := Z.log2 (Zpos m) in
      let y := Z.shiftl (Zpos m) (160 - d) in
      let frac := log2Bits 80 y 160 0 in
      SF2Prim (binary_normalize prec emax ((e + d) * 2 ^ 80 + frac) (-80) false)
  end.

(** *** fft.fft: radix-2 decimation in time on a power-of-two length,
    with twiddle factors [cos x, sin x] at [x = -2 * PI * (k / N)] *)

Definition PI : number := 3.141592653589793%float.

(** A number as a fixed-point integer with 192 fractional bits. *)
Definition toFixed (x : number) : Z :=
  match Prim2SF x with
  | S754_finite s m e =>
      let v := Z.shiftl (Zpos m) (e + 192) in if s then (- v)%Z else v
  | _ => 0%Z
  end.

Definition ofFixed (v : Z) : number :=
  SF2Prim (binary_normalize prec emax v (-192) false).

(** The Taylor series of cosine and sine: [term] is [x^k / k!]. *)
Fixpoint trigSeries (n : nat) (k : Z) (x term c s : Z) : Z * Z :=
  match n with
  | 0 => (c, s)
  | S n' =>
      let c' := match (k mod 4)%Z with
                | 0%Z => (c + term)%Z | 2%Z => (c - term)%Z | _ => c end in
      let s' := match (k mod 4)%Z with
                | 1%Z => (s + term)%Z | 3%Z => (s - term)%Z | _ => s end in
      trigSeries n' (k + 1) x (Z.shiftr (term * x) 192 / (k + 1)) c' s'
  end.

Definition cosSin (x : number) : number * number :=
  let (c, s) := trigSeries 80 0 (toFixed x) (Z.shiftl 1 192) 0 0 in
  (ofFixed c, ofFixed s).

Definition exponent (k N : nat) : number * number :=
  cosSin (-2 * PI * (num k / num N))%float.

Definition multiply (a b : number * number) : number * number :=
  ((fst a * fst b - snd a * snd b)%float, (fst a * snd b + snd a * fst b)%float).
Definition add (a b : number * number) : number * number :=
  ((fst a + fst b)%float, (snd a + snd b)%float).
Definition subtract (a b : number * number) : number * number :=
  ((fst a - fst b)%float, (snd a - snd b)%float).

Fixpoint evens {A} (l : list A) : list A :=
  match l with
  | x :: _ :: r => x :: evens r
  | l' => l'
  end.
Fixpoint odds {A} (l : list A) : list A :=
  match l with
  | _ :: y :: r => y :: odds r
  | _ => []
  end.

Fixpoint butterflies (k N : nat) (X_evens X_odds : list (number * number))
  : list (number * number) * list (number * number) :=
  match X_evens, X_odds with
  | t :: X_evens', o :: X_odds' =>
      let e := multiply (exponent k N) o in
      let (lo, hi) := butterflies (S k) N X_evens' X_odds' in
      (add t e :: lo, subtract t e :: hi)
  | _, _ => ([], [])
  end.

Fixpoint fftRec (depth : nat) (vector : list number)
  : list (number * number) :=
  match depth, vector with
  | _, [] => []
  | _, [x] => [(x, 0%float)]
  | 0, _ => []
  | S depth', _ =>
      let X_evens := fftRec depth' (evens vector) in
      let X_odds := fftRec depth' (odds vector) in
      let (lo, hi) := butterflies 0 (List.length vector) X_evens X_odds in
      lo ++ hi
  end.

Definition fft (vector : list number) : list (number * number) :=
  fftRec (List.length vector) vector.

Definition host : Host :=
  Build_Host parseFloat pow log2 fft.
End Ref.

(** ** The specification's notions, written from its words *)

Module Spec.
Section WithHost.
Variable host : Host.

(** Shannon entropy, base 2, of a list of probabilities; a bin whose
    probability is not positive is skipped. *)
Definition shannonEntropy (ps : list number) : number :=
  fold_left
    (fun h p => if (0 <? p)%float then (h - p * Math_log2 host p)%float else h)
    ps 0%float.

(** [- sum p * log2 p], every bin taking part. *)
Definition entropySum (ps : list number) : number :=
  fold_left (fun h p => (h - p * Math_log2 host p)%float) ps 0%float.

(** *** Spectral entropy *)

(** [m] is the least power of two that is at least [n]. *)
Definition NextPowerOfTwo (n m : nat) : Prop :=
  (exists k, m = 2 ^ k) /\ n <= m /\ forall k, n <= 2 ^ k -> m <= 2 ^ k.

Definition zeroPad (vs : list number) (m : nat) : list number :=
  vs ++ repeat 0%float (m - List.length vs).




(** *** Skewness *)

Definition mean (vs : list number) : number :=
  (reduce_sum vs / num (List.length vs))%float.

Definition sampleVariance (vs : list number) : number :=
  (reduce_sum (map (fun v => Math_pow host (v - mean vs)%float 2%float) vs)
   / (num (List.length vs) - 1))%float.

Definition standardDeviation (vs : list number) : number :=
  sqrt (sampleVariance vs).

(** The cubes of the values in standard units. *)
Definition cubedStandardized (vs : list number) : list number :=
  map (fun v =>
         Math_pow host ((v - mean vs) / standardDeviation vs)%float 3%float)
      vs.

Definition scale (n : number) : number := (n / ((n - 1) * (n - 2)))%float.

(** The specification's wording: the cubes are averaged, then scaled. *)
Definition skewnessAveraged (vs : list number) : number :=
  let n := num (List.length vs) in
  (scale n * (reduce_sum (cubedStandardized vs) / n))%float.

(** The adjusted Fisher-Pearson coefficient: the cubes are summed, then
    scaled. *)
Definition skewnessSummed (vs : list number) : number :=
  let n := num (List.length vs) in
  (scale n * reduce_sum (cubedStandardized vs))%float.

(** *** Harvesting *)

(** The datatype tag lets the literal through: no tag, or one of the five
    substrings. *)
Definition tagAdmits (datatype : option string) : bool :=
  match datatype with
  | None => true
  | Some d =>
      includes d "integer" || includes d "decimal" || includes d "double"
      || includes d "float" || includes d "string"
  end.

(** What one triple contributes to the numeric sequence. *)
Definition harvest (q : RDF.Quad) : list number :=
  let o := RDF.object q in
  if RDF.TermType_eqb (RDF.termType o) RDF.Literal
     && tagAdmits (RDF.datatype o)
     && negb (isNaN (parseFloat host (RDF.value o)))
  then [parseFloat host (RDF.value o)]
  else [].
End WithHost.

(** *** Predicate frequencies *)

Definition predicates (w : Window) : list string :=
  map (fun q => RDF.value (RDF.predicate q)) w.

(** The distinct elements, in order of first occurrence. *)
Fixpoint distinct (l : list string) : list string :=
  match l with
  | [] => []
  | x :: r => x :: filter (fun y => negb (String.eqb y x)) (distinct r)
  end.

Definition occurrences (p : string) (l : list string) : nat :=
  List.length (filter (String.eqb p) l).

(** Probability of each distinct predicate: its triple count divided by
    the number of triples. *)
Definition predicateDistribution (w : Window) : list number :=
  map (fun p => (num (occurrences p (predicates w)) / num (List.length w))%float)
      (distinct (predicates w)).

(** *** Matching and scoring *)

(** The declared bounds of a threshold object, each with the signature
    field it bounds, as (value, bound) pairs. *)
Definition declared (s : StreamSignature) (t : option ApproachThresholds)
  : list (number * number) :=
  match t with
  | None => []
  | Some t =>
      let field v b := match b with Some b => [(v, b)] | None => [] end in
      field (variance s) (t_variance t)
      ++ field (skewness s) (t_skewness t)
      ++ field (entropy s) (t_entropy t)
      ++ field (fftEntropy s) (t_fftEntropy t)
      ++ field (tripleCount s) (t_tripleCount t)
  end.

(** Every declared threshold is satisfied. *)
Definition satisfies (s : StreamSignature) (c : ApproachConfig) : bool :=
  forallb (fun vb => (snd vb <=? fst vb)%float) (declared s (minThresholds c))
  && forallb (fun vb => (fst vb <=? snd vb)%float) (declared s (maxThresholds c)).

(** A threshold object that is absent or has no bound defined. *)
Definition noBound (t : option ApproachThresholds) : bool :=
  match t with
  | None => true
  | Some t =>
      match t_variance t, t_skewness t, t_entropy t, t_fftEntropy t,
            t_tripleCount t with
      | None, None, None, None, None => true
      | _, _, _, _, _ => false
      end
  end.

Definition declaresNoThreshold (c : ApproachConfig) : bool :=
  noBound (minThresholds c) && noBound (maxThresholds c).

Definition contributionMin (vb : number * number) : number :=
  let (v, b) := vb in
  if (b <=? v)%float then 1%float else Math_max 0%float (v / b)%float.

Definition contributionMax (vb : number * number) : number :=
  let (v, b) := vb in
  if (v <=? b)%float then 1%float else Math_max 0%float (b / v)%float.

Definition contributions (s : StreamSignature) (c : ApproachConfig)
  : list number :=
  map contributionMin (declared s (minThresholds c))
  ++ map contributionMax (declared s (maxThresholds c)).

(** The contributions averaged over the number of declared thresholds;
    [0] when none is declared. *)
Definition matchScore (s : StreamSignature) (c : ApproachConfig) : number :=
  let cs := contributions s c in
  if List.length cs =? 0 then 0%float
  else (reduce_sum cs / num (List.length cs))%float.

Definition inUnitInterval (x : number) : bool :=
  ((0 <=? x) && (x <=? 1))%float.

(** *** Ranking *)

(** Rule A (specificity [sa], priority [pa]) is ranked before rule B:
    on specificity when the two differ by more than 0.01, on priority
    otherwise. *)
Definition ranksBefore (sa pa sb pb : number) : bool :=
  if (0.01 <? abs (sa - sb))%float
  then (sb - sa <? 0)%float
  else (pb - pa <? 0)%float.

(** The rule of a registry entry matched, and the evaluation recorded
    for it. *)
Definition matched (s : StreamSignature) (entry : string * ApproachConfig)
  : bool :=
  HiveScoutBee.matches (HiveScoutBee.evaluateApproach s (snd entry)).

Definition evaluationOf (s : StreamSignature)
           (entry : string * ApproachConfig) : HiveScoutBee.Evaluation :=
  {| HiveScoutBee.ev_name := fst entry;
     HiveScoutBee.ev_score :=
       HiveScoutBee.score (HiveScoutBee.evaluateApproach s (snd entry));
     HiveScoutBee.ev_specificity :=
       HiveScoutBee.calculateSpecificity s (snd entry);
     HiveScoutBee.ev_priority := or_zero (priority (snd entry)) |}.

(** No key occurs twice. *)
Fixpoint uniqueKeys {V} (m : Map V) : bool :=
  match m with
  | [] => true
  | (k, _) :: m' =>
      negb (existsb (String.eqb k) (keys m')) && uniqueKeys m'
  end.
End Spec.

(** ** Windows and rules used as concrete inputs *)

Module Fixture.
Definition node (local : string) : RDF.Term :=
  RDF.namedNode ("http://example.org/" ++ local).

(** [quad(s, p, literal(v))] and [quad(s, p, literal(v, xsd:t))]. *)
Definition plain (p v : string) : RDF.Quad :=
  RDF.quad (node "s") (node p) (RDF.literal v None).
Definition typed (p v t : string) : RDF.Quad :=
  RDF.quad (node "s") (node p)
           (RDF.literal v (Some (RDF.namedNode (RDF.xsd t)))).

(** A triple whose object is a node, not a literal. *)
Definition link (p o : string) : RDF.Quad :=
  RDF.quad (node "s") (node p) (node o).

Definition bounds (v s e f t : option number) : option ApproachThresholds :=
  Some {| t_variance := v; t_skewness := s; t_entropy := e;
          t_fftEntropy := f; t_tripleCount := t |}.

Definition rule (n : string) (mins maxs : option ApproachThresholds)
           (p : option number) : ApproachConfig :=
  {| name := n; description := None; minThresholds := mins;
     maxThresholds := maxs; priority := p |}.

(** A rule whose specificity on the empty window is exactly 0.01, one
    whose specificity is just above, and a rule without thresholds and
    with a high priority. *)
Definition atMargin : ApproachConfig :=
  rule "A" None (bounds (Some 99%float) None None None None) None.
Definition aboveMargin : ApproachConfig :=
  rule "A" None (bounds (Some 98%float) None None None None) None.
Definition unbounded : ApproachConfig :=
  rule "B" None None (Some 10%float).

(** The rule of the test "should return default approach when no
    approaches match", and its window. *)
Definition impossible : ApproachConfig :=
  rule "impossible-approach"
       (bounds (Some 1000000%float) None (Some 100%float) None None) None None.
Definition oneReading : Window := [plain "p1" "1"].

(** A left-skewed window, and a rule that asks for skewness of at least
    [-1]. *)
Definition leftSkewed : Window :=
  [typed "p1" "10" "integer"; typed "p1" "9" "integer";
   typed "p1" "8" "integer"; typed "p1" "1" "integer"].
Definition notTooLeftSkewed : ApproachConfig :=
  rule "symmetric" (bounds None (Some (-1)%float) None None None) None None.

(** The window of the test "should calculate skewness for asymmetric
    distribution". *)
Definition rightSkewed : Window :=
  [typed "p1" "1" "integer"; typed "p1" "2" "integer";
   typed "p1" "3" "integer"; typed "p1" "10" "integer"].

(** The rule set of HiveScoutBee.test.ts. *)
Definition highVariance : ApproachConfig :=
  rule "high-variance-approach"
       (bounds (Some 50%float) None (Some 1.0%float) None None) None
       (Some 3%float).
Definition lowComplexity : ApproachConfig :=
  rule "low-complexity-approach" None
       (bounds (Some 10%float) None (Some 0.5%float) (Some 2.0%float) None)
       (Some 2%float).
Definition periodicPattern : ApproachConfig :=
  rule "periodic-pattern-approach"
       (bounds None None None (Some 0.5%float) None)
       (bounds (Some 20%float) None None (Some 2.5%float) None)
       (Some 4%float).
Definition largeDataset : ApproachConfig :=
  rule "large-dataset-approach"
       (bounds None None None None (Some 100%float)) None (Some 1%float).
Definition approachConfigs : list ApproachConfig :=
  [highVariance; lowComplexity; periodicPattern; largeDataset].

Definition veryBroad : ApproachConfig :=
  rule "very-broad" None
       (bounds (Some 1000%float) None (Some 100%float) None None)
       (Some 10%float).
Definition verySpecific : ApproachConfig :=
  rule "very-specific" None
       (bounds (Some 1%float) None (Some 0.1%float) None None)
       (Some 1%float).

(** Windows of one predicate [p1] over the given texts. *)
Definition readings (texts : list string) : Window := map (plain "p1") texts.
End Fixture.

(** ** Auxiliary notions for the proofs *)

Module Aux.
(** A zero or NaN. *)
Definition zero_or_nan (z : spec_float) : Prop :=
  match z with S754_zero _ | S754_nan => True | _ => False end.

(** The declared bounds are the checks whose threshold is defined. *)
Definition declaredOf (cs : list HiveScoutBee.Check) : list (number * number) :=
  flat_map (fun c => match HiveScoutBee.threshold c with
                     | Some b => [(HiveScoutBee.value c, b)]
                     | None => []
                     end) cs.

(** The counting step on the predicate's name. *)
Definition countKey (m : Map nat) (p : string) : Map nat :=
  set m p (match get m p with Some c => c | None => 0 end + 1).

Definition fresh (m : Map nat) (p : string) : bool :=
  negb (existsb (String.eqb p) (keys m)).

Definition bump (l : list string) (kc : string * nat) : string * nat :=
  (fst kc, snd kc + Spec.occurrences (fst kc) l).

Definition tally (l : list string) (p : string) : string * nat :=
  (p, Spec.occurrences p l).
(** The pending runs of the sort, latest first, once [a] is in one of
    them: the later runs hold no element that compares below [a], the
    run of [a] starts with it, and [a] compares below every element of
    the earlier runs. *)
Fixpoint Zoned {A : Type} (comparefn : A -> A -> number) (a : A)
         (pendingRuns : list (list A)) : Prop :=
  match pendingRuns with
  | [] => False
  | run :: earlier =>
      (hd_error run = Some a
       /\ Forall (Forall (fun y => lessThan comparefn a y = true)) earlier)
      \/ (Forall (fun y => lessThan comparefn y a = false) run
          /\ Zoned comparefn a earlier)
  end.
End Aux.

(** ** Notions used in the further properties *)

Module Laws.
(** What a declared min-threshold and a declared max-threshold add to the
    specificity of a rule, given the (value, bound) pair. *)
Definition specificityOfMin (vb : number * number) : number :=
  let (v, b) := vb in
  if (0 <? v)%float then (b / (v + 1))%float else b.

Definition specificityOfMax (vb : number * number) : number :=
  (1 / (snd vb + 1))%float.

(** The average of those over the declared thresholds; [0] when none is
    declared. *)
Definition specificity (s : StreamSignature) (c : ApproachConfig) : number :=
  let cs := map specificityOfMin (Spec.declared s (minThresholds c))
            ++ map specificityOfMax (Spec.declared s (maxThresholds c)) in
  if List.length cs =? 0 then 0%float
  else (reduce_sum cs / num (List.length cs))%float.

(** The last configuration of the list that carries the name. *)
Definition lastNamed (n : string) (approaches : list ApproachConfig)
  : option ApproachConfig :=
  fold_left (fun found a => if String.eqb (name a) n then Some a else found)
            approaches None.

(** The name is not in the list. *)
Definition absent (ks : list string) (k : string) : bool :=
  negb (existsb (String.eqb k) ks).

(** A (value, bound) pair one side of which is NaN. *)
Definition hasNaN (vb : number * number) : bool :=
  isNaN (fst vb) || isNaN (snd vb).

(** Three rules that bound the variance from above by 49, 82 and 199,
    with priorities 0, 1 and 2. *)
Definition tight : ApproachConfig :=
  Fixture.rule "tight" None
    (Fixture.bounds (Some 49%float) None None None None) (Some 0%float).
Definition middle : ApproachConfig :=
  Fixture.rule "middle" None
    (Fixture.bounds (Some 82%float) None None None None) (Some 1%float).
Definition loose : ApproachConfig :=
  Fixture.rule "loose" None
    (Fixture.bounds (Some 199%float) None None None None) (Some 2%float).

(** Two rules with the same bound and no priority. *)
Definition firstTwin : ApproachConfig :=
  Fixture.rule "first" None
    (Fixture.bounds (Some 10%float) None None None None) None.
Definition secondTwin : ApproachConfig :=
  Fixture.rule "second" None
    (Fixture.bounds (Some 10%float) None None None None) None.

(** A comparison of numbers with a tolerance, which is not transitive,
    and seventy numbers. *)
Definition tolerant (x y : nat) : number :=
  if (10 <? abs (num x - num y))%float then (num x - num y)%float
  else 0%float.

Definition seventy : list nat :=
  map (fun i => (i * 37) mod 101) (seq 0 70).

(** Three rules that bound the variance from above by 1, 0.98 and
    0.95: the specificity of each is within 0.01 of the next one's, that
    of the last exceeds that of the first by more than 0.01. *)
Definition looser : ApproachConfig :=
  Fixture.rule "A" None
    (Fixture.bounds (Some 1%float) None None None None) None.
Definition between : ApproachConfig :=
  Fixture.rule "B" None
    (Fixture.bounds (Some 0.98%float) None None None None) None.
Definition tighter : ApproachConfig :=
  Fixture.rule "C" None
    (Fixture.bounds (Some 0.95%float) None None None None) None.

(** The signature of the empty window. *)
Definition zeroSignature : StreamSignature :=
  {| tripleCount := 0%float; variance := 0%float; skewness := 0%float;
     entropy := 0%float; fftEntropy := 0%float |}.

(** A window with an infinite reading, and a rule that caps the
    variance. *)
Definition withInfinity : Window :=
  [Fixture.plain "p" "Infinity"; Fixture.plain "p" "1"].
Definition cappedVariance : ApproachConfig :=
  Fixture.rule "capped" None
    (Fixture.bounds (Some 1000000000%float) None None None None) None.
End Laws.

(** * Properties *)

Unset Implicit Arguments.
Import Aux.

(** ** Facts of binary64 arithmetic used below

    Each is read off the bit-level specification of the primitive
    operations ([Prim2SF] and the [SF...] functions). *)

Section FloatFacts.
Local Open Scope float_scope.

Lemma binary_round_sign m e :
  binary_round prec emax true m e = SFopp (binary_round prec emax false m e).
Proof.
  unfold binary_round, binary_round_aux.
  destruct (shl_align m e _) as [mz ez].
  destruct (shr_fexp prec emax (Zpos mz) ez loc_Exact) as [mrs' e'].
  destruct (shr_fexp prec emax _ e' loc_Exact) as [mrs'' e''].
  destruct (shr_m mrs''); try reflexivity.
  destruct (Z.leb e'' _); reflexivity.
Qed.

Lemma binary_normalize_opp z e :
  binary_normalize prec emax (- z) e false
  = match z with
    | Z0 => S754_zero false
    | _ => SFopp (binary_normalize prec emax z e false)
    end.
Proof.
  destruct z as [|p|p]; simpl; try reflexivity.
  - apply binary_round_sign.
  - rewrite binary_round_sign.
    destruct (binary_round prec emax false p e); simpl;
      rewrite ?negb_involutive; reflexivity.
Qed.


(** Swapping the operands of a subtraction negates the result, unless
    both results are the same zero or NaN. *)
Lemma SFsub_swap x y :
  SF64sub y x = SFopp (SF64sub x y)
  \/ (zero_or_nan (SF64sub x y) /\ SF64sub y x = SF64sub x y).
Proof.
  unfold SF64sub.
  destruct x as [sx|sx| |sx mx ex], y as [sy|sy| |sy my ey]; simpl;
    try (destruct sx, sy; simpl; auto; fail);
    try (destruct sx; simpl; auto; fail);
    try (destruct sy; simpl; auto; fail); auto.
  rewrite (Z.min_comm ey ex).
  set (a := cond_Zopp sx _). set (b := cond_Zopp sy _).
  replace (b - a)%Z with (- (a - b))%Z by lia.
  rewrite binary_normalize_opp.
  destruct (a - b)%Z; simpl; auto.
Qed.

Lemma sub_swap_cases a b :
  Prim2SF (b - a) = SFopp (Prim2SF (a - b))
  \/ (zero_or_nan (Prim2SF (a - b)) /\ Prim2SF (b - a) = Prim2SF (a - b)).
Proof. rewrite !sub_spec. apply SFsub_swap. Qed.

Lemma abs_sub_swap a b : abs (b - a) = abs (a - b).
Proof.
  apply Prim2SF_inj. rewrite !abs_spec.
  destruct (sub_swap_cases a b) as [-> | [_ ->]].
  - now destruct (Prim2SF (a - b)).
  - reflexivity.
Qed.

Lemma Prim2SF_zero : Prim2SF 0 = S754_zero false.
Proof. reflexivity. Qed.

(** The comparator's sign is antisymmetric. *)
Lemma sub_neg_antisym a b : (a - b <? 0) = true -> (b - a <? 0) = false.
Proof.
  rewrite !ltb_spec, Prim2SF_zero.
  destruct (sub_swap_cases a b) as [-> | [Ha ->]].
  - destruct (Prim2SF (a - b)) as [s|s| |s m e]; simpl; try discriminate;
      destruct s; simpl; try discriminate; reflexivity.
  - destruct (Prim2SF (a - b)); simpl in *; try tauto; discriminate.
Qed.

Lemma sub_pos_swap a b : (0 <? a - b) = true -> (b - a <? 0) = true.
Proof.
  rewrite !ltb_spec, Prim2SF_zero.
  destruct (sub_swap_cases a b) as [-> | [Ha ->]].
  - destruct (Prim2SF (a - b)) as [s|s| |s m e]; simpl; try discriminate;
      destruct s; simpl; try discriminate; reflexivity.
  - destruct (Prim2SF (a - b)); simpl in *; try tauto; discriminate.
Qed.

(** A number above a positive finite bound is positive, and is its own
    absolute value. *)
Lemma gt_bound_pos c x :
  (0 <? c) = true -> (c <? x) = true -> (0 <? x) = true.
Proof.
  rewrite !ltb_spec, Prim2SF_zero.
  destruct (Prim2SF c) as [s|s| |s m e], (Prim2SF x) as [s'|s'| |s' m' e'];
    simpl; try discriminate; try (destruct s; discriminate);
    try (destruct s, s'; simpl; try discriminate; reflexivity).
Qed.

Lemma abs_of_pos x : (0 <? x) = true -> abs x = x.
Proof.
  rewrite ltb_spec, Prim2SF_zero. intros H.
  apply Prim2SF_inj. rewrite abs_spec.
  destruct (Prim2SF x) as [s|s| |s m e]; simpl in *; try discriminate;
    destruct s; simpl in *; try discriminate; reflexivity.
Qed.

(** A negative number divided by [+0] is [-Infinity]. *)
Lemma div_neg_by_zero v : (v <? 0) = true -> v / 0 = neg_infinity.
Proof.
  intros H. apply Prim2SF_inj.
  rewrite div_spec, Prim2SF_zero. rewrite ltb_spec, Prim2SF_zero in H.
  destruct (Prim2SF v) as [s|s| |s m e]; simpl in *; try discriminate;
    destruct s; simpl in *; try discriminate; reflexivity.
Qed.
End FloatFacts.

(** ** Lists, maps and sorting *)

Section Containers.
Context {V : Type}.

Lemma existsb_eqb_In (k : string) (l : list string) :
  existsb (String.eqb k) l = true <-> In k l.
Proof.
  rewrite existsb_exists. split.
  - intros [x [Hx E]]. apply String.eqb_eq in E. now subst.
  - intros H. exists k. split; [assumption | apply String.eqb_refl].
Qed.

Lemma uniqueKeys_cons (k : string) (v : V) (m : Map V) :
  Spec.uniqueKeys ((k, v) :: m) = true ->
  ~ In k (keys m) /\ Spec.uniqueKeys m = true.
Proof.
  simpl. intros H. apply andb_true_iff in H as [H1 H2]. split; [|assumption].
  intros Hin. apply existsb_eqb_In in Hin. rewrite Hin in H1. discriminate.
Qed.

Lemma get_In (m : Map V) (k : string) (v : V) :
  get m k = Some v -> In (k, v) m.
Proof.
  induction m as [|[k' v'] m IH]; simpl; [discriminate|].
  destruct (String.eqb k' k) eqn:E.
  - intros [= ->]. apply String.eqb_eq in E. subst. now left.
  - intros H. right. auto.
Qed.

Lemma In_keys (m : Map V) (k : string) (v : V) : In (k, v) m -> In k (keys m).
Proof. intros H. apply (in_map fst) in H. exact H. Qed.

(** In a map without repeated keys an entry is what [get] returns. *)
Lemma In_get (m : Map V) (k : string) (v : V) :
  Spec.uniqueKeys m = true -> In (k, v) m -> get m k = Some v.
Proof.
  induction m as [|[k' v'] m IH]; simpl; [contradiction|].
  intros U [E | Hin].
  - injection E as -> ->. now rewrite String.eqb_refl.
  - apply (uniqueKeys_cons k' v' m) in U as [Hk U].
    destruct (String.eqb k' k) eqn:E.
    + apply String.eqb_eq in E. subst. apply In_keys in Hin. contradiction.
    + apply IH; assumption.
Qed.

Lemma keys_set (m : Map V) (k : string) (v : V) :
  keys (set m k v) = if existsb (String.eqb k) (keys m) then keys m
                     else keys m ++ [k].
Proof.
  induction m as [|[k' v'] m IH]; simpl; [reflexivity|].
  rewrite (String.eqb_sym k k').
  destruct (String.eqb k' k); simpl; [reflexivity|].
  unfold keys in *. rewrite IH. now destruct (existsb _ _).
Qed.

Lemma uniqueKeys_app_new (m : Map V) (k : string) (v : V) :
  Spec.uniqueKeys m = true -> ~ In k (keys m) ->
  Spec.uniqueKeys (m ++ [(k, v)]) = true.
Proof.
  induction m as [|[k' v'] m IH]; simpl; [reflexivity|].
  intros U Hk. apply andb_true_iff in U as [U1 U2].
  apply andb_true_iff. split.
  - apply negb_true_iff. apply negb_true_iff in U1.
    unfold keys in *. rewrite map_app, existsb_app, U1. simpl.
    rewrite orb_false_r. apply String.eqb_neq. intros ->. apply Hk. now left.
  - apply IH; [assumption|]. intros H. apply Hk. now right.
Qed.

Lemma set_new (m : Map V) (k : string) (v : V) :
  ~ In k (keys m) -> set m k v = m ++ [(k, v)].
Proof.
  induction m as [|[k' v'] m IH]; simpl; [reflexivity|].
  intros Hk. destruct (String.eqb k' k) eqn:E.
  - apply String.eqb_eq in E. subst. exfalso. apply Hk. now left.
  - rewrite IH; [reflexivity|]. intros H. apply Hk. now right.
Qed.

Lemma uniqueKeys_same_keys (m m' : Map V) :
  keys m = keys m' -> Spec.uniqueKeys m = Spec.uniqueKeys m'.
Proof.
  revert m'. induction m as [|[k v] m IH]; intros [|[k' v'] m']; simpl;
    try discriminate; [reflexivity|].
  intros [= -> E]. unfold keys in *. rewrite E. f_equal. now apply IH.
Qed.

(** [set] and [delete] keep the keys of a map distinct. *)
Lemma uniqueKeys_set (m : Map V) (k : string) (v : V) :
  Spec.uniqueKeys m = true -> Spec.uniqueKeys (set m k v) = true.
Proof.
  intros U. destruct (existsb (String.eqb k) (keys m)) eqn:E.
  - rewrite (uniqueKeys_same_keys (set m k v) m); [assumption|].
    now rewrite keys_set, E.
  - rewrite set_new.
    + apply uniqueKeys_app_new; [assumption|].
      intros H. apply existsb_eqb_In in H. congruence.
    + intros H. apply existsb_eqb_In in H. congruence.
Qed.

Lemma keys_delete_incl (m : Map V) (k k' : string) :
  In k' (keys (snd (delete m k))) -> In k' (keys m).
Proof.
  induction m as [|[k0 v0] m IH]; simpl; [tauto|].
  destruct (String.eqb k0 k); simpl; [tauto|].
  destruct (delete m k) as [b r]. simpl in *. tauto.
Qed.

Lemma uniqueKeys_delete (m : Map V) (k : string) :
  Spec.uniqueKeys m = true -> Spec.uniqueKeys (snd (delete m k)) = true.
Proof.
  induction m as [|[k0 v0] m IH]; simpl; [reflexivity|].
  intros U. apply andb_true_iff in U as [U1 U2].
  destruct (String.eqb k0 k); simpl; [assumption|].
  specialize (IH U2). pose proof (keys_delete_incl m k k0) as Hincl.
  destruct (delete m k) as [b r]. simpl in *.
  apply andb_true_iff. split; [|assumption].
  apply negb_true_iff. apply negb_true_iff in U1.
  destruct (existsb (String.eqb k0) (keys r)) eqn:E; [|reflexivity].
  apply existsb_eqb_In in E. apply Hincl in E.
  apply existsb_eqb_In in E. congruence.
Qed.
End Containers.

(** ** The sort

    What the selector needs of [Array.prototype.sort]: the sorted array
    holds the elements of the array, and an element that compares below
    those before it, and that none after it compares below, comes first.
    Both are followed through the phases of the sort: the natural run,
    its extension by binary insertion, and the merges of the pending
    runs. *)

Section Sorting.
Context {A : Type}.
Variable cmp : A -> A -> number.

(** *** The searches *)

Lemma shiftr_1_bounds (n : nat) : 0 < n -> Nat.shiftr n 1 < n.
Proof.
  intros H. rewrite Nat.shiftr_div_pow2. change (2 ^ 1) with 2.
  apply Nat.div_lt; lia.
Qed.

(** The binary search ends between its bounds, at an index the test
    sends to the right just before and to the left at it, if there are
    such. *)
Lemma searchLoop_spec (fuel : nat) (goRight : nat -> bool) (lo hi : nat) :
  lo <= hi -> hi - lo <= fuel ->
  lo <= searchLoop fuel goRight lo hi <= hi
  /\ (searchLoop fuel goRight lo hi = lo
      \/ goRight (searchLoop fuel goRight lo hi - 1) = true)
  /\ (searchLoop fuel goRight lo hi = hi
      \/ goRight (searchLoop fuel goRight lo hi) = false).
Proof.
  revert lo hi. induction fuel as [|fuel IH]; intros lo hi Hle Hfuel.
  - simpl. assert (hi = lo) by lia. subst. repeat split; auto.
  - cbn [searchLoop]. destruct (lo <? hi) eqn:E.
    + apply Nat.ltb_lt in E.
      pose proof (shiftr_1_bounds (hi - lo) ltac:(lia)) as Hm.
      set (m := lo + Nat.shiftr (hi - lo) 1) in *.
      assert (lo <= m < hi) as [Hm1 Hm2] by (unfold m; lia).
      destruct (goRight m) eqn:G.
      * destruct (IH (m + 1) hi ltac:(lia) ltac:(lia)) as (H1 & H2 & H3).
        repeat split; try lia; [|exact H3].
        right. destruct H2 as [-> | H2]; [|exact H2].
        replace (m + 1 - 1) with m by lia. exact G.
      * destruct (IH lo m ltac:(lia) ltac:(lia)) as (H1 & H2 & H3).
        repeat split; try lia; [exact H2|].
        right. destruct H3 as [-> | H3]; [exact G | exact H3].
    + apply Nat.ltb_ge in E. assert (hi = lo) by lia. subst.
      repeat split; auto.
Qed.

(** The galloping loop ends with the test holding at [lastOfs] and
    failing at [offset], unless [offset] has reached [maxOfs]. *)
Lemma gallopLoop_spec (fuel : nat) (continue : nat -> bool)
      (maxOfs lastOfs offset : nat) :
  lastOfs < offset -> lastOfs < maxOfs -> continue lastOfs = true ->
  maxOfs - offset <= fuel ->
  fst (gallopLoop fuel continue maxOfs lastOfs offset)
  < snd (gallopLoop fuel continue maxOfs lastOfs offset)
  /\ fst (gallopLoop fuel continue maxOfs lastOfs offset) < maxOfs
  /\ continue (fst (gallopLoop fuel continue maxOfs lastOfs offset)) = true
  /\ (maxOfs <= snd (gallopLoop fuel continue maxOfs lastOfs offset)
      \/ continue (snd (gallopLoop fuel continue maxOfs lastOfs offset)) = false).
Proof.
  revert lastOfs offset.
  induction fuel as [|fuel IH]; intros lastOfs offset H1 H2 H3 H4.
  - simpl. repeat split; auto. left. lia.
  - cbn [gallopLoop]. destruct (offset <? maxOfs) eqn:E; cbn [andb].
    + apply Nat.ltb_lt in E. destruct (continue offset) eqn:C.
      * apply IH; try assumption; lia.
      * simpl. repeat split; auto.
    + apply Nat.ltb_ge in E. simpl. repeat split; auto.
Qed.

(** So GallopLeft and GallopRight return an index that their own tests
    justify on both sides, whatever the comparator. *)
Lemma gallopSearch_spec (goRight : nat -> bool) (len hint : nat) :
  hint < len ->
  gallopSearch goRight len hint <= len
  /\ (gallopSearch goRight len hint = 0
      \/ goRight (gallopSearch goRight len hint - 1) = true)
  /\ (gallopSearch goRight len hint = len
      \/ goRight (gallopSearch goRight len hint) = false).
Proof.
  intros Hh. unfold gallopSearch. destruct (goRight hint) eqn:G.
  - pose proof (gallopLoop_spec (len - hint)
                  (fun ofs => goRight (hint + ofs)) (len - hint) 0 1
                  ltac:(lia) ltac:(lia)
                  ltac:(cbv beta; now rewrite Nat.add_0_r) ltac:(lia))
      as (L1 & L2 & L3 & L4).
    destruct (gallopLoop _ _ _ _ _) as [lastOfs offset]. cbn [fst snd] in *.
    destruct (searchLoop_spec len goRight (lastOfs + hint + 1)
                (Nat.min offset (len - hint) + hint)
                ltac:(lia) ltac:(lia)) as (S1 & S2 & S3).
    split; [lia|]. split.
    + right. destruct S2 as [-> | S2]; [|exact S2].
      replace (lastOfs + hint + 1 - 1) with (hint + lastOfs) by lia. exact L3.
    + destruct S3 as [S3 | S3]; [|now right]. rewrite S3.
      destruct L4 as [L4 | L4].
      * left. lia.
      * destruct (Nat.le_gt_cases (len - hint) offset); [left; lia|].
        right. replace (Nat.min offset (len - hint) + hint)
                 with (hint + offset) by lia. exact L4.
  - pose proof (gallopLoop_spec (hint + 1)
                  (fun ofs => negb (goRight (hint - ofs))) (hint + 1) 0 1
                  ltac:(lia) ltac:(lia)
                  ltac:(cbv beta; now rewrite Nat.sub_0_r, G) ltac:(lia))
      as (L1 & L2 & L3 & L4).
    destruct (gallopLoop _ _ _ _ _) as [lastOfs offset]. cbn [fst snd] in *.
    destruct (searchLoop_spec len goRight
                (hint + 1 - Nat.min offset (hint + 1)) (hint - lastOfs)
                ltac:(lia) ltac:(lia)) as (S1 & S2 & S3).
    apply negb_true_iff in L3.
    split; [lia|]. split.
    + destruct S2 as [S2 | S2]; [|now right]. rewrite S2.
      destruct L4 as [L4 | L4].
      * left. lia.
      * destruct (Nat.le_gt_cases (hint + 1) offset); [left; lia|].
        right. apply negb_false_iff in L4.
        replace (hint + 1 - Nat.min offset (hint + 1) - 1)
          with (hint - offset) by lia. exact L4.
    + right. destruct S3 as [-> | S3]; [exact L3 | exact S3].
Qed.


Lemma GallopRight_le (a : list A) (key : A) (hint : nat) :
  hint < List.length a -> GallopRight cmp a key hint <= List.length a.
Proof. intros H. now apply gallopSearch_spec. Qed.

Lemma GallopLeft_le (a : list A) (key : A) (hint : nat) :
  hint < List.length a -> GallopLeft cmp a key hint <= List.length a.
Proof. intros H. now apply gallopSearch_spec. Qed.

(** GallopRight from the left end passes the first element unless the
    key compares below it, and stops at once when the key compares below
    every element; GallopLeft passes a first element that compares below
    the key. *)
Lemma GallopRight_pos (x : A) (t : list A) (key : A) :
  lessThan cmp key x = false -> 1 <= GallopRight cmp (x :: t) key 0.
Proof.
  intros H. unfold GallopRight.
  destruct (gallopSearch_spec
              (fun i => negb (lessThan cmp key (nth i (x :: t) key)))
              (List.length (x :: t)) 0 ltac:(simpl; lia)) as (_ & _ & [E | E]).
  - rewrite E. simpl. lia.
  - destruct (gallopSearch _ _ _); [|lia]. simpl in E. now rewrite H in E.
Qed.

Lemma GallopRight_zero (a : list A) (key : A) :
  a <> [] -> Forall (fun y => lessThan cmp key y = true) a ->
  GallopRight cmp a key 0 = 0.
Proof.
  intros Hne Hall. unfold GallopRight.
  destruct (gallopSearch_spec
              (fun i => negb (lessThan cmp key (nth i a key)))
              (List.length a) 0 ltac:(destruct a; [congruence | simpl; lia]))
    as (Hle & [E | E] & _); [exact E|].
  destruct (gallopSearch _ _ _) as [|r]; [reflexivity|]. exfalso.
  replace (S r - 1) with r in E by lia.
  rewrite Forall_forall in Hall.
  rewrite (Hall (nth r a key)) in E; [discriminate|]. apply nth_In. lia.
Qed.

Lemma GallopLeft_pos (x : A) (t : list A) (key : A) (hint : nat) :
  lessThan cmp x key = true -> hint < List.length (x :: t) ->
  1 <= GallopLeft cmp (x :: t) key hint.
Proof.
  intros H Hh. unfold GallopLeft.
  destruct (gallopSearch_spec
              (fun i => lessThan cmp (nth i (x :: t) key) key)
              (List.length (x :: t)) hint Hh) as (_ & _ & [E | E]).
  - rewrite E. simpl. lia.
  - destruct (gallopSearch _ _ _); [|lia]. simpl in E. congruence.
Qed.

(** *** The merges move elements, and nothing else *)

Lemma In_firstn_skipn (x : A) (k : nat) (l : list A) :
  In x l <-> In x (firstn k l) \/ In x (skipn k l).
Proof. rewrite <- in_app_iff, firstn_skipn. tauto. Qed.

Ltac split_facts x :=
  repeat match goal with
  | |- context [firstn ?k ?l] =>
      lazymatch goal with
      | _ : In x l <-> In x (firstn k l) \/ In x (skipn k l) |- _ => fail
      | _ => pose proof (In_firstn_skipn x k l)
      end
  | |- context [skipn ?k ?l] =>
      lazymatch goal with
      | _ : In x l <-> In x (firstn k l) \/ In x (skipn k l) |- _ => fail
      | _ => pose proof (In_firstn_skipn x k l)
      end
  end.

Ltac break_branch :=
  match goal with
  | |- context [if ?c then _ else _] => destruct c eqn:?
  | |- context [match ?l with [] => _ | _ :: _ => _ end] => destruct l eqn:?
  end.

Ltac break_branches := repeat break_branch.

Ltac In_normal :=
  repeat first [rewrite in_app_iff | rewrite <- in_rev | progress cbn [In]];
  repeat match goal with
         | H : _ |- _ => rewrite in_app_iff in H
         | H : _ |- _ => rewrite <- in_rev in H
         | H : _ |- _ => progress cbn [In] in H
         end.

Ltac use_equations :=
  repeat match goal with
  | E : skipn _ _ = _ |- _ => try rewrite E in *; clear E
  | E : firstn _ _ = _ |- _ => try rewrite E in *; clear E
  end.

Ltac use_facts :=
  repeat match goal with
         | H : _ <-> _ |- _ => rewrite H; clear H
         end;
  repeat match goal with
         | H : _ <-> _ |- _ => clear H
         end.

Lemma mergeLowLoop_In (fuel : nat) :
  forall galloping dest a b wa wb mg st x,
    In x (fst (mergeLowLoop cmp fuel galloping dest a b wa wb mg st))
    <-> In x dest \/ In x a \/ In x b.
Proof.
  induction fuel as [|fuel IH]; intros.
  - destruct a, b; cbn [mergeLowLoop fst]; unfold succeedLow;
      rewrite !in_app_iff, <- in_rev; tauto.
  - destruct a as [|a0 a']; [|destruct b as [|b0 b']];
      try (cbn [mergeLowLoop fst]; unfold succeedLow;
           rewrite !in_app_iff, <- in_rev; tauto).
    cbn [mergeLowLoop]. break_branches;
      unfold succeedLow, copyB; cbn [fst]; rewrite ?IH; split_facts x;
      use_equations; In_normal; use_facts; tauto.
Qed.

Lemma MergeLow_In (a b : list A) (st : nat) (x : A) :
  In x (fst (MergeLow cmp a b st)) <-> In x a \/ In x b.
Proof.
  unfold MergeLow. destruct b as [|b0 b']; [simpl; tauto|].
  break_branches; unfold succeedLow, copyB; cbn [fst];
    rewrite ?mergeLowLoop_In; In_normal; tauto.
Qed.

Lemma skipn_lastOf (l : list A) (d : A) :
  l <> [] -> skipn (List.length l - 1) l = [lastOf l d].
Proof.
  intros Hne. unfold lastOf.
  induction l as [|y l IH]; [congruence|].
  destruct l as [|z l]; [reflexivity|].
  replace (List.length (y :: z :: l) - 1) with (S (List.length (z :: l) - 1))
    by (simpl; lia).
  cbn [skipn nth]. apply IH. discriminate.
Qed.

Lemma In_butLast_lastOf (x : A) (l : list A) (d : A) :
  l <> [] -> (In x l <-> In x (butLast l) \/ lastOf l d = x).
Proof.
  intros Hne. unfold butLast.
  rewrite (In_firstn_skipn x (List.length l - 1) l), (skipn_lastOf l d Hne).
  simpl. tauto.
Qed.

Ltac bool_to_prop :=
  repeat match goal with
  | H : andb _ _ = true |- _ => apply andb_true_iff in H; destruct H
  | H : andb _ _ = false |- _ => apply andb_false_iff in H; destruct H
  | H : Nat.eqb _ _ = true |- _ => apply Nat.eqb_eq in H
  | H : Nat.eqb _ _ = false |- _ => apply Nat.eqb_neq in H
  | H : Nat.ltb _ _ = true |- _ => apply Nat.ltb_lt in H
  | H : Nat.ltb _ _ = false |- _ => apply Nat.ltb_ge in H
  | H : Nat.leb _ _ = true |- _ => apply Nat.leb_le in H
  | H : Nat.leb _ _ = false |- _ => apply Nat.leb_gt in H
  end.

Ltac lengths :=
  unfold butLast in *;
  repeat first [rewrite length_firstn in * | rewrite length_skipn in *
               | rewrite length_app in * | rewrite length_rev in *];
  cbn [List.length] in *.

Ltac nonempty :=
  let Hn := fresh in
  intros Hn; apply (f_equal (@List.length A)) in Hn; bool_to_prop; lengths; lia.

Ltac last_facts x :=
  repeat match goal with
  | |- context [lastOf ?l ?d] =>
      lazymatch goal with
      | _ : In x l <-> In x (butLast l) \/ lastOf l d = x |- _ => fail
      | _ => let Hne := fresh in
             assert (Hne : l <> []) by nonempty;
             pose proof (In_butLast_lastOf x l d Hne); clear Hne
      end
  end.

Lemma mergeHighLoop_In (fuel : nat) :
  forall galloping dest a b wa wb mg st x,
    In x (fst (mergeHighLoop cmp fuel galloping dest a b wa wb mg st))
    <-> In x dest \/ In x a \/ In x b.
Proof.
  induction fuel as [|fuel IH]; intros.
  - destruct a, b; cbn [mergeHighLoop fst]; unfold succeedHigh;
      rewrite !in_app_iff; tauto.
  - destruct a as [|a0 a']; [|destruct b as [|b0 b']];
      try (cbn [mergeHighLoop fst]; unfold succeedHigh;
           rewrite !in_app_iff; simpl In; tauto).
    cbn [mergeHighLoop]. break_branches;
      unfold succeedHigh, copyA; cbn [fst]; rewrite ?IH.
    all: last_facts x.
    all: split_facts x; use_equations; In_normal; use_facts; tauto.
Qed.

Lemma MergeHigh_In (a b : list A) (st : nat) (x : A) :
  In x (fst (MergeHigh cmp a b st)) <-> In x a \/ In x b.
Proof.
  unfold MergeHigh. destruct a as [|a0 a']; [simpl; tauto|].
  break_branches; unfold succeedHigh, copyA; cbn [fst];
    rewrite ?mergeHighLoop_In; last_facts x; In_normal; use_facts; tauto.
Qed.

Lemma MergeAt_In (a b : list A) (st : nat) (x : A) :
  In x (fst (MergeAt cmp a b st)) <-> In x a \/ In x b.
Proof.
  unfold MergeAt. destruct b as [|keyRight b']; [simpl; tauto|].
  break_branches; cbn [fst]; split_facts x; In_normal;
    rewrite ?MergeLow_In, ?MergeHigh_In; use_facts; tauto.
Qed.

(** *** Which element comes first *)

Lemma hd_error_app (x : A) (l l' : list A) :
  hd_error l = Some x -> hd_error (l ++ l') = Some x.
Proof. destruct l; simpl; [discriminate | trivial]. Qed.

Lemma hd_error_firstn (x : A) (k : nat) (l : list A) :
  hd_error l = Some x -> 1 <= k -> hd_error (firstn k l) = Some x.
Proof. destruct l, k; simpl; trivial; lia. Qed.

Lemma hd_error_butLast (x : A) (l : list A) :
  hd_error l = Some x -> 2 <= List.length l -> hd_error (butLast l) = Some x.
Proof. intros H Hl. apply hd_error_firstn; [assumption | lia]. Qed.

Lemma length_butLast (l : list A) : List.length (butLast l) = List.length l - 1.
Proof. unfold butLast. rewrite length_firstn. lia. Qed.

Lemma length_0_nil (l : list A) : List.length l = 0 -> l = [].
Proof. destruct l; [trivial | discriminate]. Qed.

Lemma lastOf_In (l : list A) (d : A) : l <> [] -> In (lastOf l d) l.
Proof.
  intros H. apply nth_In. destruct l; [congruence | simpl; lia].
Qed.

Lemma Forall_firstn (P : A -> Prop) (k : nat) (l : list A) :
  Forall P l -> Forall P (firstn k l).
Proof.
  rewrite !Forall_forall. intros H x Hx. apply H.
  apply (In_firstn_skipn x k l). now left.
Qed.

Lemma Forall_skipn (P : A -> Prop) (k : nat) (l : list A) :
  Forall P l -> Forall P (skipn k l).
Proof.
  rewrite !Forall_forall. intros H x Hx. apply H.
  apply (In_firstn_skipn x k l). now right.
Qed.

(** MergeLow writes the first element of run B first. *)
Lemma rev_step (x : A) (l : list A) : rev (x :: l) = rev l ++ [x].
Proof. reflexivity. Qed.

Lemma mergeLowLoop_head (x : A) (fuel : nat) :
  forall galloping dest a b wa wb mg st,
    hd_error (rev dest) = Some x ->
    hd_error (fst (mergeLowLoop cmp fuel galloping dest a b wa wb mg st))
    = Some x.
Proof.
  induction fuel as [|fuel IH]; intros galloping dest a b wa wb mg st H.
  - destruct a, b; cbn [mergeLowLoop fst]; unfold succeedLow;
      now apply hd_error_app.
  - destruct a as [|a0 a']; [|destruct b as [|b0 b']];
      try (cbn [mergeLowLoop fst]; unfold succeedLow; now apply hd_error_app).
    cbn [mergeLowLoop]. break_branches;
      unfold succeedLow, copyB; cbn [fst];
      try apply IH; repeat first [rewrite rev_step | rewrite rev_app_distr];
      repeat apply hd_error_app; exact H.
Qed.

Lemma MergeLow_head (x : A) (a b : list A) (st : nat) :
  hd_error b = Some x -> hd_error (fst (MergeLow cmp a b st)) = Some x.
Proof.
  destruct b as [|b0 b']; [discriminate|]. intros [= ->].
  unfold MergeLow. break_branches; try reflexivity.
  now apply mergeLowLoop_head.
Qed.

Lemma hd_error_cons (x : A) (l : list A) :
  hd_error l = Some x -> exists t, l = x :: t.
Proof. destruct l; [discriminate|]. intros [= ->]. now eexists. Qed.

Lemma GallopLeft_pos' (x : A) (b : list A) (key : A) (hint : nat) :
  hd_error b = Some x -> lessThan cmp x key = true -> hint < List.length b ->
  1 <= GallopLeft cmp b key hint.
Proof.
  intros H. apply hd_error_cons in H as [t ->]. apply GallopLeft_pos.
Qed.

Lemma GallopRight_pos' (x : A) (a : list A) (key : A) :
  hd_error a = Some x -> lessThan cmp key x = false -> 1 <= GallopRight cmp a key 0.
Proof.
  intros H. apply hd_error_cons in H as [t ->]. apply GallopRight_pos.
Qed.

(** MergeHigh leaves the first element of run B first when it compares
    below every element of run A: the galloping search for an element of
    A in what is left of B never goes as far as its first element. *)
Lemma mergeHighLoop_head (x : A) (fuel : nat) :
  forall galloping dest a b wa wb mg st,
    hd_error b = Some x -> 2 <= List.length b -> a <> [] ->
    List.length a + List.length b <= fuel ->
    Forall (fun y => lessThan cmp x y = true) a ->
    hd_error (fst (mergeHighLoop cmp fuel galloping dest a b wa wb mg st))
    = Some x.
Proof.
  induction fuel as [|fuel IH];
    intros galloping dest a b wa wb mg st Hb Hlen Ha Hfuel Hall; [lia|].
  destruct a as [|a0 a']; [congruence|].
  destruct b as [|b0 b']; [discriminate|].
  cbn [mergeHighLoop].
  set (a := a0 :: a') in *. set (b := b0 :: b') in *.
  destruct galloping.
  - set (kA := GallopRight cmp a (lastOf b b0) (List.length a - 1)).
    set (a1 := firstn kA a).
    assert (La1 : List.length a1 <= List.length a)
      by (unfold a1; rewrite length_firstn; lia).
    assert (Hall1 : Forall (fun y => lessThan cmp x y = true) a1)
      by now apply Forall_firstn.
    destruct ((0 <? List.length a - kA) && (List.length a1 =? 0)) eqn:C1.
    + apply andb_true_iff in C1 as [_ C1]. apply Nat.eqb_eq in C1.
      cbn [fst]. unfold succeedHigh. rewrite (length_0_nil _ C1).
      cbn [app]. now apply hd_error_app.
    + assert (Ha1 : a1 <> []).
      { intros E. rewrite E in C1. cbn [List.length Nat.eqb] in C1.
        rewrite andb_true_r in C1. apply Nat.ltb_ge in C1.
        unfold a1 in E. rewrite firstn_all2 in E by lia. congruence. }
      pose proof (hd_error_butLast x b Hb Hlen) as Hb1.
      pose proof (length_butLast b) as Lb1.
      set (b1 := butLast b) in *.
      destruct (List.length b1 =? 1) eqn:C2.
      * cbn [fst]. unfold copyA. now apply hd_error_app.
      * apply Nat.eqb_neq in C2.
        set (kB := GallopLeft cmp b1 (lastOf a1 a0) (List.length b1 - 1)).
        assert (HkB : 1 <= kB).
        { apply (GallopLeft_pos' x); [assumption| |lia].
          rewrite Forall_forall in Hall1. apply Hall1.
          now apply lastOf_In. }
        set (b2 := firstn kB b1).
        assert (Hb2 : hd_error b2 = Some x) by now apply hd_error_firstn.
        assert (Lb2 : List.length b2 = Nat.min kB (List.length b1))
          by apply length_firstn.
        destruct ((0 <? List.length b1 - kB) && (List.length b2 =? 1)) eqn:C3.
        { cbn [fst]. unfold copyA. now apply hd_error_app. }
        destruct ((0 <? List.length b1 - kB) && (List.length b2 =? 0)) eqn:C4.
        { apply andb_true_iff in C4 as [_ C4]. apply Nat.eqb_eq in C4. lia. }
        pose proof (length_butLast a1) as La2.
        set (a2 := butLast a1) in *.
        destruct (List.length a2 =? 0) eqn:C5.
        { apply Nat.eqb_eq in C5. cbn [fst]. unfold succeedHigh.
          rewrite (length_0_nil _ C5). cbn [app]. now apply hd_error_app. }
        apply Nat.eqb_neq in C5.
        assert (H2 : 2 <= List.length b2).
        { apply andb_false_iff in C3 as [C3 | C3];
            [apply Nat.ltb_ge in C3 | apply Nat.eqb_neq in C3]; lia. }
        assert (Hall2 : Forall (fun y => lessThan cmp x y = true) a2)
          by now apply Forall_firstn.
        destruct ((kMinGallopWins <=? List.length a - kA)
                  || (kMinGallopWins <=? List.length b1 - kB));
          apply IH; try assumption; try lia;
          intros E; rewrite E in C5; simpl in C5; lia.
  - destruct (lessThan cmp (lastOf b b0) (lastOf a a0)) eqn:C.
    + pose proof (length_butLast a) as La1.
      set (a1 := butLast a) in *.
      destruct (List.length a1 =? 0) eqn:C1.
      { apply Nat.eqb_eq in C1. cbn [fst]. unfold succeedHigh.
        rewrite (length_0_nil _ C1). cbn [app]. now apply hd_error_app. }
      apply Nat.eqb_neq in C1.
      assert (Hall1 : Forall (fun y => lessThan cmp x y = true) a1)
        by now apply Forall_firstn.
      destruct (mg <=? wa + 1); apply IH; try assumption; try lia;
        intros E; rewrite E in C1; simpl in C1; lia.
    + pose proof (hd_error_butLast x b Hb Hlen) as Hb1.
      pose proof (length_butLast b) as Lb1.
      set (b1 := butLast b) in *.
      destruct (List.length b1 =? 1) eqn:C2.
      { cbn [fst]. unfold copyA. now apply hd_error_app. }
      apply Nat.eqb_neq in C2.
      destruct (mg <=? wb + 1); apply IH; try assumption; lia.
Qed.

Lemma MergeHigh_head (x : A) (a b : list A) (st : nat) :
  hd_error b = Some x -> Forall (fun y => lessThan cmp x y = true) a ->
  hd_error (fst (MergeHigh cmp a b st)) = Some x.
Proof.
  intros Hb Hall. unfold MergeHigh. destruct a as [|a0 a']; [exact Hb|].
  set (a := a0 :: a') in *.
  pose proof (length_butLast a) as La1.
  destruct (List.length (butLast a) =? 0) eqn:C1.
  { apply Nat.eqb_eq in C1. cbn [fst]. unfold succeedHigh.
    rewrite (length_0_nil _ C1). cbn [app]. now apply hd_error_app. }
  apply Nat.eqb_neq in C1.
  destruct (List.length b =? 1) eqn:C2.
  { cbn [fst]. unfold copyA. now apply hd_error_app. }
  apply Nat.eqb_neq in C2.
  apply mergeHighLoop_head; try assumption.
  - destruct b as [|? [|? ?]]; simpl in *; try discriminate; lia.
  - intros E. rewrite E in C1. simpl in C1. lia.
  - lia.
  - now apply Forall_firstn.
Qed.

(** A run stays headed by its first element when merged with a later
    run whose first element does not compare below it, *)
Lemma MergeAt_keeps_head (x : A) (a b : list A) (st : nat) :
  hd_error a = Some x ->
  (forall y, hd_error b = Some y -> lessThan cmp y x = false) ->
  hd_error (fst (MergeAt cmp a b st)) = Some x.
Proof.
  intros Ha Hb. unfold MergeAt. destruct b as [|keyRight b']; [exact Ha|].
  pose proof (GallopRight_pos' x a keyRight Ha (Hb keyRight eq_refl)) as Hk.
  break_branches; cbn [fst];
    repeat first [apply hd_error_app | apply hd_error_firstn]; assumption.
Qed.

(** and a run headed by an element that compares below every element
    of an earlier run gives a merged run headed by that element. *)
Lemma MergeAt_takes_head (x : A) (a b : list A) (st : nat) :
  hd_error b = Some x -> Forall (fun y => lessThan cmp x y = true) a ->
  hd_error (fst (MergeAt cmp a b st)) = Some x.
Proof.
  intros Hb Hall. unfold MergeAt.
  destruct (hd_error_cons x b Hb) as [b' E]. rewrite E. rewrite <- E.
  destruct a as [|a0 a'].
  { rewrite skipn_nil. exact Hb. }
  set (a := a0 :: a') in *.
  rewrite (GallopRight_zero a x) by (try assumption; discriminate).
  cbn [skipn firstn app].
  replace (List.length a =? 0) with false by reflexivity.
  set (lengthB := GallopLeft cmp b (lastOf a x) (List.length b - 1)).
  assert (HB : 1 <= lengthB).
  { apply (GallopLeft_pos' x); [assumption| |].
    - rewrite Forall_forall in Hall. apply Hall. apply lastOf_In. discriminate.
    - rewrite E. simpl. lia. }
  destruct (lengthB =? 0) eqn:C; [apply Nat.eqb_eq in C; lia|].
  cbn [fst]. apply hd_error_app.
  destruct (List.length a <=? lengthB).
  - apply MergeLow_head. now apply hd_error_firstn.
  - apply MergeHigh_head; [now apply hd_error_firstn | assumption].
Qed.

(** *** The bounds on the loops are never reached

    Each loop gives the same result for every bound that is at least
    the measure it starts from, and every call passes such a bound. *)

Lemma minRunLoop_fuel (fuel : nat) :
  forall fuel' n r,
    n <= fuel -> n <= fuel' ->
    minRunLoop fuel n r = minRunLoop fuel' n r.
Proof.
  induction fuel as [|fuel IH]; intros fuel' n r H H';
    destruct fuel' as [|fuel'];
    try (assert (n = 0) as -> by lia; reflexivity).
  cbn [minRunLoop]. destruct (64 <=? n) eqn:C; [|reflexivity].
  apply Nat.leb_le in C.
  pose proof (shiftr_1_bounds n ltac:(lia)). apply IH; lia.
Qed.

Lemma searchLoop_fuel (fuel : nat) :
  forall fuel' goRight lo hi,
    hi - lo <= fuel -> hi - lo <= fuel' ->
    searchLoop fuel goRight lo hi = searchLoop fuel' goRight lo hi.
Proof.
  induction fuel as [|fuel IH]; intros fuel' goRight lo hi H H';
    destruct fuel' as [|fuel']; cbn [searchLoop];
    try (destruct (lo <? hi) eqn:C; [apply Nat.ltb_lt in C; lia | reflexivity]).
  destruct (lo <? hi) eqn:C; [|reflexivity]. apply Nat.ltb_lt in C.
  pose proof (shiftr_1_bounds (hi - lo) ltac:(lia)).
  destruct (goRight _); apply IH; lia.
Qed.

Lemma gallopLoop_fuel (fuel : nat) :
  forall fuel' continue maxOfs lastOfs offset,
    maxOfs - offset <= fuel -> maxOfs - offset <= fuel' ->
    gallopLoop fuel continue maxOfs lastOfs offset
    = gallopLoop fuel' continue maxOfs lastOfs offset.
Proof.
  induction fuel as [|fuel IH];
    intros fuel' continue maxOfs lastOfs offset H H';
    destruct fuel' as [|fuel']; cbn [gallopLoop];
    try (destruct (offset <? maxOfs) eqn:C;
         [apply Nat.ltb_lt in C; lia | reflexivity]).
  destruct (offset <? maxOfs) eqn:C; [|reflexivity].
  apply Nat.ltb_lt in C. cbn [andb].
  destruct (continue offset); [|reflexivity]. apply IH; lia.
Qed.

Ltac eq_lengths :=
  repeat match goal with
  | E : skipn _ _ = _ |- _ => apply (f_equal (@List.length A)) in E
  | E : firstn _ _ = _ |- _ => apply (f_equal (@List.length A)) in E
  end.

Lemma mergeLowLoop_fuel (fuel : nat) :
  forall fuel' galloping dest a b wa wb mg st,
    List.length a + List.length b <= fuel -> List.length a + List.length b <= fuel' ->
    mergeLowLoop cmp fuel galloping dest a b wa wb mg st
    = mergeLowLoop cmp fuel' galloping dest a b wa wb mg st.
Proof.
  induction fuel as [|fuel IH];
    intros fuel' galloping dest a b wa wb mg st H H';
    destruct fuel' as [|fuel'];
    try (destruct a, b; simpl in *; try lia; reflexivity).
  destruct a as [|a0 a']; [reflexivity|].
  destruct b as [|b0 b']; [reflexivity|].
  cbn [mergeLowLoop].
  break_branches; try reflexivity; apply IH;
    eq_lengths; bool_to_prop; lengths; lia.
Qed.

Lemma mergeHighLoop_fuel (fuel : nat) :
  forall fuel' galloping dest a b wa wb mg st,
    List.length a + List.length b <= fuel -> List.length a + List.length b <= fuel' ->
    mergeHighLoop cmp fuel galloping dest a b wa wb mg st
    = mergeHighLoop cmp fuel' galloping dest a b wa wb mg st.
Proof.
  induction fuel as [|fuel IH];
    intros fuel' galloping dest a b wa wb mg st H H';
    destruct fuel' as [|fuel'];
    try (destruct a, b; simpl in *; try lia; reflexivity).
  destruct a as [|a0 a']; [reflexivity|].
  destruct b as [|b0 b']; [reflexivity|].
  cbn [mergeHighLoop].
  break_branches; try reflexivity; apply IH;
    eq_lengths; bool_to_prop; lengths; lia.
Qed.

(** *** Runs *)

Lemma runLoop_le (d : bool) (previous : A) (rest : list A) :
  runLoop cmp d previous rest <= List.length rest.
Proof.
  revert previous. induction rest as [|y rest IH]; intros previous; simpl.
  - lia.
  - destruct (Bool.eqb _ _); [specialize (IH y)|]; lia.
Qed.

Lemma CountAndMakeRun_shape (l : list A) :
  l <> [] ->
  exists n r,
    CountAndMakeRun cmp l = (n, r ++ skipn n l)
    /\ List.length r = n /\ 1 <= n <= List.length l
    /\ (r = firstn n l \/ r = rev (firstn n l)).
Proof.
  intros Hne. destruct l as [|x0 [|x1 rest]]; [congruence| |].
  - exists 1, [x0]. simpl. repeat split; auto.
  - unfold CountAndMakeRun.
    pose proof (runLoop_le (lessThan cmp x1 x0) x1 rest) as Hk.
    set (n := 2 + runLoop cmp (lessThan cmp x1 x0) x1 rest) in *.
    set (l := x0 :: x1 :: rest) in *.
    assert (Hn : 1 <= n <= List.length l) by (unfold l, n; simpl; lia).
    destruct (lessThan cmp x1 x0).
    + exists n, (rev (firstn n l)). repeat split; try lia; [|now right].
      rewrite length_rev, length_firstn. lia.
    + exists n, (firstn n l). repeat split; try lia; [| |now left].
      * now rewrite firstn_skipn.
      * rewrite length_firstn. lia.
Qed.

(** Binary insertion and the next run. *)
Lemma insertPivot_In (s : list A) (p x : A) :
  In x (insertPivot cmp s p) <-> p = x \/ In x s.
Proof.
  unfold insertPivot.
  set (left := searchLoop _ _ _ _).
  rewrite in_app_iff. simpl. pose proof (In_firstn_skipn x left s). tauto.
Qed.

Lemma BinaryInsertionSort_In (s more : list A) (x : A) :
  In x (BinaryInsertionSort cmp s more) <-> In x s \/ In x more.
Proof.
  unfold BinaryInsertionSort. revert s.
  induction more as [|p more IH]; intros s; simpl; [tauto|].
  rewrite IH, insertPivot_In. tauto.
Qed.

Lemma Forall_In_iff (P : A -> Prop) (l l' : list A) :
  (forall x, In x l -> In x l') -> Forall P l' -> Forall P l.
Proof. rewrite !Forall_forall. auto. Qed.

Lemma BinaryInsertionSort_Forall (P : A -> Prop) (s more : list A) :
  Forall P s -> Forall P more -> Forall P (BinaryInsertionSort cmp s more).
Proof.
  intros Hs Hm. apply (Forall_In_iff P _ (s ++ more)).
  - intros x Hx. apply BinaryInsertionSort_In in Hx. apply in_or_app. tauto.
  - apply Forall_app. now split.
Qed.

(** What [nextRun] returns, given the natural run. *)
Lemma nextRun_eq (minRunLength : nat) (l : list A) (n : nat) (r : list A) :
  CountAndMakeRun cmp l = (n, r ++ skipn n l) ->
  List.length r = n -> 1 <= n <= List.length l ->
  exists f,
    n <= f <= List.length l
    /\ nextRun cmp minRunLength l
       = (BinaryInsertionSort cmp r (firstn (f - n) (skipn n l)), skipn f l).
Proof.
  intros E Lr Hn. unfold nextRun. rewrite E.
  set (f := if n <? minRunLength then Nat.min minRunLength (List.length l) else n).
  assert (Hf : n <= f <= List.length l).
  { unfold f. destruct (n <? minRunLength) eqn:C; [|lia].
    apply Nat.ltb_lt in C. lia. }
  exists f. split; [assumption|]. f_equal.
  - f_equal.
    + rewrite firstn_app, firstn_all2 by lia.
      replace (n - List.length r) with 0 by lia. cbn [firstn].
      apply app_nil_r.
    + rewrite skipn_app, skipn_all2 by lia.
      replace (n - List.length r) with 0 by lia. reflexivity.
  - rewrite skipn_app, skipn_all2 by lia. cbn [app].
    rewrite skipn_skipn. f_equal. lia.
Qed.

Lemma nextRun_In (minRunLength : nat) (l : list A) (x : A) :
  l <> [] ->
  (In x l <-> In x (fst (nextRun cmp minRunLength l))
              \/ In x (snd (nextRun cmp minRunLength l))).
Proof.
  intros Hne.
  destruct (CountAndMakeRun_shape l Hne) as (n & r & E & Lr & Hn & Hr).
  destruct (nextRun_eq minRunLength l n r E Lr Hn) as (f & Hf & ->).
  cbn [fst snd]. rewrite BinaryInsertionSort_In.
  pose proof (In_firstn_skipn x n l) as F1.
  pose proof (In_firstn_skipn x (f - n) (skipn n l)) as F2.
  rewrite skipn_skipn in F2. replace (f - n + n) with f in F2 by lia.
  assert (In x r <-> In x (firstn n l))
    by (destruct Hr as [-> | ->]; [tauto | symmetry; apply in_rev]).
  tauto.
Qed.

Lemma nextRun_shorter (minRunLength : nat) (l : list A) :
  l <> [] -> List.length (snd (nextRun cmp minRunLength l)) < List.length l.
Proof.
  intros Hne.
  destruct (CountAndMakeRun_shape l Hne) as (n & r & E & Lr & Hn & Hr).
  destruct (nextRun_eq minRunLength l n r E Lr Hn) as (f & Hf & ->).
  cbn [snd]. rewrite length_skipn. lia.
Qed.

(** *** The pending runs *)

Section Collapse.
Variable Inv : list (list A) -> Prop.
Hypothesis Inv_top :
  forall top second rest st,
    Inv (top :: second :: rest) ->
    Inv (fst (MergeAt cmp second top st) :: rest).
Hypothesis Inv_second :
  forall top second third rest st,
    Inv (top :: second :: third :: rest) ->
    Inv (top :: fst (MergeAt cmp third second st) :: rest).

Lemma MergeCollapse_Inv (fuel : nat) :
  forall pendingRuns st,
    Inv pendingRuns -> Inv (fst (MergeCollapse cmp fuel pendingRuns st)).
Proof.
  induction fuel as [|fuel IH]; intros pendingRuns st H.
  - destruct pendingRuns; exact H.
  - destruct pendingRuns as [|top [|second rest]]; try exact H.
    cbn [MergeCollapse].
    destruct (runInvariantViolated (top :: second :: rest)).
    + destruct rest as [|third rest]; [exact H|].
      destruct (List.length third <? List.length top).
      * pose proof (Inv_second top second third rest st H) as H'.
        destruct (MergeAt cmp third second st) as [m st']. now apply IH.
      * pose proof (Inv_top top second (third :: rest) st H) as H'.
        destruct (MergeAt cmp second top st) as [m st']. now apply IH.
    + destruct (List.length second <=? List.length top); [|exact H].
      pose proof (Inv_top top second rest st H) as H'.
      destruct (MergeAt cmp second top st) as [m st']. now apply IH.
Qed.

Lemma MergeForceCollapse_Inv (fuel : nat) :
  forall pendingRuns st,
    Inv pendingRuns -> Inv (MergeForceCollapse cmp fuel pendingRuns st).
Proof.
  induction fuel as [|fuel IH]; intros pendingRuns st H.
  - destruct pendingRuns; exact H.
  - destruct pendingRuns as [|top [|second rest]]; try exact H.
    cbn [MergeForceCollapse].
    destruct rest as [|third rest].
    + pose proof (Inv_top top second [] st H) as H'.
      destruct (MergeAt cmp second top st) as [m st']. now apply IH.
    + destruct (List.length third <? List.length top).
      * pose proof (Inv_second top second third rest st H) as H'.
        destruct (MergeAt cmp third second st) as [m st']. now apply IH.
      * pose proof (Inv_top top second (third :: rest) st H) as H'.
        destruct (MergeAt cmp second top st) as [m st']. now apply IH.
Qed.
End Collapse.

Lemma MergeForceCollapse_single (fuel : nat) :
  forall pendingRuns st,
    List.length pendingRuns <= S fuel ->
    List.length (MergeForceCollapse cmp fuel pendingRuns st) <= 1.
Proof.
  induction fuel as [|fuel IH]; intros pendingRuns st H.
  - destruct pendingRuns as [|? [|? ?]]; simpl in *; lia.
  - destruct pendingRuns as [|top [|second rest]]; try (simpl; lia).
    cbn [MergeForceCollapse].
    destruct rest as [|third rest].
    + destruct (MergeAt cmp second top st) as [m st']. apply IH. simpl. lia.
    + destruct (List.length third <? List.length top).
      * destruct (MergeAt cmp third second st) as [m st'].
        apply IH. simpl in *. lia.
      * destruct (MergeAt cmp second top st) as [m st'].
        apply IH. simpl in *. lia.
Qed.

Lemma MergeCollapse_fuel (fuel : nat) :
  forall fuel' pendingRuns st,
    List.length pendingRuns <= S fuel -> List.length pendingRuns <= S fuel' ->
    MergeCollapse cmp fuel pendingRuns st
    = MergeCollapse cmp fuel' pendingRuns st.
Proof.
  induction fuel as [|fuel IH]; intros fuel' pendingRuns st H H';
    destruct fuel' as [|fuel'];
    try (destruct pendingRuns as [|? [|? ?]]; simpl in *; try lia;
         reflexivity).
  destruct pendingRuns as [|top [|second rest]]; try reflexivity.
  cbn [MergeCollapse].
  destruct (runInvariantViolated (top :: second :: rest)).
  - destruct rest as [|third rest]; [reflexivity|].
    destruct (List.length third <? List.length top).
    + destruct (MergeAt cmp third second st) as [m st'].
      apply IH; simpl in *; lia.
    + destruct (MergeAt cmp second top st) as [m st'].
      apply IH; simpl in *; lia.
  - destruct (List.length second <=? List.length top); [|reflexivity].
    destruct (MergeAt cmp second top st) as [m st'].
    apply IH; simpl in *; lia.
Qed.

Lemma MergeForceCollapse_fuel (fuel : nat) :
  forall fuel' pendingRuns st,
    List.length pendingRuns <= S fuel -> List.length pendingRuns <= S fuel' ->
    MergeForceCollapse cmp fuel pendingRuns st
    = MergeForceCollapse cmp fuel' pendingRuns st.
Proof.
  induction fuel as [|fuel IH]; intros fuel' pendingRuns st H H';
    destruct fuel' as [|fuel'];
    try (destruct pendingRuns as [|? [|? ?]]; simpl in *; try lia;
         reflexivity).
  destruct pendingRuns as [|top [|second rest]]; try reflexivity.
  cbn [MergeForceCollapse].
  destruct rest as [|third rest].
  - destruct (MergeAt cmp second top st) as [m st'].
    apply IH; simpl in *; lia.
  - destruct (List.length third <? List.length top).
    + destruct (MergeAt cmp third second st) as [m st'].
      apply IH; simpl in *; lia.
    + destruct (MergeAt cmp second top st) as [m st'].
      apply IH; simpl in *; lia.
Qed.

Lemma timSortLoop_fuel (fuel : nat) :
  forall fuel' minRunLength pendingRuns st remaining,
    List.length remaining <= fuel -> List.length remaining <= fuel' ->
    timSortLoop cmp fuel minRunLength pendingRuns st remaining
    = timSortLoop cmp fuel' minRunLength pendingRuns st remaining.
Proof.
  induction fuel as [|fuel IH];
    intros fuel' minRunLength pendingRuns st remaining H H';
    destruct fuel' as [|fuel'];
    try (destruct remaining; simpl in *; try lia; reflexivity).
  destruct remaining as [|y remaining]; [reflexivity|].
  cbn [timSortLoop].
  pose proof (nextRun_shorter minRunLength (y :: remaining)
                ltac:(discriminate)) as Hshort.
  destruct (nextRun cmp minRunLength (y :: remaining)) as [run rest].
  destruct (MergeCollapse cmp _ _ _) as [runs st'].
  cbn [snd] in Hshort. apply IH; simpl in *; lia.
Qed.

Lemma In_concat_rev (x : A) (ls : list (list A)) :
  In x (List.concat (rev ls)) <-> In x (List.concat ls).
Proof.
  rewrite !in_concat. split; intros (l & Hl & Hx); exists l;
    (split; [|assumption]); [now apply in_rev | now apply in_rev in Hl].
Qed.

Lemma MergeCollapse_In (fuel : nat) (pendingRuns : list (list A)) (st : nat)
      (x : A) :
  In x (List.concat (fst (MergeCollapse cmp fuel pendingRuns st)))
  <-> In x (List.concat pendingRuns).
Proof.
  apply (MergeCollapse_Inv
           (fun runs => In x (List.concat runs) <-> In x (List.concat pendingRuns)));
    [| |tauto].
  - intros top second rest st' H. cbn [List.concat] in *.
    rewrite in_app_iff, MergeAt_In. rewrite !in_app_iff in H. tauto.
  - intros top second third rest st' H. cbn [List.concat] in *.
    rewrite !in_app_iff, MergeAt_In. rewrite !in_app_iff in H. tauto.
Qed.

Lemma MergeForceCollapse_In (fuel : nat) (pendingRuns : list (list A))
      (st : nat) (x : A) :
  In x (List.concat (MergeForceCollapse cmp fuel pendingRuns st))
  <-> In x (List.concat pendingRuns).
Proof.
  apply (MergeForceCollapse_Inv
           (fun runs => In x (List.concat runs) <-> In x (List.concat pendingRuns)));
    [| |tauto].
  - intros top second rest st' H. cbn [List.concat] in *.
    rewrite in_app_iff, MergeAt_In. rewrite !in_app_iff in H. tauto.
  - intros top second third rest st' H. cbn [List.concat] in *.
    rewrite !in_app_iff, MergeAt_In. rewrite !in_app_iff in H. tauto.
Qed.

Lemma timSortLoop_In (fuel : nat) :
  forall minRunLength pendingRuns st remaining x,
    In x (timSortLoop cmp fuel minRunLength pendingRuns st remaining)
    <-> In x (List.concat pendingRuns) \/ In x remaining.
Proof.
  induction fuel as [|fuel IH]; intros minRunLength pendingRuns st remaining x.
  - cbn [timSortLoop].
    rewrite in_app_iff, In_concat_rev, MergeForceCollapse_In. tauto.
  - destruct remaining as [|y remaining].
    + cbn [timSortLoop].
      rewrite in_app_iff, In_concat_rev, MergeForceCollapse_In. tauto.
    + cbn [timSortLoop].
      pose proof (nextRun_In minRunLength (y :: remaining) x
                    ltac:(discriminate)) as Hrun.
      destruct (nextRun cmp minRunLength (y :: remaining)) as [run rest].
      pose proof (MergeCollapse_In (S (List.length pendingRuns))
                    (run :: pendingRuns) st x) as Hc.
      destruct (MergeCollapse cmp _ _ _) as [runs st'].
      rewrite IH. cbn [fst snd List.concat] in *. rewrite in_app_iff in Hc. tauto.
Qed.

(** The sorted array holds the elements of the array. *)
Lemma sort_In (y : A) (l : list A) : In y (sort cmp l) <-> In y l.
Proof.
  unfold sort, ArrayTimSortImpl. destruct (List.length l <? 2); [tauto|].
  rewrite timSortLoop_In. simpl. tauto.
Qed.

Lemma sort_not_nil (l : list A) : l <> [] -> sort cmp l <> [].
Proof.
  destruct l as [|x l]; [congruence|]. intros _ E.
  pose proof (proj2 (sort_In x (x :: l)) (or_introl eq_refl)) as H.
  now rewrite E in H.
Qed.

Section Head.
Variable a : A.

(** An ascending run stops before [a] when [a] compares below the
    elements before it; a descending run stops at [a] when no element
    after it compares below [a]. *)
Lemma runLoop_ascending_stops (previous : A) (pre post : list A) :
  lessThan cmp a previous = true -> Forall (fun y => lessThan cmp a y = true) pre ->
  runLoop cmp false previous (pre ++ a :: post) <= List.length pre.
Proof.
  revert previous. induction pre as [|p pre IH]; intros previous Hp Hpre.
  - simpl. now rewrite Hp.
  - inversion Hpre as [|? ? Hp' Hpre']; subst. simpl.
    destruct (Bool.eqb _ _); [|lia]. specialize (IH p Hp' Hpre'). lia.
Qed.

Lemma runLoop_descending_stops (previous : A) (pre post : list A) :
  Forall (fun y => lessThan cmp y a = false) post ->
  runLoop cmp true previous (pre ++ a :: post) <= List.length pre + 1.
Proof.
  intros Hpost. revert previous.
  induction pre as [|p pre IH]; intros previous.
  - simpl. destruct (Bool.eqb _ _); [|lia].
    destruct post as [|q post]; simpl; [lia|].
    inversion Hpost as [|? ? Hq _]; subst. rewrite Hq. simpl. lia.
  - simpl. destruct (Bool.eqb _ _); [|lia]. specialize (IH p). lia.
Qed.

(** The first [n] elements of an array around [a], and the others. *)
Lemma split_at (n : nat) (pre post : list A) :
  (n <= List.length pre
   /\ firstn n (pre ++ a :: post) = firstn n pre
   /\ skipn n (pre ++ a :: post) = skipn n pre ++ a :: post)
  \/ (List.length pre < n
      /\ firstn n (pre ++ a :: post)
         = pre ++ a :: firstn (n - List.length pre - 1) post
      /\ skipn n (pre ++ a :: post) = skipn (n - List.length pre - 1) post).
Proof.
  destruct (Nat.le_gt_cases n (List.length pre)) as [H | H]; [left | right];
    (split; [assumption|]); rewrite firstn_app, skipn_app.
  - replace (n - List.length pre) with 0 by lia. simpl.
    now rewrite app_nil_r.
  - rewrite firstn_all2, skipn_all2 by lia.
    destruct (n - List.length pre) as [|k] eqn:E; [lia|].
    replace (S k - 1) with k by lia. simpl. split; reflexivity.
Qed.

(** The natural run of an array in which [a] compares below everything
    before it, and nothing after it compares below [a]: either [a] is in
    the run and heads it, or the run ends before [a]. *)
Lemma CountAndMakeRun_head (pre post : list A) :
  Forall (fun y => lessThan cmp a y = true) pre ->
  Forall (fun y => lessThan cmp y a = false) post ->
  exists n r,
    CountAndMakeRun cmp (pre ++ a :: post) = (n, r ++ skipn n (pre ++ a :: post))
    /\ List.length r = n /\ 1 <= n <= List.length (pre ++ a :: post)
    /\ ((List.length pre < n /\ hd_error r = Some a)
        \/ (n <= List.length pre /\ Forall (fun y => lessThan cmp a y = true) r)).
Proof.
  intros Hpre Hpost. destruct pre as [|p0 [|p1 pre]].
  - (* a is the first element *)
    destruct post as [|q post].
    + exists 1, [a]. simpl. repeat split; auto.
    + inversion Hpost as [|? ? Hq Hpost']; subst.
      unfold CountAndMakeRun. cbn [app]. rewrite Hq.
      pose proof (runLoop_le false q post) as K.
      set (n := 2 + runLoop cmp false q post) in *.
      set (l := a :: q :: post) in *.
      exists n, (firstn n l). rewrite firstn_skipn, length_firstn.
      assert (Hn : n <= List.length l) by (unfold n, l; simpl; lia).
      repeat split; try lia. left. split; [simpl; lia|].
      apply hd_error_firstn; [reflexivity | lia].
  - (* a is the second element *)
    inversion Hpre as [|? ? Hp0 _]; subst.
    unfold CountAndMakeRun. cbn [app]. rewrite Hp0.
    assert (K : runLoop cmp true a post = 0).
    { destruct post as [|q post]; [reflexivity|].
      inversion Hpost as [|? ? Hq _]; subst. simpl. now rewrite Hq. }
    rewrite K. exists 2, [a; p0]. simpl. repeat split; try lia.
    left. split; [lia | reflexivity].
  - (* at least two elements before a *)
    inversion Hpre as [|? ? Hp0 Hpre1]; subst.
    inversion Hpre1 as [|? ? Hp1 Hpre2]; subst.
    unfold CountAndMakeRun. cbn [app].
    pose proof (runLoop_le (lessThan cmp p1 p0) p1 (pre ++ a :: post)) as Kle.
    change (p0 :: p1 :: pre ++ a :: post)
      with ((p0 :: p1 :: pre) ++ a :: post).
    set (before := p0 :: p1 :: pre) in *.
    assert (Lb : List.length before = 2 + List.length pre) by reflexivity.
    assert (Ll : List.length (before ++ a :: post)
                 = 2 + List.length (pre ++ a :: post))
      by (rewrite !length_app; simpl; lia).
    destruct (lessThan cmp p1 p0) eqn:D.
    + pose proof (runLoop_descending_stops p1 pre post Hpost) as K.
      set (n := 2 + runLoop cmp true p1 (pre ++ a :: post)) in *.
      exists n, (rev (firstn n (before ++ a :: post))).
      rewrite length_rev, length_firstn.
      repeat split; try lia.
      destruct (split_at n before post) as [(H1 & H2 & H3) | (H1 & H2 & H3)].
      * right. split; [assumption|]. rewrite H2.
        apply (Forall_In_iff _ _ (firstn n before));
          [intros x Hx; now apply in_rev in Hx | now apply Forall_firstn].
      * left. split; [assumption|]. rewrite H2.
        replace (n - List.length before - 1) with 0 by lia.
        cbn [firstn]. rewrite rev_app_distr. reflexivity.
    + pose proof (runLoop_ascending_stops p1 pre post Hp1 Hpre2) as K.
      set (n := 2 + runLoop cmp false p1 (pre ++ a :: post)) in *.
      exists n, (firstn n (before ++ a :: post)).
      rewrite firstn_skipn, length_firstn.
      repeat split; try lia.
      right. split; [lia|].
      destruct (split_at n before post) as [(H1 & H2 & H3) | (H1 & _)];
        [|lia].
      rewrite H2. now apply Forall_firstn.
Qed.

(** Binary insertion keeps [a] first against a pivot that does not
    compare below it, and puts [a] first when it compares below all that
    is sorted. *)
Lemma insertPivot_keeps_head (s : list A) (p : A) :
  hd_error s = Some a -> lessThan cmp p a = false ->
  hd_error (insertPivot cmp s p) = Some a.
Proof.
  intros Hs Hp. unfold insertPivot.
  destruct (hd_error_cons a s Hs) as [t E].
  destruct (searchLoop_spec (List.length s)
              (fun mid => negb (lessThan cmp p (nth mid s p))) 0 (List.length s)
              ltac:(lia) ltac:(lia)) as (_ & _ & H).
  apply hd_error_app, hd_error_firstn; [assumption|].
  destruct (searchLoop _ _ _ _) as [|left]; [|lia].
  destruct H as [H | H].
  - rewrite E in H. discriminate.
  - rewrite E in H. simpl in H. rewrite Hp in H. discriminate.
Qed.

Lemma insertPivot_takes_head (s : list A) :
  Forall (fun y => lessThan cmp a y = true) s -> insertPivot cmp s a = a :: s.
Proof.
  intros Hs. unfold insertPivot.
  destruct (searchLoop_spec (List.length s)
              (fun mid => negb (lessThan cmp a (nth mid s a))) 0 (List.length s)
              ltac:(lia) ltac:(lia)) as (Hle & H & _).
  destruct (searchLoop _ _ _ _) as [|left]; [reflexivity|]. exfalso.
  destruct H as [H | H]; [discriminate|].
  replace (S left - 1) with left in H by lia.
  rewrite Forall_forall in Hs.
  rewrite (Hs (nth left s a)) in H; [discriminate|]. apply nth_In. lia.
Qed.

Lemma BinaryInsertionSort_keeps_head (s more : list A) :
  hd_error s = Some a -> Forall (fun y => lessThan cmp y a = false) more ->
  hd_error (BinaryInsertionSort cmp s more) = Some a.
Proof.
  unfold BinaryInsertionSort. revert s.
  induction more as [|p more IH]; intros s Hs Hm; [exact Hs|].
  inversion Hm as [|? ? Hp Hm']; subst. simpl.
  apply IH; [|assumption]. now apply insertPivot_keeps_head.
Qed.

Lemma BinaryInsertionSort_takes_head (s pre post : list A) :
  Forall (fun y => lessThan cmp a y = true) s ->
  Forall (fun y => lessThan cmp a y = true) pre ->
  Forall (fun y => lessThan cmp y a = false) post ->
  hd_error (BinaryInsertionSort cmp s (pre ++ a :: post)) = Some a.
Proof.
  intros Hs Hpre Hpost. unfold BinaryInsertionSort.
  rewrite fold_left_app. cbn [fold_left].
  rewrite insertPivot_takes_head
    by now apply (BinaryInsertionSort_Forall _ s pre).
  now apply (BinaryInsertionSort_keeps_head (a :: _) post).
Qed.

(** The next run of an array that holds [a]: either [a] heads the run
    and nothing left compares below it, or the run holds only elements
    that [a] compares below and [a] is still to come. *)
Lemma nextRun_before (minRunLength : nat) (pre post : list A) :
  Forall (fun y => lessThan cmp a y = true) pre ->
  Forall (fun y => lessThan cmp y a = false) post ->
  (hd_error (fst (nextRun cmp minRunLength (pre ++ a :: post))) = Some a
   /\ Forall (fun y => lessThan cmp y a = false)
             (snd (nextRun cmp minRunLength (pre ++ a :: post))))
  \/ (Forall (fun y => lessThan cmp a y = true)
             (fst (nextRun cmp minRunLength (pre ++ a :: post)))
      /\ exists pre',
           snd (nextRun cmp minRunLength (pre ++ a :: post))
           = pre' ++ a :: post
           /\ Forall (fun y => lessThan cmp a y = true) pre').
Proof.
  intros Hpre Hpost.
  destruct (CountAndMakeRun_head pre post Hpre Hpost)
    as (n & r & E & Lr & Hn & Hr).
  destruct (nextRun_eq minRunLength _ n r E Lr Hn) as (f & Hf & ->).
  cbn [fst snd].
  destruct Hr as [[Hin Hr] | [Hout Hr]].
  - left.
    destruct (split_at n pre post) as [(H1 & _) | (_ & _ & H3)]; [lia|].
    destruct (split_at f pre post) as [(H1 & _) | (_ & _ & H3')]; [lia|].
    rewrite H3, H3'. split; [|now apply Forall_skipn].
    apply BinaryInsertionSort_keeps_head; [assumption|].
    now apply Forall_firstn, Forall_skipn.
  - destruct (split_at n pre post) as [(_ & _ & H3) | (H1 & _)]; [|lia].
    rewrite H3.
    destruct (split_at f pre post) as [(F1 & _ & F3) | (F1 & _ & F3)];
      rewrite F3.
    + right. split; [|exists (skipn f pre); split;
                      [reflexivity | now apply Forall_skipn]].
      destruct (split_at (f - n) (skipn n pre) post)
        as [(_ & G2 & _) | (G1 & _)];
        [|rewrite length_skipn in G1; lia].
      rewrite G2. apply BinaryInsertionSort_Forall; [assumption|].
      now apply Forall_firstn, Forall_skipn.
    + left. split; [|now apply Forall_skipn].
      destruct (split_at (f - n) (skipn n pre) post)
        as [(G1 & _) | (_ & G2 & _)];
        [rewrite length_skipn in G1; lia|].
      rewrite G2. apply BinaryInsertionSort_takes_head; try assumption.
      * now apply Forall_skipn.
      * now apply Forall_firstn.
Qed.

Lemma nextRun_after (minRunLength : nat) (l : list A) :
  l <> [] -> Forall (fun y => lessThan cmp y a = false) l ->
  Forall (fun y => lessThan cmp y a = false) (fst (nextRun cmp minRunLength l))
  /\ Forall (fun y => lessThan cmp y a = false) (snd (nextRun cmp minRunLength l)).
Proof.
  intros Hne H.
  split; apply (Forall_In_iff _ _ l); try assumption;
    intros x Hx; apply (nextRun_In minRunLength l x Hne); tauto.
Qed.

(** Merging keeps the pending runs zoned, or all made of elements that
    [a] compares below. *)
Lemma Zoned_top (top second : list A) (rest : list (list A)) (st : nat) :
  Zoned cmp a (top :: second :: rest) ->
  Zoned cmp a (fst (MergeAt cmp second top st) :: rest).
Proof.
  cbn [Zoned]. intros [[Htop Hearlier] | [Htop [[Hsecond Hearlier] | [Hsecond Hrest]]]].
  - inversion Hearlier as [|? ? Hs Hr]; subst. left. split; [|assumption].
    now apply MergeAt_takes_head.
  - left. split; [|assumption]. apply MergeAt_keeps_head; [assumption|].
    intros y Hy. destruct top as [|t0 top]; [discriminate|].
    injection Hy as ->. now inversion Htop.
  - right. split; [|assumption].
    apply (Forall_In_iff _ _ (second ++ top)).
    + intros x Hx. apply MergeAt_In in Hx. apply in_or_app. tauto.
    + apply Forall_app. now split.
Qed.

Lemma Zoned_second (top second third : list A) (rest : list (list A))
      (st : nat) :
  Zoned cmp a (top :: second :: third :: rest) ->
  Zoned cmp a (top :: fst (MergeAt cmp third second st) :: rest).
Proof.
  intros H. change (Zoned cmp a (top :: second :: third :: rest))
              with ((hd_error top = Some a
                     /\ Forall (Forall (fun y => lessThan cmp a y = true))
                               (second :: third :: rest))
                    \/ (Forall (fun y => lessThan cmp y a = false) top
                        /\ Zoned cmp a (second :: third :: rest))) in H.
  change ((hd_error top = Some a
           /\ Forall (Forall (fun y => lessThan cmp a y = true))
                     (fst (MergeAt cmp third second st) :: rest))
          \/ (Forall (fun y => lessThan cmp y a = false) top
              /\ Zoned cmp a (fst (MergeAt cmp third second st) :: rest))).
  destruct H as [[Htop Hearlier] | [Htop Hz]].
  - left. split; [assumption|].
    inversion Hearlier as [|? ? Hs Hr]; subst.
    inversion Hr as [|? ? Ht Hr']; subst.
    constructor; [|assumption].
    apply (Forall_In_iff _ _ (third ++ second)).
    + intros x Hx. apply MergeAt_In in Hx. apply in_or_app. tauto.
    + apply Forall_app. now split.
  - right. split; [assumption|]. now apply Zoned_top.
Qed.

Lemma Zoned_single (pendingRuns : list (list A)) :
  Zoned cmp a pendingRuns -> List.length pendingRuns <= 1 ->
  hd_error (List.concat (rev pendingRuns)) = Some a.
Proof.
  destruct pendingRuns as [|run [|? ?]]; simpl; try tauto; try lia.
  intros [[H _] | [_ []]] _. rewrite app_nil_r. exact H.
Qed.

Lemma Pre_top (top second : list A) (rest : list (list A)) (st : nat) :
  Forall (Forall (fun y => lessThan cmp a y = true)) (top :: second :: rest) ->
  Forall (Forall (fun y => lessThan cmp a y = true))
         (fst (MergeAt cmp second top st) :: rest).
Proof.
  intros H. inversion H as [|? ? Ht Hr]; subst.
  inversion Hr as [|? ? Hs Hr']; subst. constructor; [|assumption].
  apply (Forall_In_iff _ _ (second ++ top)).
  - intros x Hx. apply MergeAt_In in Hx. apply in_or_app. tauto.
  - apply Forall_app. now split.
Qed.

Lemma Pre_second (top second third : list A) (rest : list (list A))
      (st : nat) :
  Forall (Forall (fun y => lessThan cmp a y = true)) (top :: second :: third :: rest) ->
  Forall (Forall (fun y => lessThan cmp a y = true))
         (top :: fst (MergeAt cmp third second st) :: rest).
Proof.
  intros H. inversion H as [|? ? Ht Hr]; subst.
  constructor; [assumption|]. now apply Pre_top.
Qed.

(** The main loop, once [a] is in a pending run, and before. *)
Lemma timSortLoop_after (fuel : nat) :
  forall minRunLength pendingRuns st remaining,
    Zoned cmp a pendingRuns ->
    Forall (fun y => lessThan cmp y a = false) remaining ->
    List.length remaining <= fuel ->
    hd_error (timSortLoop cmp fuel minRunLength pendingRuns st remaining)
    = Some a.
Proof.
  assert (Hend : forall pendingRuns st,
             Zoned cmp a pendingRuns ->
             hd_error (List.concat (rev (MergeForceCollapse cmp
                                      (List.length pendingRuns) pendingRuns st))
                       ++ [])
             = Some a).
  { intros pendingRuns st Hz. apply hd_error_app, Zoned_single.
    - apply MergeForceCollapse_Inv;
        [apply Zoned_top | apply Zoned_second | exact Hz].
    - apply MergeForceCollapse_single. lia. }
  induction fuel as [|fuel IH];
    intros minRunLength pendingRuns st remaining Hz Hpost Hfuel.
  - destruct remaining; [|simpl in Hfuel; lia]. now apply Hend.
  - destruct remaining as [|y remaining]; [now apply Hend|].
    cbn [timSortLoop].
    destruct (nextRun_after minRunLength (y :: remaining)
                ltac:(discriminate) Hpost) as [Hrun Hrest].
    pose proof (nextRun_shorter minRunLength (y :: remaining)
                  ltac:(discriminate)) as Hshort.
    destruct (nextRun cmp minRunLength (y :: remaining)) as [run rest].
    cbn [fst snd] in *.
    pose proof (MergeCollapse_Inv (Zoned cmp a) Zoned_top Zoned_second
                  (S (List.length pendingRuns)) (run :: pendingRuns) st) as Hc.
    destruct (MergeCollapse cmp _ _ _) as [runs st']. cbn [fst] in Hc.
    apply IH; [|assumption|simpl in *; lia].
    apply Hc. right. now split.
Qed.

Lemma timSortLoop_before (fuel : nat) :
  forall minRunLength pendingRuns st pre post,
    Forall (Forall (fun y => lessThan cmp a y = true)) pendingRuns ->
    Forall (fun y => lessThan cmp a y = true) pre ->
    Forall (fun y => lessThan cmp y a = false) post ->
    List.length (pre ++ a :: post) <= fuel ->
    hd_error (timSortLoop cmp fuel minRunLength pendingRuns st
                          (pre ++ a :: post))
    = Some a.
Proof.
  induction fuel as [|fuel IH];
    intros minRunLength pendingRuns st pre post Hruns Hpre Hpost Hfuel.
  - rewrite length_app in Hfuel. simpl in Hfuel. lia.
  - destruct (pre ++ a :: post) as [|y remaining] eqn:E;
      [now destruct pre|].
    cbn [timSortLoop]. rewrite <- E in *.
    pose proof (nextRun_before minRunLength pre post Hpre Hpost) as Hnext.
    pose proof (nextRun_shorter minRunLength (pre ++ a :: post)
                  ltac:(now destruct pre)) as Hshort.
    destruct (nextRun cmp minRunLength (pre ++ a :: post)) as [run rest].
    cbn [fst snd] in *.
    destruct Hnext as [[Hrun Hrest] | [Hrun (pre' & -> & Hpre')]].
    + pose proof (MergeCollapse_Inv (Zoned cmp a) Zoned_top Zoned_second
                    (S (List.length pendingRuns)) (run :: pendingRuns) st) as Hc.
      destruct (MergeCollapse cmp _ _ _) as [runs st']. cbn [fst] in Hc.
      apply timSortLoop_after; [|assumption|lia].
      apply Hc. left. now split.
    + pose proof (MergeCollapse_Inv
                    (Forall (Forall (fun y => lessThan cmp a y = true)))
                    Pre_top Pre_second
                    (S (List.length pendingRuns)) (run :: pendingRuns) st) as Hc.
      destruct (MergeCollapse cmp _ _ _) as [runs st']. cbn [fst] in Hc.
      apply IH; try assumption; [|lia].
      apply Hc. now constructor.
Qed.

(** An element that compares below every element before it, and that no
    element after it compares below, is first in the sorted array. *)
Lemma sort_first (pre post : list A) :
  Forall (fun y => lessThan cmp a y = true) pre ->
  Forall (fun y => lessThan cmp y a = false) post ->
  hd_error (sort cmp (pre ++ a :: post)) = Some a.
Proof.
  intros Hpre Hpost. unfold sort, ArrayTimSortImpl.
  destruct (List.length (pre ++ a :: post) <? 2) eqn:C.
  - apply Nat.ltb_lt in C. rewrite length_app in C. simpl in C.
    destruct pre; [reflexivity | simpl in C; lia].
  - apply timSortLoop_before; try assumption; [constructor | lia].
Qed.
End Head.

(** An element that compares below every other one, and that no other
    one compares below, is first in the sorted array. *)
Lemma sort_head (a : A) (before after : list A) :
  (forall y, In y (before ++ after) -> (cmp a y <? 0)%float = true) ->
  (forall y, In y (before ++ after) -> (cmp y a <? 0)%float = false) ->
  exists rest, sort cmp (before ++ a :: after) = a :: rest.
Proof.
  intros Hlt Hge. apply hd_error_cons, sort_first.
  - apply Forall_forall. intros y Hy. apply Hlt, in_or_app. now left.
  - apply Forall_forall. intros y Hy. apply Hge, in_or_app. now right.
Qed.

(** More generally: an element that compares below every element before
    it, and that no element after it compares below. *)
Lemma sort_head_ordered (a : A) (before after : list A) :
  (forall y, In y before -> (cmp a y <? 0)%float = true) ->
  (forall y, In y after -> (cmp y a <? 0)%float = false) ->
  exists rest, sort cmp (before ++ a :: after) = a :: rest.
Proof.
  intros Hlt Hge. apply hd_error_cons, sort_first; now apply Forall_forall.
Qed.

(** The first element stays first when no other one compares below it. *)
Lemma sort_first_stays (a : A) (l : list A) :
  (forall y, In y l -> (cmp y a <? 0)%float = false) ->
  exists rest, sort cmp (a :: l) = a :: rest.
Proof.
  intros H. apply hd_error_cons, (sort_first a [] l).
  - constructor.
  - now apply Forall_forall.
Qed.
End Sorting.

(** The sort at work on an array long enough to be cut in two runs of
    thirty-five, each extended by binary insertion, then merged:
    [seventy.sort((x, y) => Math.abs(x - y) > 10 ? x - y : 0)]. *)
Example sort_of_seventy_numbers :
  sort Laws.tolerant Laws.seventy
  = [0; 10; 3; 20; 13; 6; 16; 9; 2; 19; 12; 5; 8; 26;
     37; 30; 23; 33; 29; 22; 15; 18; 39; 32; 25; 35; 28; 47;
     40; 36; 57; 50; 43; 60; 53; 46; 56; 49; 42; 45; 66; 59;
     52; 74; 67; 70; 63; 55; 83; 76; 69; 62; 73; 84; 77; 80;
     72; 94; 87; 97; 90; 100; 93; 86; 79; 82; 96; 89; 99; 92].
Proof. vm_compute. reflexivity. Qed.

(** ** evaluateApproach *)

Section Evaluate.
Import HiveScoutBee.
Local Open Scope float_scope.


Lemma declared_checksOf s t : Spec.declared s t = declaredOf (checksOf s t).
Proof.
  destruct t as [t|]; [|reflexivity]. unfold declaredOf, checksOf, checks.
  simpl. now rewrite app_nil_r.
Qed.

Lemma fold_evaluateMin cs st :
  fold_left evaluateMin cs st
  = {| st_matches :=
         st_matches st && forallb (fun vb => snd vb <=? fst vb) (declaredOf cs);
       totalScore :=
         fold_left (fun sum val => sum + val)
                   (map Spec.contributionMin (declaredOf cs)) (totalScore st);
       criteriaCount := criteriaCount st + List.length (declaredOf cs) |}.
Proof.
  revert st. induction cs as [|c cs IH]; intros st; simpl.
  - destruct st. simpl. now rewrite andb_true_r, Nat.add_0_r.
  - rewrite IH. unfold evaluateMin at 1 2 3, declaredOf. simpl.
    destruct (threshold c) as [b|]; simpl; [|reflexivity].
    unfold ge. destruct (b <=? value c); simpl; f_equal;
      rewrite ?andb_false_r; try reflexivity; try lia.
Qed.

Lemma fold_evaluateMax cs st :
  fold_left evaluateMax cs st
  = {| st_matches :=
         st_matches st && forallb (fun vb => fst vb <=? snd vb) (declaredOf cs);
       totalScore :=
         fold_left (fun sum val => sum + val)
                   (map Spec.contributionMax (declaredOf cs)) (totalScore st);
       criteriaCount := criteriaCount st + List.length (declaredOf cs) |}.
Proof.
  revert st. induction cs as [|c cs IH]; intros st; simpl.
  - destruct st. simpl. now rewrite andb_true_r, Nat.add_0_r.
  - rewrite IH. unfold evaluateMax at 1 2 3, declaredOf. simpl.
    destruct (threshold c) as [b|]; simpl; [|reflexivity].
    unfold le. destruct (value c <=? b); simpl; f_equal;
      rewrite ?andb_false_r; try reflexivity; try lia.
Qed.

(** A rule matches exactly when every declared threshold is satisfied. *)
Lemma matches_satisfies s c :
  matches (evaluateApproach s c) = Spec.satisfies s c.
Proof.
  unfold evaluateApproach, Spec.satisfies.
  rewrite fold_evaluateMax, fold_evaluateMin, !declared_checksOf.
  reflexivity.
Qed.

(** The score is the average of the contributions. *)
Lemma score_matchScore s c :
  score (evaluateApproach s c) = Spec.matchScore s c.
Proof.
  unfold evaluateApproach, Spec.matchScore, Spec.contributions.
  rewrite fold_evaluateMax, fold_evaluateMin, !declared_checksOf.
  cbn [score criteriaCount totalScore].
  rewrite length_app, !length_map. unfold reduce_sum.
  rewrite fold_left_app. simpl.
  destruct (List.length _ + List.length _)%nat eqn:E; reflexivity.
Qed.

Lemma length_declaredOf_checks s t : List.length (Spec.declared s t) <= 5.
Proof.
  destruct t as [t|]; simpl; [|lia].
  destruct (t_variance t), (t_skewness t), (t_entropy t), (t_fftEntropy t),
    (t_tripleCount t); simpl; lia.
Qed.

Lemma contributionMin_satisfied ds :
  forallb (fun vb => snd vb <=? fst vb) ds = true ->
  map Spec.contributionMin ds = repeat 1 (List.length ds).
Proof.
  induction ds as [|[v b] ds IH]; simpl; [reflexivity|].
  intros H. apply andb_true_iff in H as [H1 H2]. now rewrite H1, IH.
Qed.

Lemma contributionMax_satisfied ds :
  forallb (fun vb => fst vb <=? snd vb) ds = true ->
  map Spec.contributionMax ds = repeat 1 (List.length ds).
Proof.
  induction ds as [|[v b] ds IH]; simpl; [reflexivity|].
  intros H. apply andb_true_iff in H as [H1 H2]. now rewrite H1, IH.
Qed.

(** Up to ten ones add up, and average, without rounding. *)
Lemma average_of_ones n :
  n <= 10 ->
  (if (n =? 0)%nat then 0 else reduce_sum (repeat 1 n) / num n)
  = if (n =? 0)%nat then 0 else 1.
Proof.
  intros H. do 11 (destruct n as [|n]; [reflexivity|]). lia.
Qed.

Lemma noBound_declared s t :
  Spec.noBound t = (List.length (Spec.declared s t) =? 0)%nat.
Proof.
  destruct t as [t|]; [|reflexivity]. unfold Spec.noBound, Spec.declared.
  destruct (t_variance t), (t_skewness t), (t_entropy t), (t_fftEntropy t),
    (t_tripleCount t); reflexivity.
Qed.

(** The score of a rule that matches is [1], or [0] when the rule
    declares no threshold. *)
Lemma matchScore_satisfied s c :
  Spec.satisfies s c = true ->
  Spec.matchScore s c = if Spec.declaresNoThreshold c then 0 else 1.
Proof.
  unfold Spec.satisfies, Spec.matchScore, Spec.contributions,
    Spec.declaresNoThreshold.
  intros H. apply andb_true_iff in H as [H1 H2].
  rewrite (contributionMin_satisfied _ H1), (contributionMax_satisfied _ H2).
  rewrite <- repeat_app, repeat_length.
  rewrite (noBound_declared s (minThresholds c)),
    (noBound_declared s (maxThresholds c)).
  replace ((_ =? 0)%nat && (_ =? 0)%nat)
    with (List.length (Spec.declared s (minThresholds c))
          + List.length (Spec.declared s (maxThresholds c)) =? 0)%nat
    by (destruct (List.length _), (List.length _); reflexivity).
  apply average_of_ones.
  pose proof (length_declaredOf_checks s (minThresholds c)).
  pose proof (length_declaredOf_checks s (maxThresholds c)). lia.
Qed.

(** A rule without thresholds is satisfied by every signature. *)
Lemma satisfies_no_threshold s c :
  Spec.declaresNoThreshold c = true -> Spec.satisfies s c = true.
Proof.
  unfold Spec.declaresNoThreshold, Spec.satisfies. intros H.
  apply andb_true_iff in H as [H1 H2].
  rewrite (noBound_declared s) in H1, H2.
  apply Nat.eqb_eq, length_zero_iff_nil in H1, H2. now rewrite H1, H2.
Qed.

(** Below zero is not at or above zero. *)
Lemma lt_zero_not_ge v : (v <? 0) = true -> (0 <=? v) = false.
Proof.
  rewrite ltb_spec, leb_spec, Prim2SF_zero.
  destruct (Prim2SF v) as [s0|s0| |s0 m e]; simpl; try discriminate;
    destruct s0; simpl; try discriminate; reflexivity.
Qed.
End Evaluate.

(** ** chooseApproach *)

Section Choose.
Import HiveScoutBee.
Variable host : Host.

Lemma evaluateEntry_step s ms es entry :
  evaluateEntry s (ms, es) entry
  = if Spec.matched s entry
    then (ms ++ [fst entry], es ++ [Spec.evaluationOf s entry])
    else (ms, es).
Proof. destruct entry as [n c]. reflexivity. Qed.

Lemma fold_evaluateEntry s configs ms es :
  fold_left (evaluateEntry s) configs (ms, es)
  = (ms ++ map fst (filter (Spec.matched s) configs),
     es ++ map (Spec.evaluationOf s) (filter (Spec.matched s) configs)).
Proof.
  revert ms es. induction configs as [|entry configs IH]; intros ms es.
  - simpl. now rewrite !app_nil_r.
  - cbn [fold_left filter]. rewrite evaluateEntry_step.
    destruct (Spec.matched s entry).
    + rewrite IH. cbn [map]. rewrite <- !app_assoc. reflexivity.
    + apply IH.
Qed.

(** What [chooseApproach] returns, and that it leaves the object as it
    found it. *)
Lemma chooseApproach_eq w this :
  let s := SignatureExtractor.extractSignature host w in
  let hits := filter (Spec.matched s) (approachConfigs this) in
  chooseApproach host w this
  = (match sort compareEvaluations (map (Spec.evaluationOf s) hits) with
     | [] => Normal {| recommendedApproach := "default";
                       matchingApproaches := [];
                       signature := s;
                       confidence := 0%float |}
     | first :: _ =>
         Normal {| recommendedApproach := ev_name first;
                   matchingApproaches := map fst hits;
                   signature := s;
                   confidence := Math_min (ev_score first) 1.0%float |}
     end, this).
Proof.
  intros s hits. unfold chooseApproach, bind, read, ret.
  rewrite fold_evaluateEntry. simpl. fold s. fold hits.
  destruct hits as [|h hits'] eqn:E; [reflexivity|].
  cbn [map List.length Nat.ltb Nat.leb].
  pose proof (sort_not_nil compareEvaluations
                (Spec.evaluationOf s h :: map (Spec.evaluationOf s) hits')) as Hn.
  destruct (sort _ _); [exfalso; apply Hn; [discriminate|reflexivity]|].
  reflexivity.
Qed.

(** The comparator puts [a] before [b] exactly when [a] ranks before
    [b]. *)
Lemma compare_ranksBefore a b :
  (compareEvaluations a b <? 0)%float
  = Spec.ranksBefore (ev_specificity a) (ev_priority a)
                     (ev_specificity b) (ev_priority b).
Proof.
  unfold compareEvaluations, Spec.ranksBefore, gt, Math_abs.
  now destruct (0.01 <? abs _)%float.
Qed.

(** Ranking is antisymmetric. *)
Lemma ranksBefore_antisym sa pa sb pb :
  Spec.ranksBefore sa pa sb pb = true -> Spec.ranksBefore sb pb sa pa = false.
Proof.
  unfold Spec.ranksBefore. rewrite (abs_sub_swap sa sb).
  destruct (0.01 <? abs _)%float; apply sub_neg_antisym.
Qed.

(** A specificity higher by more than 0.01 ranks first, whatever the
    priorities. *)
Lemma ranksBefore_margin sa pa sb pb :
  (0.01 <? sa - sb)%float = true -> Spec.ranksBefore sa pa sb pb = true.
Proof.
  intros H. unfold Spec.ranksBefore.
  assert (Hpos : (0 <? sa - sb)%float = true)
    by (apply (gt_bound_pos 0.01%float); [reflexivity | assumption]).
  rewrite (abs_of_pos _ Hpos), H. now apply sub_pos_swap.
Qed.

Lemma uniqueKeys_split {V} (r1 r2 : Map V) k v k' v' :
  Spec.uniqueKeys (r1 ++ (k, v) :: r2) = true ->
  In (k', v') (r1 ++ r2) -> k' <> k.
Proof.
  induction r1 as [|[k1 v1] r1 IH]; simpl; intros U Hin.
  - apply andb_true_iff in U as [U1 _]. intros ->.
    apply negb_true_iff in U1. apply In_keys in Hin.
    apply existsb_eqb_In in Hin. congruence.
  - apply andb_true_iff in U as [U1 U2]. destruct Hin as [E | Hin].
    + injection E as -> ->. intros ->. apply negb_true_iff in U1.
      assert (In k (keys (r1 ++ (k, v) :: r2))) as Hk.
      { unfold keys. rewrite map_app. apply in_or_app. right. now left. }
      apply existsb_eqb_In in Hk. congruence.
    + now apply IH.
Qed.
End Choose.

(** ** The selector's contract *)

Section Selector.
Import HiveScoutBee.

Lemma filter_none {A} (f : A -> bool) (l : list A) :
  (forall x, In x l -> f x = false) -> filter f l = [].
Proof.
  induction l as [|x l IH]; simpl; intros H; [reflexivity|].
  rewrite (H x (or_introl eq_refl)). apply IH. intros y Hy. apply H. now right.
Qed.

(** The first element of the sorted evaluations belongs to a rule of the
    registry that matched. *)
Lemma sorted_first_origin s (configs : Map ApproachConfig) first rest :
  sort compareEvaluations
       (map (Spec.evaluationOf s) (filter (Spec.matched s) configs))
  = first :: rest ->
  exists n c, In (n, c) configs /\ Spec.satisfies s c = true
              /\ first = Spec.evaluationOf s (n, c).
Proof.
  intros E.
  assert (In first (first :: rest)) as Hin by now left.
  rewrite <- E in Hin. apply sort_In, in_map_iff in Hin.
  destruct Hin as [[n c] [<- Hin]]. apply filter_In in Hin as [Hin Hm].
  exists n, c. repeat split; [assumption|].
  now rewrite <- matches_satisfies.
Qed.

(** C7.  If no registered rule has all its declared thresholds satisfied
    by the window's signature, [chooseApproach] returns (it does not
    throw) the recommendation ["default"], with no matching approach
    and confidence 0. *)
Theorem no_match_recommends_default host this w :
  (forall n c, In (n, c) (approachConfigs this) ->
     Spec.satisfies (SignatureExtractor.extractSignature host w) c = false) ->
  fst (chooseApproach host w this)
  = Normal {| recommendedApproach := "default";
              matchingApproaches := [];
              signature := SignatureExtractor.extractSignature host w;
              confidence := 0%float |}.
Proof.
  intros H. rewrite chooseApproach_eq. cbn [fst].
  rewrite filter_none; [reflexivity|].
  intros [n c] Hin. unfold Spec.matched. cbn [snd].
  now rewrite matches_satisfies, (H n c Hin).
Qed.

Lemma no_match_recommends_default_witness :
  fst (chooseApproach Ref.host Fixture.oneReading
                      (constructor [Fixture.impossible]))
  = Normal {| recommendedApproach := "default";
              matchingApproaches := [];
              signature :=
                SignatureExtractor.extractSignature Ref.host Fixture.oneReading;
              confidence := 0%float |}.
Proof.
  apply (no_match_recommends_default Ref.host
           (constructor [Fixture.impossible]) Fixture.oneReading).
  intros n c [E | []]. injection E as <- <-. vm_compute. reflexivity.
Defined.
(** C8.  A rule that declares no min-threshold and no max-threshold
    matches whatever the signature: evaluating it gives [matches = true]
    with score 0 (its criteria count is 0), its name is among the
    matching approaches of every window, and when it is the recommended
    approach the confidence is 0. *)
Theorem rule_without_thresholds host this w n c :
  Spec.uniqueKeys (approachConfigs this) = true ->
  get (approachConfigs this) n = Some c ->
  Spec.declaresNoThreshold c = true ->
  evaluateApproach (SignatureExtractor.extractSignature host w) c
  = {| matches := true; score := 0%float |}
  /\ exists r,
       fst (chooseApproach host w this) = Normal r
       /\ In n (matchingApproaches r)
       /\ (recommendedApproach r = n -> confidence r = 0%float).
Proof.
  intros U G D. set (s := SignatureExtractor.extractSignature host w).
  pose proof (satisfies_no_threshold s c D) as Hs.
  assert (Hev : evaluateApproach s c = {| matches := true; score := 0%float |}).
  { pose proof (matches_satisfies s c) as Hm.
    pose proof (score_matchScore s c) as Hsc.
    rewrite (matchScore_satisfied s c Hs), D in Hsc. rewrite Hs in Hm.
    destruct (evaluateApproach s c). simpl in *. now subst. }
  split; [exact Hev|].
  assert (Hhit : In (n, c) (filter (Spec.matched s) (approachConfigs this))).
  { apply filter_In. split; [now apply get_In|].
    unfold Spec.matched. cbn [snd]. now rewrite Hev. }
  rewrite chooseApproach_eq. cbn [fst]. fold s.
  destruct (sort compareEvaluations _) as [|first rest] eqn:E.
  - exfalso. apply (in_map (Spec.evaluationOf s)) in Hhit.
    apply (sort_In compareEvaluations) in Hhit. now rewrite E in Hhit.
  - eexists. split; [reflexivity|]. cbn [matchingApproaches
      recommendedApproach confidence]. split.
    + now apply (in_map fst) in Hhit.
    + intros Hn. apply sorted_first_origin in E as (n' & c' & Hin & _ & ->).
      cbn [Spec.evaluationOf ev_name ev_score fst snd] in *. subst n'.
      apply (In_get _ _ _ U) in Hin. rewrite G in Hin. injection Hin as <-.
      rewrite Hev. reflexivity.
Qed.

Lemma rule_without_thresholds_witness :
  evaluateApproach (SignatureExtractor.extractSignature Ref.host []) Fixture.unbounded
  = {| matches := true; score := 0%float |}
  /\ exists r,
       fst (chooseApproach Ref.host []
              (constructor [Fixture.atMargin; Fixture.unbounded])) = Normal r
       /\ In "B"%string (matchingApproaches r)
       /\ (recommendedApproach r = "B"%string -> confidence r = 0%float).
Proof.
  apply (rule_without_thresholds Ref.host
           (constructor [Fixture.atMargin; Fixture.unbounded]) []
           "B"%string Fixture.unbounded); reflexivity.
Defined.

(** C3 (as amended).  A matched rule A is the recommended approach when
    it ranks before every other matched rule B, where A ranks before B
    on specificity if the two specificity scores differ by more than
    0.01 (A's being the higher) and on priority otherwise (A's being the
    higher).  In particular A ranks before B, whatever their priorities,
    when A's specificity exceeds B's by more than 0.01; a difference of
    exactly 0.01 is still decided by priority. *)
Theorem top_ranked_rule_is_recommended host this w A cfgA :
  let s := SignatureExtractor.extractSignature host w in
  Spec.uniqueKeys (approachConfigs this) = true ->
  get (approachConfigs this) A = Some cfgA ->
  Spec.satisfies s cfgA = true ->
  (forall B cfgB,
      B <> A -> get (approachConfigs this) B = Some cfgB ->
      Spec.satisfies s cfgB = true ->
      (0.01 <? calculateSpecificity s cfgA - calculateSpecificity s cfgB)%float
      = true
      \/ Spec.ranksBefore (calculateSpecificity s cfgA) (or_zero (priority cfgA))
                          (calculateSpecificity s cfgB) (or_zero (priority cfgB))
         = true) ->
  exists r, fst (chooseApproach host w this) = Normal r
            /\ recommendedApproach r = A.
Proof.
  intros s U G Hs Hrank.
  assert (Hbefore : forall B cfgB,
             B <> A -> In (B, cfgB) (approachConfigs this) ->
             Spec.matched s (B, cfgB) = true ->
             (compareEvaluations (Spec.evaluationOf s (A, cfgA))
                                 (Spec.evaluationOf s (B, cfgB)) <? 0)%float
             = true).
  { intros B cfgB Hne Hin Hm. rewrite compare_ranksBefore. cbn.
    unfold Spec.matched in Hm. cbn [snd] in Hm. rewrite matches_satisfies in Hm.
    destruct (Hrank B cfgB Hne (In_get _ _ _ U Hin) Hm) as [Hgap | Hr].
    - now apply ranksBefore_margin.
    - exact Hr. }
  destruct (in_split _ _ (get_In _ _ _ G)) as (r1 & r2 & Hsplit).
  rewrite chooseApproach_eq. cbn [fst]. fold s. rewrite Hsplit in *.
  rewrite filter_app. cbn [filter].
  assert (Hm : Spec.matched s (A, cfgA) = true)
    by (unfold Spec.matched; cbn [snd]; now rewrite matches_satisfies).
  rewrite Hm, map_app. cbn [map].
  assert (Hother : forall y,
             In y (map (Spec.evaluationOf s) (filter (Spec.matched s) r1)
                   ++ map (Spec.evaluationOf s) (filter (Spec.matched s) r2)) ->
             exists B cfgB, y = Spec.evaluationOf s (B, cfgB) /\ B <> A
                            /\ In (B, cfgB) (r1 ++ (A, cfgA) :: r2)
                            /\ Spec.matched s (B, cfgB) = true).
  { intros y Hy. rewrite <- map_app, <- filter_app in Hy.
    apply in_map_iff in Hy as [[B cfgB] [<- Hin]].
    apply filter_In in Hin as [Hin HmB]. exists B, cfgB.
    repeat split; try assumption.
    - exact (uniqueKeys_split r1 r2 A cfgA B cfgB U Hin).
    - apply in_app_or in Hin. apply in_or_app. simpl. tauto. }
  destruct (sort_head compareEvaluations (Spec.evaluationOf s (A, cfgA))
              (map (Spec.evaluationOf s) (filter (Spec.matched s) r1))
              (map (Spec.evaluationOf s) (filter (Spec.matched s) r2)))
    as [rest ->].
  - intros y Hy. destruct (Hother y Hy) as (B & cfgB & -> & Hne & Hin & HmB).
    now apply Hbefore.
  - intros y Hy. destruct (Hother y Hy) as (B & cfgB & -> & Hne & Hin & HmB).
    pose proof (Hbefore B cfgB Hne Hin HmB) as Hlt.
    rewrite compare_ranksBefore in *. now apply ranksBefore_antisym.
  - eexists. split; reflexivity.
Qed.

Lemma top_ranked_rule_is_recommended_witness :
  exists r,
    fst (chooseApproach Ref.host []
           (constructor [Fixture.unbounded; Fixture.aboveMargin])) = Normal r
    /\ recommendedApproach r = "A"%string.
Proof.
  apply (top_ranked_rule_is_recommended Ref.host
           (constructor [Fixture.unbounded; Fixture.aboveMargin]) []
           "A"%string Fixture.aboveMargin); try reflexivity.
  intros B cfgB Hne G _. left.
  change (approachConfigs (constructor [Fixture.unbounded; Fixture.aboveMargin]))
    with [("B"%string, Fixture.unbounded); ("A"%string, Fixture.aboveMargin)] in G.
  cbn [get] in G. destruct (String.eqb "B"%string B) eqn:E.
  - injection G as <-. reflexivity.
  - destruct (String.eqb "A"%string B) eqn:E'; [|discriminate].
    apply String.eqb_eq in E'. congruence.
Defined.

(** Two rules match the empty window: A with specificity exactly 0.01
    and no priority, B with specificity 0 and priority 10.  A's
    specificity exceeds B's by (at least) 0.01, and B is recommended. *)
Lemma margin_of_exactly_one_hundredth_goes_to_priority :
  let s := SignatureExtractor.extractSignature Ref.host [] in
  let this := constructor [Fixture.atMargin; Fixture.unbounded] in
  Spec.satisfies s Fixture.atMargin = true
  /\ Spec.satisfies s Fixture.unbounded = true
  /\ (0.01 <=? calculateSpecificity s Fixture.atMargin
               - calculateSpecificity s Fixture.unbounded)%float = true
  /\ fst (chooseApproach Ref.host [] this)
     = Normal {| recommendedApproach := "B"%string;
                 matchingApproaches := ["A"%string; "B"%string];
                 signature := s;
                 confidence := 0%float |}.
Proof. vm_compute. repeat split; reflexivity. Qed.

(** The confidence of a recommendation is 0 or 1. *)
Lemma confidence_zero_or_one host this w :
  exists r, fst (chooseApproach host w this) = Normal r
            /\ (confidence r = 0%float \/ confidence r = 1%float).
Proof.
  rewrite chooseApproach_eq. cbn [fst].
  destruct (sort compareEvaluations _) as [|first rest] eqn:E.
  - eexists. split; [reflexivity|]. now left.
  - eexists. split; [reflexivity|]. cbn [confidence].
    apply sorted_first_origin in E as (n & c & _ & Hs & ->).
    cbn [Spec.evaluationOf ev_score snd].
    rewrite score_matchScore, (matchScore_satisfied _ _ Hs).
    destruct (Spec.declaresNoThreshold c); [left | right]; reflexivity.
Qed.

(** C4 (as amended).  The match score of a rule is the average, over its
    declared thresholds, of 1.0 for a satisfied threshold,
    [max(0, value/threshold)] for a violated min-threshold and
    [max(0, threshold/value)] for a violated max-threshold, and 0 when
    no threshold is declared; a violated min-threshold of [+0]
    contributes 0, and so does a max-threshold violated by the value
    [+0].  (The score itself may exceed 1.)  The confidence of every
    recommendation is 0 or 1, hence a number in [[0,1]]. *)
Theorem match_score_and_confidence :
  (forall s c, score (evaluateApproach s c) = Spec.matchScore s c)
  /\ (forall v, (v <? 0)%float = true ->
                Spec.contributionMin (v, 0%float) = 0%float)
  /\ (forall b, (b <? 0)%float = true ->
                Spec.contributionMax (0%float, b) = 0%float)
  /\ (forall host this w,
         exists r, fst (chooseApproach host w this) = Normal r
                   /\ Spec.inUnitInterval (confidence r) = true).
Proof.
  split; [exact score_matchScore|]. split; [|split].
  - intros v Hv. unfold Spec.contributionMin.
    now rewrite (lt_zero_not_ge v Hv), (div_neg_by_zero v Hv).
  - intros b Hb. unfold Spec.contributionMax.
    now rewrite (lt_zero_not_ge b Hb), (div_neg_by_zero b Hb).
  - intros host this w.
    destruct (confidence_zero_or_one host this w) as (r & Hr & [H0 | H1]);
      exists r; (split; [exact Hr|]); [rewrite H0 | rewrite H1]; reflexivity.
Qed.

Lemma match_score_and_confidence_witness :
  Spec.contributionMin ((-2)%float, 0%float) = 0%float
  /\ exists r,
       fst (chooseApproach Ref.host Fixture.leftSkewed
              (constructor [Fixture.notTooLeftSkewed])) = Normal r
       /\ Spec.inUnitInterval (confidence r) = true.
Proof.
  split.
  - apply (proj1 (proj2 match_score_and_confidence)). reflexivity.
  - apply (proj2 (proj2 (proj2 match_score_and_confidence))).
Defined.

(** A window whose values are skewed to the left (skewness about -1.76)
    against a rule that asks for skewness of at least -1: the threshold
    is violated and the match score is about 1.76, outside [[0,1]]. *)
Lemma match_score_above_one :
  let s := SignatureExtractor.extractSignature Ref.host Fixture.leftSkewed in
  skewness s = (-1.7636326148038877)%float
  /\ evaluateApproach s Fixture.notTooLeftSkewed
     = {| matches := false; score := 1.7636326148038877%float |}
  /\ Spec.inUnitInterval (score (evaluateApproach s Fixture.notTooLeftSkewed))
     = false.
Proof. vm_compute. repeat split; reflexivity. Qed.

(** C9.  [chooseApproach] leaves the registry as it found it: the same
    names are listed afterwards and every name has the same
    configuration.  So do the two reading methods; the registry changes
    only through [addApproach] and [removeApproach]. *)
Theorem chooseApproach_preserves_registry host this w :
  let this' := snd (chooseApproach host w this) in
  this' = this
  /\ fst (getAvailableApproaches this') = fst (getAvailableApproaches this)
  /\ (forall n, fst (getApproachConfig n this') = fst (getApproachConfig n this))
  /\ snd (getAvailableApproaches this) = this
  /\ (forall n, snd (getApproachConfig n this) = this).
Proof.
  cbv zeta. rewrite chooseApproach_eq. cbn [snd]. repeat split.
Qed.

(** The two writing methods do change it. *)
Lemma registry_writers_change_it :
  let this := constructor [Fixture.unbounded] in
  fst (getAvailableApproaches (snd (addApproach Fixture.atMargin this)))
  = ["B"%string; "A"%string]
  /\ removeApproach "B" this = (true, {| approachConfigs := [] |})
  /\ removeApproach "A" this = (false, this).
Proof. repeat split. Qed.

End Selector.

(** ** The extractor's contract *)

Section Extractor.
Import SignatureExtractor.
Variable host : Host.

Lemma collect_harvest (acc : list number) (q : RDF.Quad) :
  collect host acc q = acc ++ Spec.harvest host q.
Proof.
  unfold collect, Spec.harvest, Spec.tagAdmits.
  destruct (RDF.TermType_eqb _ _); simpl; [|now rewrite app_nil_r].
  destruct (RDF.datatype (RDF.object q)) as [d|]; simpl.
  - destruct (includes d "integer"), (includes d "decimal"),
      (includes d "double"), (includes d "float"), (includes d "string");
      simpl; try destruct (isNaN _); simpl; now rewrite ?app_nil_r.
  - destruct (isNaN _); simpl; now rewrite ?app_nil_r.
Qed.

Lemma fold_collect (w : Window) (acc : list number) :
  fold_left (collect host) w acc = acc ++ flat_map (Spec.harvest host) w.
Proof.
  revert acc. induction w as [|q w IH]; intros acc; simpl.
  - now rewrite app_nil_r.
  - now rewrite IH, collect_harvest, app_assoc.
Qed.

(** C5 (as amended).  The numeric sequence is, in window order, what
    each triple contributes: the parsed value of its object when the
    object is a literal, its datatype tag is absent or contains
    "integer", "decimal", "double", "float" or "string", and
    [parseFloat] of its text is not NaN (a finite number or an
    infinity); nothing otherwise.  A non-literal object and a text that
    parses to NaN are left out, and no input makes the collection
    fail. *)
Theorem numericValues_harvest (w : Window) :
  numericValues host w = flat_map (Spec.harvest host) w
  /\ (forall q, RDF.termType (RDF.object q) = RDF.Literal ->
                Spec.tagAdmits (RDF.datatype (RDF.object q)) = true ->
                isNaN (parseFloat host (RDF.value (RDF.object q))) = false ->
                Spec.harvest host q = [parseFloat host (RDF.value (RDF.object q))])
  /\ (forall q, RDF.termType (RDF.object q) <> RDF.Literal ->
                Spec.harvest host q = [])
  /\ (forall q, Spec.tagAdmits (RDF.datatype (RDF.object q)) = false ->
                Spec.harvest host q = [])
  /\ (forall q, isNaN (parseFloat host (RDF.value (RDF.object q))) = true ->
                Spec.harvest host q = []).
Proof.
  split; [apply (fold_collect w [])|]. unfold Spec.harvest. repeat split.
  - intros q -> -> ->. reflexivity.
  - intros q Hq. destruct (RDF.termType (RDF.object q)); try reflexivity.
    now contradiction Hq.
  - intros q ->. now rewrite andb_false_r.
  - intros q ->. now rewrite andb_false_r.
Qed.

Lemma padLoop_spec (rounds : nat) (l : list number) (target : nat) :
  padLoop rounds l target
  = l ++ repeat 0%float (Nat.min rounds (target - List.length l)).
Proof.
  revert l. induction rounds as [|rounds IH]; intros l; simpl.
  - now rewrite app_nil_r.
  - destruct (List.length l <? target) eqn:E.
    + apply Nat.ltb_lt in E. rewrite IH, length_app, <- app_assoc. simpl.
      f_equal. replace (target - List.length l) with
        (S (target - (List.length l + 1))) by lia.
      reflexivity.
    + apply Nat.ltb_ge in E.
      replace (target - List.length l) with 0 by lia.
      now rewrite app_nil_r.
Qed.

(** The loop pads up to the target length. *)
Lemma padLoop_zeroPad (l : list number) (target : nat) :
  padLoop target l target = Spec.zeroPad l target.
Proof.
  rewrite padLoop_spec. unfold Spec.zeroPad.
  now rewrite Nat.min_r by lia.
Qed.

(** The target length is the least power of two that is at least the
    length. *)
Lemma targetLength_next_power (l : list number) :
  1 <= List.length l -> Spec.NextPowerOfTwo (List.length l) (targetLength l).
Proof.
  intros H. unfold targetLength, Spec.NextPowerOfTwo. repeat split.
  - now exists (Nat.log2_up (List.length l)).
  - apply Nat.log2_up_le_pow2; lia.
  - intros k Hk. apply Nat.pow_le_mono_r; [lia|].
    apply Nat.log2_up_le_pow2; lia.
Qed.

End Extractor.



(** C2 (as amended).  The [skewness] of a window is 0 when fewer than
    three numbers were harvested or their standard deviation is 0.
    Otherwise it is the sum of the cubed standardized values (each value
    minus the mean, divided by the sample standard deviation, cubed)
    scaled by [n / ((n-1)(n-2))], [n] being the number of harvested
    values. *)
Theorem skewness_is_scaled_sum_of_cubes (host : Host) (w : Window) :
  let vs := SignatureExtractor.numericValues host w in
  let sk := skewness (SignatureExtractor.extractSignature host w) in
  (List.length vs < 3 -> sk = 0%float)
  /\ (3 <= List.length vs ->
      sk = if (Spec.standardDeviation host vs =? 0)%float then 0%float
           else Spec.skewnessSummed host vs).
Proof.
  cbv zeta. cbn [skewness SignatureExtractor.extractSignature].
  unfold SignatureExtractor.calculateSkewness. split.
  - intros H. destruct (List.length _) as [|[|[|n]]]; try reflexivity. lia.
  - intros H. unfold Spec.skewnessSummed, Spec.cubedStandardized,
      Spec.standardDeviation, Spec.sampleVariance, Spec.mean,
      SignatureExtractor.calculateVariance, SignatureExtractor.calculateMean.
    destruct (List.length _) as [|[|[|n]]] eqn:E; try lia. reflexivity.
Qed.

Lemma skewness_is_scaled_sum_of_cubes_witness :
  skewness (SignatureExtractor.extractSignature Ref.host Fixture.oneReading)
  = 0%float
  /\ skewness (SignatureExtractor.extractSignature Ref.host Fixture.rightSkewed)
     = Spec.skewnessSummed Ref.host [1; 2; 3; 10]%float.
Proof.
  split.
  - apply (proj1 (skewness_is_scaled_sum_of_cubes Ref.host Fixture.oneReading)).
    vm_compute. lia.
  - apply (proj2 (skewness_is_scaled_sum_of_cubes Ref.host Fixture.rightSkewed)).
    vm_compute. lia.
Defined.

(** The empty text and the text "NaN" parse to NaN and are left out, as
    is a node; "12.5" and " 7 apples" (a numeric prefix) are harvested. *)
Lemma numericValues_harvest_witness :
  Spec.harvest Ref.host (Fixture.plain "p" "") = []
  /\ Spec.harvest Ref.host (Fixture.plain "p" "NaN") = []
  /\ Spec.harvest Ref.host (Fixture.link "p" "o") = []
  /\ SignatureExtractor.numericValues Ref.host
       [Fixture.plain "p" ""; Fixture.plain "p" "NaN"; Fixture.link "p" "o";
        Fixture.typed "p" "12.5" "decimal"; Fixture.plain "p" " 7 apples"]
     = [12.5; 7]%float.
Proof.
  pose proof (numericValues_harvest Ref.host
    [Fixture.plain "p" ""; Fixture.plain "p" "NaN"; Fixture.link "p" "o";
     Fixture.typed "p" "12.5" "decimal"; Fixture.plain "p" " 7 apples"])
    as (Hseq & _ & Hnode & _ & Hnan).
  split; [|split; [|split]].
  - apply Hnan. reflexivity.
  - apply Hnan. reflexivity.
  - apply Hnode. discriminate.
  - rewrite Hseq. reflexivity.
Defined.

(** On the window [1, 2, 3, 10] the skewness is about 1.76; averaging the
    cubes before scaling would give a quarter of it. *)
Lemma skewness_is_not_scaled_average :
  let vs := SignatureExtractor.numericValues Ref.host Fixture.rightSkewed in
  vs = [1; 2; 3; 10]%float
  /\ skewness (SignatureExtractor.extractSignature Ref.host Fixture.rightSkewed)
     = 1.7636326148038877%float
  /\ Spec.skewnessAveraged Ref.host vs = 0.44090815370097192%float.
Proof. vm_compute. repeat split; reflexivity. Qed.

(** The text "Infinity" is a literal that parses to a number that is not
    finite, and it is harvested; a second reading then makes the variance
    NaN. *)
Lemma infinity_is_harvested :
  let w := [Fixture.plain "p" "Infinity"; Fixture.plain "p" "1"] in
  SignatureExtractor.numericValues Ref.host w = [infinity; 1%float]
  /\ is_finite infinity = false
  /\ isNaN (variance (SignatureExtractor.extractSignature Ref.host w)) = true.
Proof. vm_compute. repeat split; reflexivity. Qed.

(** C10.  The earlier revision of the extractor and the one with
    [fftEntropy] compute the same [tripleCount], [variance], [skewness]
    and [entropy] for every window. *)
Theorem revisions_agree_on_shared_fields (host : Host) (w : Window) :
  SignatureExtractorV1.tripleCount (SignatureExtractorV1.extractSignature host w)
  = tripleCount (SignatureExtractor.extractSignature host w)
  /\ SignatureExtractorV1.variance (SignatureExtractorV1.extractSignature host w)
     = variance (SignatureExtractor.extractSignature host w)
  /\ SignatureExtractorV1.skewness (SignatureExtractorV1.extractSignature host w)
     = skewness (SignatureExtractor.extractSignature host w)
  /\ SignatureExtractorV1.entropy (SignatureExtractorV1.extractSignature host w)
     = entropy (SignatureExtractor.extractSignature host w).
Proof. repeat split. Qed.

(** ** The repository's tests, evaluated on the embedding

    Each is an assertion of SignatureExtractor.test.ts or
    HiveScoutBee.test.ts, computed with the stand-ins of [Ref]. *)

Section Tests.
Import Fixture.
Local Open Scope float_scope.

Example test_empty_dataset :
  SignatureExtractor.extractSignature Ref.host []
  = {| tripleCount := 0; variance := 0; skewness := 0; entropy := 0;
       fftEntropy := 0 |}.
Proof. reflexivity. Qed.

Example test_without_explicit_datatypes :
  let r := SignatureExtractor.extractSignature Ref.host
             [plain "score" "10"; plain "score" "20"; plain "score" "30"] in
  tripleCount r = 3 /\ variance r = 100 /\ (0 <? fftEntropy r) = true.
Proof. vm_compute. repeat split. Qed.

Example test_ignores_non_numeric_literals :
  let r := SignatureExtractor.extractSignature Ref.host
             [plain "name" "John"; typed "age" "25" "integer"] in
  tripleCount r = 2 /\ variance r = 0.
Proof. vm_compute. repeat split. Qed.

Example test_entropy_of_two_even_predicates :
  entropy (SignatureExtractor.extractSignature Ref.host
             [plain "predicate1" "value1"; plain "predicate1" "value2";
              plain "predicate2" "value3"; plain "predicate2" "value4"])
  = 1.
Proof. vm_compute. reflexivity. Qed.

Example test_variance_of_known_dataset :
  variance (SignatureExtractor.extractSignature Ref.host
              [typed "p1" "1" "integer"; typed "p1" "2" "integer";
               typed "p1" "3" "integer"; typed "p1" "4" "integer";
               typed "p1" "5" "integer"])
  = 2.5.
Proof. vm_compute. reflexivity. Qed.

Example test_skewness_of_asymmetric_distribution :
  (0 <? skewness (SignatureExtractor.extractSignature Ref.host rightSkewed))
  = true.
Proof. vm_compute. reflexivity. Qed.

Example test_edge_cases :
  SignatureExtractor.extractSignature Ref.host
    [plain "predicate" "not_a_number"; plain "predicate" "NaN";
     plain "predicate" ""]
  = {| tripleCount := 3; variance := 0; skewness := 0; entropy := 0;
       fftEntropy := 0 |}.
Proof. vm_compute. reflexivity. Qed.

Example test_mixed_values :
  let r := SignatureExtractor.extractSignature Ref.host
             [typed "age" "25" "integer"; plain "name" "John";
              typed "age" "30" "integer"; plain "city" "New York"] in
  tripleCount r = 4 /\ variance r = 12.5 /\ entropy r = 1.5
  /\ (0 <? fftEntropy r) = true.
Proof. vm_compute. repeat split. Qed.

Example test_periodic_data :
  let r := SignatureExtractor.extractSignature Ref.host
             [typed "p1" "1" "integer"; typed "p1" "0" "integer";
              typed "p1" "1" "integer"; typed "p1" "0" "integer"] in
  (0 <? fftEntropy r) = true /\ (fftEntropy r <? 3) = true.
Proof. vm_compute. repeat split. Qed.

(** The spectral concentration law of the specification: a constant
    sequence has less spectral entropy than [1, 7, 3, 9]. *)
Example test_constant_below_varied :
  (fftEntropy (SignatureExtractor.extractSignature Ref.host
                 (readings ["5"; "5"; "5"; "5"]%string))
   <? fftEntropy (SignatureExtractor.extractSignature Ref.host
                    (readings ["1"; "7"; "3"; "9"]%string)))
  = true.
Proof. vm_compute. reflexivity. Qed.

Example test_most_specific_of_several :
  HiveScoutBee.chooseApproach Ref.host (readings ["5"; "5"; "5"]%string)
    (HiveScoutBee.constructor approachConfigs)
  = (Normal {| recommendedApproach := "low-complexity-approach";
               matchingApproaches :=
                 ["low-complexity-approach"; "periodic-pattern-approach"]%string;
               signature :=
                 SignatureExtractor.extractSignature Ref.host
                   (readings ["5"; "5"; "5"]%string);
               confidence := 1 |},
     HiveScoutBee.constructor approachConfigs).
Proof. vm_compute. reflexivity. Qed.

Example test_specificity_over_priority :
  fst (HiveScoutBee.chooseApproach Ref.host (readings ["5"; "5"]%string)
         (HiveScoutBee.constructor [veryBroad; verySpecific]))
  = Normal {| recommendedApproach := "very-specific";
              matchingApproaches := ["very-broad"; "very-specific"]%string;
              signature :=
                SignatureExtractor.extractSignature Ref.host
                  (readings ["5"; "5"]%string);
              confidence := 1 |}.
Proof. vm_compute. reflexivity. Qed.

Example test_high_variance_data :
  let w := [plain "p1" "1"; plain "p2" "100"; plain "p3" "1000";
            plain "p4" "50"; plain "p5" "500"] in
  let s := SignatureExtractor.extractSignature Ref.host w in
  (50 <? variance s) = true /\ (1.0 <? entropy s) = true
  /\ exists r, fst (HiveScoutBee.chooseApproach Ref.host w
                      (HiveScoutBee.constructor approachConfigs)) = Normal r
               /\ In "high-variance-approach"%string (matchingApproaches r).
Proof.
  vm_compute. repeat split. eexists. split; [reflexivity|]. now left.
Qed.
End Tests.

(** ** Counting predicates *)

Section Counting.
Import SignatureExtractor.


Lemma fold_countPredicate (w : Window) (m : Map nat) :
  fold_left countPredicate w m = fold_left countKey (Spec.predicates w) m.
Proof. revert m. induction w as [|q w IH]; intros m; simpl; auto. Qed.

Lemma occurrences_cons_same p l :
  Spec.occurrences p (p :: l) = S (Spec.occurrences p l).
Proof. unfold Spec.occurrences. simpl. now rewrite String.eqb_refl. Qed.

Lemma occurrences_cons_other p q l :
  q <> p -> Spec.occurrences q (p :: l) = Spec.occurrences q l.
Proof.
  intros H. unfold Spec.occurrences. simpl.
  now rewrite (proj2 (String.eqb_neq q p) H).
Qed.

Lemma filter_filter_comm {A} (f g : A -> bool) (l : list A) :
  filter f (filter g l) = filter g (filter f l).
Proof.
  induction l as [|x l IH]; simpl; [reflexivity|].
  destruct (f x) eqn:Ef, (g x) eqn:Eg; simpl; rewrite ?Ef, ?Eg, IH; reflexivity.
Qed.

Lemma filter_absorb (g : string -> bool) (x : string) (l : list string) :
  g x = false ->
  filter g (filter (fun y => negb (String.eqb y x)) l) = filter g l.
Proof.
  intros Hg. induction l as [|y l IH]; simpl; [reflexivity|].
  destruct (String.eqb y x) eqn:E; simpl.
  - apply String.eqb_eq in E. subst y. now rewrite Hg.
  - now rewrite IH.
Qed.

(** Filtering commutes with taking the distinct elements. *)
Lemma distinct_filter (g : string -> bool) (l : list string) :
  Spec.distinct (filter g l) = filter g (Spec.distinct l).
Proof.
  induction l as [|x l IH]; simpl; [reflexivity|].
  destruct (g x) eqn:Hg; simpl.
  - now rewrite IH, filter_filter_comm.
  - now rewrite IH, filter_absorb.
Qed.

Lemma get_fresh (m : Map nat) (p : string) :
  fresh m p = true -> get m p = None /\ ~ In p (keys m).
Proof.
  unfold fresh. intros H. apply negb_true_iff in H.
  assert (Hn : ~ In p (keys m)).
  { intros Hin. apply existsb_eqb_In in Hin. congruence. }
  split; [|exact Hn].
  destruct (get m p) as [c|] eqn:G; [|reflexivity].
  exfalso. apply Hn. apply get_In, In_keys in G. exact G.
Qed.

(** Counting a predicate that the map already holds. *)
Lemma bump_countKey (m : Map nat) (p : string) (l : list string) :
  Spec.uniqueKeys m = true -> In p (keys m) ->
  map (bump l) (countKey m p) = map (bump (p :: l)) m.
Proof.
  unfold countKey. induction m as [|[k c] m IH]; simpl; [contradiction|].
  intros U Hin. apply (uniqueKeys_cons k c m) in U as [Hk U].
  destruct (String.eqb k p) eqn:E.
  - apply String.eqb_eq in E. subst k. simpl. f_equal.
    + unfold bump. simpl. rewrite occurrences_cons_same. f_equal. lia.
    + apply map_ext_in. intros [k' c'] Hin'. unfold bump. simpl.
      rewrite occurrences_cons_other; [reflexivity|].
      intros ->. apply Hk. exact (In_keys _ _ _ Hin').
  - simpl. f_equal.
    + unfold bump. simpl. rewrite occurrences_cons_other; [reflexivity|].
      now apply String.eqb_neq.
    + apply IH; [assumption|]. destruct Hin as [-> | Hin]; [|assumption].
      rewrite String.eqb_refl in E. discriminate.
Qed.

Lemma fresh_app_new (m : Map nat) (p : string) (c : nat) (q : string) :
  fresh (m ++ [(p, c)]) q = negb (String.eqb q p) && fresh m q.
Proof.
  unfold fresh, keys. rewrite map_app, existsb_app. simpl.
  rewrite orb_false_r, negb_orb. apply andb_comm.
Qed.

Lemma filter_and {A} (f g : A -> bool) (l : list A) :
  filter (fun x => f x && g x) l = filter f (filter g l).
Proof.
  induction l as [|x l IH]; simpl; [reflexivity|].
  destruct (g x); simpl; rewrite ?andb_true_r, ?andb_false_r;
    [destruct (f x)|]; now rewrite IH.
Qed.

(** After counting the names [l] into a map [m], the entries of [m] have
    grown by their occurrences in [l], followed by the names new to [m],
    in order of first occurrence, each with its number of
    occurrences. *)
Lemma fold_countKey (l : list string) (m : Map nat) :
  Spec.uniqueKeys m = true ->
  fold_left countKey l m
  = map (bump l) m ++ map (tally l) (Spec.distinct (filter (fresh m) l)).
Proof.
  revert m. induction l as [|p l IH]; intros m U.
  - simpl. rewrite app_nil_r. symmetry. rewrite <- (map_id m) at 2.
    apply map_ext. intros [k c]. unfold bump. simpl. f_equal.
    unfold Spec.occurrences. simpl. lia.
  - cbn [fold_left filter]. destruct (fresh m p) eqn:F.
    + destruct (get_fresh m p F) as [G Hn].
      unfold countKey at 2. rewrite G. cbn [Nat.add].
      rewrite (set_new m p 1 Hn).
      rewrite IH by (now apply uniqueKeys_app_new).
      rewrite map_app, <- app_assoc. cbn [map app Spec.distinct]. f_equal.
      * apply map_ext_in. intros [k c] Hin. unfold bump. simpl.
        rewrite occurrences_cons_other; [reflexivity|].
        intros ->. apply Hn. exact (In_keys _ _ _ Hin).
      * unfold bump at 1, tally at 2. cbn [fst snd].
        rewrite occurrences_cons_same. f_equal.
        rewrite (filter_ext _ _ (fresh_app_new m p 1)), filter_and.
        rewrite distinct_filter.
        apply map_ext_in. intros q Hq. apply filter_In in Hq as [_ Hq].
        unfold tally. rewrite occurrences_cons_other; [reflexivity|].
        apply negb_true_iff in Hq. now apply String.eqb_neq.
    + assert (Hin : In p (keys m)).
      { unfold fresh in F. apply negb_false_iff in F.
        now apply existsb_eqb_In. }
      rewrite IH by (now apply uniqueKeys_set).
      rewrite (bump_countKey m p l U Hin). f_equal.
      assert (Hf : forall q, fresh (countKey m p) q = fresh m q).
      { intros q. unfold fresh, countKey. rewrite keys_set.
        apply existsb_eqb_In in Hin. now rewrite Hin. }
      rewrite (filter_ext _ _ Hf).
      apply map_ext_in. intros q Hq. rewrite distinct_filter in Hq.
      apply filter_In in Hq as [_ Hq]. apply get_fresh in Hq as [_ Hq].
      unfold tally. rewrite occurrences_cons_other; [reflexivity|].
      now intros ->.
Qed.
End Counting.

Lemma fold_left_map {A B C} (f : C -> B -> C) (g : A -> B) (l : list A) (c : C) :
  fold_left f (map g l) c = fold_left (fun c a => f c (g a)) l c.
Proof. revert c. induction l as [|a l IH]; intros c; simpl; auto. Qed.

Lemma filter_all {A} (f : A -> bool) (l : list A) :
  (forall x, f x = true) -> filter f l = l.
Proof.
  intros H. induction l as [|x l IH]; simpl; [reflexivity|].
  now rewrite H, IH.
Qed.

(** The counts the extractor collects are, in order of first occurrence,
    the number of triples of each distinct predicate. *)
Lemma predicateCount_tally (w : Window) :
  fold_left (SignatureExtractor.countPredicate) w []
  = map (tally (Spec.predicates w)) (Spec.distinct (Spec.predicates w)).
Proof.
  rewrite fold_countPredicate, fold_countKey by reflexivity.
  cbn [map app]. now rewrite filter_all.
Qed.

(** No bin is skipped when every probability is positive. *)
Lemma shannonEntropy_all_positive (host : Host) (ps : list number) :
  forallb (fun p => (0 <? p)%float) ps = true ->
  Spec.shannonEntropy host ps = Spec.entropySum host ps.
Proof.
  unfold Spec.shannonEntropy, Spec.entropySum.
  assert (G : forall h0,
             forallb (fun p => (0 <? p)%float) ps = true ->
             fold_left
               (fun h p => if (0 <? p)%float
                           then (h - p * Math_log2 host p)%float else h) ps h0
             = fold_left (fun h p => (h - p * Math_log2 host p)%float) ps h0).
  { induction ps as [|p ps IH]; intros h0 H; simpl; [reflexivity|].
    simpl in H. apply andb_true_iff in H as [-> H]. now apply IH. }
  apply G.
Qed.

(** C6.  The [entropy] of a window is the base-2 Shannon entropy of its
    predicate frequencies, the probability of a distinct predicate being
    the number of its triples divided by the number of triples: the sum
    of [- p * log2 p] over the distinct predicates (all of them, when
    their probabilities are positive).  For the empty window there is no
    predicate, no division takes place, and the entropy is 0, not NaN. *)
Theorem entropy_is_predicate_entropy (host : Host) (w : Window) :
  let h := entropy (SignatureExtractor.extractSignature host w) in
  h = Spec.shannonEntropy host (Spec.predicateDistribution w)
  /\ (forallb (fun p => (0 <? p)%float) (Spec.predicateDistribution w) = true ->
      h = Spec.entropySum host (Spec.predicateDistribution w))
  /\ values (fold_left SignatureExtractor.countPredicate (@nil RDF.Quad) []) = []
  /\ entropy (SignatureExtractor.extractSignature host []) = 0%float
  /\ isNaN (entropy (SignatureExtractor.extractSignature host [])) = false.
Proof.
  cbv zeta.
  assert (E : entropy (SignatureExtractor.extractSignature host w)
              = Spec.shannonEntropy host (Spec.predicateDistribution w)).
  { cbn [entropy SignatureExtractor.extractSignature].
    unfold SignatureExtractor.calculateEntropy, Spec.shannonEntropy,
      Spec.predicateDistribution.
    rewrite (predicateCount_tally w). unfold values.
    rewrite map_map, !fold_left_map. reflexivity. }
  split; [exact E|]. split; [|repeat split].
  intros H. rewrite E. now apply shannonEntropy_all_positive.
Qed.

Lemma entropy_is_predicate_entropy_witness :
  let w := [Fixture.plain "predicate1" "value1";
            Fixture.plain "predicate1" "value2";
            Fixture.plain "predicate2" "value3";
            Fixture.plain "predicate2" "value4"] in
  Spec.predicateDistribution w = [0.5; 0.5]%float
  /\ entropy (SignatureExtractor.extractSignature Ref.host w)
     = Spec.entropySum Ref.host (Spec.predicateDistribution w).
Proof.
  split; [reflexivity|].
  apply (proj1 (proj2 (entropy_is_predicate_entropy Ref.host
           [Fixture.plain "predicate1" "value1";
            Fixture.plain "predicate1" "value2";
            Fixture.plain "predicate2" "value3";
            Fixture.plain "predicate2" "value4"]))).
  reflexivity.
Defined.

(** ** Further properties of the extractor and of the registry *)

(** [tripleCount] is the size of the window, and the empty window has the
    zero signature whatever the platform computes. *)
Theorem window_size_and_empty_window (host : Host) (w : Window) :
  tripleCount (SignatureExtractor.extractSignature host w)
  = num (List.length w)
  /\ SignatureExtractor.extractSignature host []
     = {| tripleCount := 0%float; variance := 0%float; skewness := 0%float;
          entropy := 0%float; fftEntropy := 0%float |}.
Proof. split; reflexivity. Qed.

(** With fewer than two harvested numbers the variance and the skewness
    are 0. *)
Theorem few_numbers_have_no_spread (host : Host) (w : Window) :
  List.length (SignatureExtractor.numericValues host w) < 2 ->
  variance (SignatureExtractor.extractSignature host w) = 0%float
  /\ skewness (SignatureExtractor.extractSignature host w) = 0%float.
Proof.
  intros H. cbn [variance skewness SignatureExtractor.extractSignature].
  unfold SignatureExtractor.calculateVariance,
    SignatureExtractor.calculateSkewness.
  destruct (List.length _) as [|[|n]]; [split; reflexivity .. | lia].
Qed.

Lemma few_numbers_have_no_spread_witness :
  variance (SignatureExtractor.extractSignature Ref.host
              [Fixture.plain "name" "John"; Fixture.typed "age" "25" "integer"])
  = 0%float
  /\ skewness (SignatureExtractor.extractSignature Ref.host
                 [Fixture.plain "name" "John"; Fixture.typed "age" "25" "integer"])
     = 0%float.
Proof.
  apply (few_numbers_have_no_spread Ref.host
           [Fixture.plain "name" "John"; Fixture.typed "age" "25" "integer"]).
  vm_compute. lia.
Defined.

Section Registry.
Import HiveScoutBee.

Lemma get_set_same {V} (m : Map V) (k : string) (v : V) :
  get (set m k v) k = Some v.
Proof.
  induction m as [|[k' v'] m IH]; simpl.
  - now rewrite String.eqb_refl.
  - destruct (String.eqb k' k) eqn:E; simpl; now rewrite E.
Qed.

Lemma get_absent {V} (m : Map V) (k : string) :
  ~ In k (keys m) -> get m k = None.
Proof.
  intros H. destruct (get m k) as [v|] eqn:G; [|reflexivity].
  exfalso. apply H. exact (In_keys _ _ _ (get_In _ _ _ G)).
Qed.

Lemma delete_present {V} (m : Map V) (k : string) (v : V) :
  Spec.uniqueKeys m = true -> get m k = Some v ->
  fst (delete m k) = true /\ get (snd (delete m k)) k = None.
Proof.
  induction m as [|[k' v'] m IH]; simpl; [discriminate|].
  intros U G. apply (uniqueKeys_cons k' v' m) in U as [Hk U].
  destruct (String.eqb k' k) eqn:E.
  - apply String.eqb_eq in E. subst k'. simpl. split; [reflexivity|].
    now apply get_absent.
  - destruct (IH U G) as [H1 H2]. destruct (delete m k) as [b r].
    simpl in *. now rewrite E.
Qed.

Lemma delete_absent {V} (m : Map V) (k : string) :
  get m k = None -> delete m k = (false, m).
Proof.
  induction m as [|[k' v'] m IH]; simpl; [reflexivity|].
  destruct (String.eqb k' k); [discriminate|].
  intros G. now rewrite (IH G).
Qed.

Lemma uniqueKeys_constructor (approaches : list ApproachConfig) :
  Spec.uniqueKeys (approachConfigs (constructor approaches)) = true.
Proof.
  unfold constructor. cbn [approachConfigs].
  assert (H : forall m : Map ApproachConfig,
             Spec.uniqueKeys m = true ->
             Spec.uniqueKeys
               (fold_left (fun m a => set m (name a) a) approaches m) = true).
  { induction approaches as [|a l IH]; intros m U; simpl; [assumption|].
    apply IH. now apply uniqueKeys_set. }
  now apply H.
Qed.

(** The registry an object is built with has one rule per name, and
    [addApproach] and [removeApproach] keep it so. *)
Theorem registry_has_one_rule_per_name approaches this a n :
  Spec.uniqueKeys (approachConfigs (constructor approaches)) = true
  /\ (Spec.uniqueKeys (approachConfigs this) = true ->
      Spec.uniqueKeys (approachConfigs (snd (addApproach a this))) = true
      /\ Spec.uniqueKeys (approachConfigs (snd (removeApproach n this))) = true).
Proof.
  split; [apply uniqueKeys_constructor|]. intros U. split.
  - now apply uniqueKeys_set.
  - unfold removeApproach.
    pose proof (uniqueKeys_delete (approachConfigs this) n U) as H.
    now destruct (delete (approachConfigs this) n).
Qed.

(** [addApproach] followed by [getApproachConfig] with the same name
    returns the configuration added, whether or not the name was there
    before. *)
Theorem addApproach_then_get this a :
  fst (getApproachConfig (name a) (snd (addApproach a this))) = Some a.
Proof. apply get_set_same. Qed.

(** [removeApproach] of a registered name returns [true] and the name is
    absent afterwards; of an absent name it returns [false] and changes
    nothing. *)
Theorem removeApproach_result this n :
  Spec.uniqueKeys (approachConfigs this) = true ->
  match fst (getApproachConfig n this) with
  | Some _ =>
      fst (removeApproach n this) = true
      /\ fst (getApproachConfig n (snd (removeApproach n this))) = None
  | None => removeApproach n this = (false, this)
  end.
Proof.
  intros U. unfold getApproachConfig, removeApproach, read. cbn [fst].
  destruct (get (approachConfigs this) n) as [c|] eqn:G.
  - destruct (delete_present _ _ _ U G) as [H1 H2].
    now destruct (delete (approachConfigs this) n).
  - rewrite (delete_absent _ _ G). now destruct this.
Qed.

Lemma removeApproach_result_witness :
  fst (removeApproach "low-complexity-approach"
         (constructor Fixture.approachConfigs)) = true
  /\ fst (getApproachConfig "low-complexity-approach"
            (snd (removeApproach "low-complexity-approach"
                    (constructor Fixture.approachConfigs)))) = None.
Proof.
  apply (removeApproach_result (constructor Fixture.approachConfigs)
           "low-complexity-approach"). reflexivity.
Defined.

(** [chooseApproach] always returns: the matching approaches are the names
    of the rules whose declared thresholds are all satisfied, in registry
    order, and the signature is the window's. *)
Theorem chooseApproach_lists_satisfied_rules host this w :
  exists r,
    fst (chooseApproach host w this) = Normal r
    /\ signature r = SignatureExtractor.extractSignature host w
    /\ matchingApproaches r
       = map fst (filter (fun e => Spec.satisfies (signature r) (snd e))
                         (approachConfigs this)).
Proof.
  rewrite chooseApproach_eq. cbn [fst].
  assert (E : forall s (m : Map ApproachConfig),
             filter (Spec.matched s) m
             = filter (fun e => Spec.satisfies s (snd e)) m).
  { intros s m. apply filter_ext. intros e. unfold Spec.matched.
    apply matches_satisfies. }
  destruct (sort compareEvaluations _) as [|first rest] eqn:Es;
    eexists; (split; [reflexivity|]); (split; [reflexivity|]);
    cbn [matchingApproaches signature]; rewrite <- E; [|reflexivity].
  destruct (filter _ _) as [|e l] eqn:F; [reflexivity|].
  exfalso. cbn [map] in Es.
  apply (sort_not_nil compareEvaluations) in Es; [assumption | discriminate].
Qed.
End Registry.

(** ** The registry as a map: construction, insertion, removal *)

Section RegistryLaws.
Import HiveScoutBee.

Lemma get_set_other {V} (m : Map V) (k k' : string) (v : V) :
  k' <> k -> get (set m k v) k' = get m k'.
Proof.
  intros Hne. induction m as [|[k0 v0] m IH]; simpl.
  - now rewrite (proj2 (String.eqb_neq k k')) by congruence.
  - destruct (String.eqb k0 k) eqn:E; simpl; [|now rewrite IH].
    apply String.eqb_eq in E. subst k0.
    now rewrite (proj2 (String.eqb_neq k k')) by congruence.
Qed.

Lemma get_set {V} (m : Map V) (k k' : string) (v : V) :
  get (set m k v) k' = if String.eqb k k' then Some v else get m k'.
Proof.
  destruct (String.eqb k k') eqn:E.
  - apply String.eqb_eq in E. subst. apply get_set_same.
  - apply get_set_other. apply String.eqb_neq in E. congruence.
Qed.

Lemma absent_In (ks : list string) (k : string) :
  Laws.absent ks k = true <-> ~ In k ks.
Proof.
  unfold Laws.absent. rewrite negb_true_iff. split.
  - intros H Hin. apply existsb_eqb_In in Hin. congruence.
  - intros H. destruct (existsb _ _) eqn:E; [|reflexivity].
    apply existsb_eqb_In in E. contradiction.
Qed.

(** Adding names one by one, each new name at the end. *)
Lemma fold_add_name (l ks : list string) :
  fold_left (fun ks k => if existsb (String.eqb k) ks then ks else ks ++ [k])
            l ks
  = ks ++ Spec.distinct (filter (Laws.absent ks) l).
Proof.
  revert ks. induction l as [|k l IH]; intros ks; cbn [fold_left filter].
  - simpl. now rewrite app_nil_r.
  - rewrite IH. destruct (existsb (String.eqb k) ks) eqn:E.
    + assert (Laws.absent ks k = false) as ->
        by (unfold Laws.absent; now rewrite E).
      reflexivity.
    + assert (Laws.absent ks k = true) as ->
        by (unfold Laws.absent; now rewrite E).
      rewrite <- app_assoc. cbn [app Spec.distinct]. do 2 f_equal.
      rewrite <- distinct_filter, <- filter_and. f_equal.
      apply filter_ext. intros q. unfold Laws.absent.
      rewrite existsb_app. simpl. rewrite orb_false_r, negb_orb.
      apply andb_comm.
Qed.

Lemma keys_fold_set (l : list ApproachConfig) (m : Map ApproachConfig) :
  keys (fold_left (fun m a => set m (name a) a) l m)
  = fold_left (fun ks k => if existsb (String.eqb k) ks then ks else ks ++ [k])
              (map name l) (keys m).
Proof.
  revert m. induction l as [|a l IH]; intros m; simpl; [reflexivity|].
  now rewrite IH, keys_set.
Qed.

Lemma get_fold_set (l : list ApproachConfig) (m : Map ApproachConfig) n :
  get (fold_left (fun m a => set m (name a) a) l m) n
  = fold_left (fun found a => if String.eqb (name a) n then Some a else found)
              l (get m n).
Proof.
  revert m. induction l as [|a l IH]; intros m; simpl; [reflexivity|].
  now rewrite IH, get_set.
Qed.

(** The constructor lists each name once, in the order the names first
    occur in its argument, and keeps for a name the last configuration
    that carries it. *)
Theorem constructor_keeps_last_of_each_name (approaches : list ApproachConfig) :
  fst (getAvailableApproaches (constructor approaches))
  = Spec.distinct (map name approaches)
  /\ forall n, fst (getApproachConfig n (constructor approaches))
               = Laws.lastNamed n approaches.
Proof.
  unfold getAvailableApproaches, getApproachConfig, read, constructor.
  cbn [fst approachConfigs]. split.
  - rewrite keys_fold_set, fold_add_name. cbn [keys map app].
    now rewrite filter_all.
  - intros n. apply get_fold_set.
Qed.

Lemma delete_appended {V} (m : Map V) (k : string) (v : V) :
  ~ In k (keys m) -> delete (m ++ [(k, v)]) k = (true, m).
Proof.
  induction m as [|[k0 v0] m IH]; simpl; intros H.
  - now rewrite String.eqb_refl.
  - destruct (String.eqb k0 k) eqn:E.
    + apply String.eqb_eq in E. subst. exfalso. apply H. now left.
    + rewrite IH; [reflexivity|]. intros Hin. apply H. now right.
Qed.

(** Removing a rule right after adding it under a name that was not
    registered gives back the registry as it was. *)
Theorem add_then_remove_restores this a :
  fst (getApproachConfig (name a) this) = None ->
  removeApproach (name a) (snd (addApproach a this)) = (true, this).
Proof.
  unfold getApproachConfig, removeApproach, addApproach, read, write.
  cbn [fst snd approachConfigs]. intros G.
  assert (Hn : ~ In (name a) (keys (approachConfigs this))).
  { intros Hin. apply in_map_iff in Hin as [[k v] [E Hin]]. simpl in E. subst k.
    induction (approachConfigs this) as [|[k0 v0] m IH]; [contradiction|].
    simpl in G. destruct (String.eqb k0 (name a)) eqn:E; [discriminate|].
    destruct Hin as [Hin | Hin]; [|now apply IH].
    injection Hin as -> _. now rewrite String.eqb_refl in E. }
  rewrite (set_new _ _ a Hn), (delete_appended _ _ a Hn). now destruct this.
Qed.

Lemma add_then_remove_restores_witness :
  removeApproach "A"
    (snd (addApproach Fixture.atMargin (constructor Fixture.approachConfigs)))
  = (true, constructor Fixture.approachConfigs).
Proof.
  apply (add_then_remove_restores (constructor Fixture.approachConfigs)
           Fixture.atMargin). reflexivity.
Defined.

Lemma get_delete_other {V} (m : Map V) (k k' : string) :
  k' <> k -> get (snd (delete m k)) k' = get m k'.
Proof.
  intros Hne. induction m as [|[k0 v0] m IH]; simpl; [reflexivity|].
  destruct (String.eqb k0 k) eqn:E; simpl.
  - apply String.eqb_eq in E. subst k0.
    now rewrite (proj2 (String.eqb_neq k k')) by congruence.
  - destruct (delete m k) as [b r]. simpl in *. now rewrite IH.
Qed.

Lemma filter_all_in {A} (f : A -> bool) (l : list A) :
  (forall x, In x l -> f x = true) -> filter f l = l.
Proof.
  induction l as [|x l IH]; simpl; intros H; [reflexivity|].
  rewrite (H x (or_introl eq_refl)), IH; [reflexivity|].
  intros y Hy. apply H. now right.
Qed.

Lemma keys_delete {V} (m : Map V) (k : string) :
  Spec.uniqueKeys m = true ->
  keys (snd (delete m k)) = filter (fun k' => negb (String.eqb k' k)) (keys m).
Proof.
  induction m as [|[k0 v0] m IH]; simpl; [reflexivity|]. intros U.
  apply (uniqueKeys_cons k0 v0 m) in U as [Hk U].
  destruct (String.eqb k0 k) eqn:E; simpl.
  - apply String.eqb_eq in E. subst k0. symmetry. apply filter_all_in.
    intros k' Hin. apply negb_true_iff, String.eqb_neq. intros ->. contradiction.
  - specialize (IH U). destruct (delete m k) as [b r]. simpl in *.
    now rewrite IH.
Qed.

(** [addApproach] and [removeApproach] touch one name only: every other
    name keeps its configuration.  A name that is new is listed last, a
    name that was registered keeps its place, and a removed name leaves
    the list of the others in order. *)
Theorem writers_touch_one_name this a n :
  Spec.uniqueKeys (approachConfigs this) = true ->
  (forall k, k <> name a ->
     fst (getApproachConfig k (snd (addApproach a this)))
     = fst (getApproachConfig k this))
  /\ fst (getAvailableApproaches (snd (addApproach a this)))
     = (if existsb (String.eqb (name a)) (fst (getAvailableApproaches this))
        then fst (getAvailableApproaches this)
        else fst (getAvailableApproaches this) ++ [name a])
  /\ (forall k, k <> n ->
        fst (getApproachConfig k (snd (removeApproach n this)))
        = fst (getApproachConfig k this))
  /\ fst (getAvailableApproaches (snd (removeApproach n this)))
     = filter (fun k => negb (String.eqb k n))
              (fst (getAvailableApproaches this)).
Proof.
  intros U. unfold getApproachConfig, getAvailableApproaches, addApproach,
    removeApproach, read, write. cbn [fst snd approachConfigs].
  split; [|split; [|split]].
  - intros k Hk. now apply get_set_other.
  - apply keys_set.
  - intros k Hk. pose proof (get_delete_other (approachConfigs this) n k Hk) as H.
    now destruct (delete (approachConfigs this) n).
  - pose proof (keys_delete (approachConfigs this) n U) as H.
    now destruct (delete (approachConfigs this) n).
Qed.

Lemma writers_touch_one_name_witness :
  fst (getAvailableApproaches
         (snd (removeApproach "low-complexity-approach"
                 (constructor Fixture.approachConfigs))))
  = filter (fun k => negb (String.eqb k "low-complexity-approach"))
           (fst (getAvailableApproaches (constructor Fixture.approachConfigs))).
Proof.
  apply (writers_touch_one_name (constructor Fixture.approachConfigs)
           Fixture.atMargin "low-complexity-approach"). reflexivity.
Defined.
End RegistryLaws.

(** ** The harvested sequence, the predicate counts and the padding *)

Section ExtractorLaws.
Import SignatureExtractor.
Variable host : Host.

Lemma harvest_cases (q : RDF.Quad) :
  Spec.harvest host q = []
  \/ (Spec.harvest host q = [parseFloat host (RDF.value (RDF.object q))]
      /\ isNaN (parseFloat host (RDF.value (RDF.object q))) = false).
Proof.
  unfold Spec.harvest.
  destruct (RDF.TermType_eqb _ _), (Spec.tagAdmits _),
    (isNaN (parseFloat host _)) eqn:E; simpl; auto.
Qed.

(** The harvested sequence never holds NaN, has at most one number per
    triple, and the sequence of two windows one after the other is the
    two sequences one after the other. *)
Theorem harvested_numbers_are_numbers (w w' : Window) :
  Forall (fun v => isNaN v = false) (numericValues host w)
  /\ List.length (numericValues host w) <= List.length w
  /\ numericValues host (w ++ w') = numericValues host w ++ numericValues host w'.
Proof.
  unfold numericValues. rewrite !fold_collect. cbn [app]. split; [|split].
  - induction w as [|q w IH]; simpl; [constructor|].
    apply Forall_app. split; [|exact IH].
    destruct (harvest_cases q) as [-> | [-> H]]; repeat constructor. exact H.
  - induction w as [|q w IH]; simpl; [lia|]. rewrite length_app.
    destruct (harvest_cases q) as [-> | [-> _]]; simpl; lia.
  - apply flat_map_app.
Qed.

Lemma values_countKey (m : Map nat) (p : string) :
  list_sum (values (countKey m p)) = list_sum (values m) + 1
  /\ (Forall (fun c => 1 <= c) (values m) ->
      Forall (fun c => 1 <= c) (values (countKey m p)))
  /\ List.length (countKey m p) <= List.length m + 1.
Proof.
  unfold countKey. induction m as [|[k c] m IH]; simpl.
  - repeat split; [repeat constructor | lia].
  - destruct (String.eqb k p) eqn:E; simpl.
    + repeat split; [lia | | lia]. intros H. inversion H; subst.
      constructor; [lia | assumption].
    + destruct IH as (IH1 & IH2 & IH3). repeat split; [lia | | lia].
      intros H. inversion H; subst. constructor; [assumption | auto].
Qed.

Lemma fold_countKey_values (l : list string) (m : Map nat) :
  list_sum (values (fold_left countKey l m)) = list_sum (values m) + List.length l
  /\ (Forall (fun c => 1 <= c) (values m) ->
      Forall (fun c => 1 <= c) (values (fold_left countKey l m)))
  /\ List.length (fold_left countKey l m) <= List.length m + List.length l.
Proof.
  revert m. induction l as [|p l IH]; intros m; simpl.
  - repeat split; [lia | auto | lia].
  - destruct (IH (countKey m p)) as (H1 & H2 & H3).
    destruct (values_countKey m p) as (K1 & K2 & K3).
    repeat split; [lia | auto | lia].
Qed.

Lemma list_sum_bound (l : list nat) (c : nat) : In c l -> c <= list_sum l.
Proof.
  induction l as [|x l IH]; simpl; [contradiction|].
  intros [-> | H]; [lia|]. specialize (IH H). lia.
Qed.

(** The map of predicate counts that [calculateEntropy] builds: its names
    are the distinct predicates in order of first occurrence, every count
    is at least 1 and at most the number of triples, the counts add up to
    the number of triples, and there are at most as many names as
    triples. *)
Theorem predicate_counts_partition_the_window (w : Window) :
  let predicateCount := fold_left countPredicate w [] in
  keys predicateCount = Spec.distinct (Spec.predicates w)
  /\ list_sum (values predicateCount) = List.length w
  /\ Forall (fun c => 1 <= c <= List.length w) (values predicateCount)
  /\ size predicateCount <= List.length w.
Proof.
  cbv zeta. split.
  - rewrite predicateCount_tally. unfold keys. rewrite map_map. apply map_id.
  - rewrite fold_countPredicate.
    destruct (fold_countKey_values (Spec.predicates w) []) as (H1 & H2 & H3).
    unfold Spec.predicates in *. rewrite length_map in *. simpl in *.
    split; [exact H1|]. split; [|exact H3].
    specialize (H2 (Forall_nil _)). apply Forall_forall. intros c Hc.
    split; [exact (proj1 (Forall_forall _ _) H2 c Hc)|].
    rewrite <- H1. now apply list_sum_bound.
Qed.
End ExtractorLaws.

Section PaddingLaws.
Import SignatureExtractor.

(** For two or more values the padding loop keeps the values in place and
    appends zeros only, fewer than there are values: the padded length is
    the target length, a power of two below twice the number of values.
    Nothing is appended when that number is itself a power of two. *)
Theorem padding_less_than_doubles (values : list number) :
  2 <= List.length values ->
  let padded := padLoop (targetLength values) values (targetLength values) in
  exists zeros,
    padded = values ++ repeat 0%float zeros
    /\ zeros < List.length values
    /\ List.length padded = targetLength values
    /\ targetLength values < 2 * List.length values
    /\ ((exists k, List.length values = 2 ^ k) -> zeros = 0).
Proof.
  intros H. cbv zeta. rewrite padLoop_zeroPad. unfold Spec.zeroPad.
  set (n := List.length values) in *.
  assert (Hup : n <= targetLength values)
    by (apply (targetLength_next_power values); fold n; lia).
  assert (Hlt : targetLength values < 2 * n).
  { unfold targetLength. fold n.
    destruct (Nat.log2_up_spec n ltac:(lia)) as [Hlo _].
    destruct (Nat.log2_up n) as [|j] eqn:E; [simpl; lia|].
    simpl in Hlo. rewrite Nat.pow_succ_r'. lia. }
  exists (targetLength values - n). repeat split; try lia.
  - rewrite length_app, repeat_length. fold n. lia.
  - intros [k Hk]. unfold targetLength. fold n. rewrite Hk.
    rewrite Nat.log2_up_pow2 by lia. lia.
Qed.

Lemma padding_less_than_doubles_witness :
  exists zeros,
    padLoop (targetLength [10; 20; 30]%float) [10; 20; 30]%float
            (targetLength [10; 20; 30]%float)
    = ([10; 20; 30] ++ repeat 0 zeros)%float
    /\ zeros < 3
    /\ List.length (padLoop (targetLength [10; 20; 30]%float) [10; 20; 30]%float
                            (targetLength [10; 20; 30]%float))
       = targetLength [10; 20; 30]%float
    /\ targetLength [10; 20; 30]%float < 2 * 3
    /\ ((exists k, 3 = 2 ^ k) -> zeros = 0).
Proof.
  apply (padding_less_than_doubles [10; 20; 30]%float). simpl. lia.
Defined.
End PaddingLaws.

Section Dependence.
Import SignatureExtractor.
Variable host : Host.

Lemma numericValues_of_objects (w w' : Window) :
  map RDF.object w = map RDF.object w' ->
  numericValues host w = numericValues host w'.
Proof.
  unfold numericValues. rewrite !fold_collect. cbn [app].
  revert w'. induction w as [|q w IH]; intros [|q' w']; simpl;
    try discriminate; [reflexivity|].
  intros [= Hq Hw]. rewrite (IH w' Hw). f_equal.
  unfold Spec.harvest. now rewrite Hq.
Qed.

Lemma calculateEntropy_of_predicates (w w' : Window) :
  Spec.predicates w = Spec.predicates w' ->
  calculateEntropy host w = calculateEntropy host w'.
Proof.
  intros H. unfold calculateEntropy. rewrite !fold_countPredicate, H.
  replace (List.length w) with (List.length (Spec.predicates w))
    by apply length_map.
  replace (List.length w') with (List.length (Spec.predicates w'))
    by apply length_map.
  now rewrite H.
Qed.

(** The signature reads the objects of the triples and the names of their
    predicates, and nothing else: two windows that agree on those, triple
    by triple, have the same signature, whatever their subjects. *)
Theorem signature_ignores_subjects (w w' : Window) :
  map RDF.object w = map RDF.object w' ->
  Spec.predicates w = Spec.predicates w' ->
  extractSignature host w = extractSignature host w'.
Proof.
  intros Ho Hp. unfold extractSignature.
  rewrite (numericValues_of_objects w w' Ho),
    (calculateEntropy_of_predicates w w' Hp).
  replace (List.length w) with (List.length (map RDF.object w))
    by apply length_map.
  rewrite Ho, length_map. reflexivity.
Qed.
End Dependence.

Lemma signature_ignores_subjects_witness :
  SignatureExtractor.extractSignature Ref.host
    [RDF.quad (Fixture.node "s1") (Fixture.node "p") (RDF.literal "4" None);
     RDF.quad (Fixture.node "s2") (Fixture.node "p") (RDF.literal "6" None)]
  = SignatureExtractor.extractSignature Ref.host
      [Fixture.plain "p" "4"; Fixture.plain "p" "6"].
Proof.
  apply (signature_ignores_subjects Ref.host); reflexivity.
Defined.

(** ** Specificity, the comparator and ties *)

Section SelectorLaws.
Import HiveScoutBee.
Local Open Scope float_scope.

Lemma fold_specificityMin cs st :
  fold_left specificityMin cs st
  = {| specificityScore :=
         fold_left (fun sum val => sum + val)
                   (map Laws.specificityOfMin (declaredOf cs))
                   (specificityScore st);
       thresholdCount := (thresholdCount st + List.length (declaredOf cs))%nat |}.
Proof.
  revert st. induction cs as [|c cs IH]; intros st; simpl.
  - destruct st. simpl. now rewrite Nat.add_0_r.
  - rewrite IH. unfold specificityMin at 1 2, declaredOf. simpl.
    destruct (threshold c) as [b|]; simpl; [|reflexivity].
    unfold gt. destruct (0 <? value c); simpl; f_equal; lia.
Qed.

Lemma fold_specificityMax cs st :
  fold_left specificityMax cs st
  = {| specificityScore :=
         fold_left (fun sum val => sum + val)
                   (map Laws.specificityOfMax (declaredOf cs))
                   (specificityScore st);
       thresholdCount := (thresholdCount st + List.length (declaredOf cs))%nat |}.
Proof.
  revert st. induction cs as [|c cs IH]; intros st; simpl.
  - destruct st. simpl. now rewrite Nat.add_0_r.
  - rewrite IH. unfold specificityMax at 1 2, declaredOf. simpl.
    destruct (threshold c) as [b|]; simpl; [|reflexivity].
    f_equal; lia.
Qed.

Lemma calculateSpecificity_spec s c :
  calculateSpecificity s c = Laws.specificity s c.
Proof.
  unfold calculateSpecificity, Laws.specificity.
  rewrite fold_specificityMax, fold_specificityMin, !declared_checksOf.
  cbn [specificityScore thresholdCount].
  rewrite length_app, !length_map. unfold reduce_sum.
  rewrite fold_left_app. simpl.
  destruct (List.length _ + List.length _)%nat eqn:E; reflexivity.
Qed.

Lemma specificityOfMax_bounds_only s s' t :
  map Laws.specificityOfMax (Spec.declared s t)
  = map Laws.specificityOfMax (Spec.declared s' t).
Proof.
  destruct t as [t|]; [|reflexivity]. unfold Spec.declared.
  destruct (t_variance t), (t_skewness t), (t_entropy t), (t_fftEntropy t),
    (t_tripleCount t); reflexivity.
Qed.

(** The specificity of a rule is the average, over its declared
    thresholds, of [bound / (value + 1)] (the bound itself when the value
    is not positive) for a min-threshold and [1 / (bound + 1)] for a
    max-threshold, and 0 when none is declared.  A rule that declares
    max-thresholds only has the same specificity on every window. *)
Theorem specificity_is_average_tightness s c :
  calculateSpecificity s c = Laws.specificity s c
  /\ (Spec.noBound (minThresholds c) = true ->
      forall s', calculateSpecificity s' c = calculateSpecificity s c).
Proof.
  split; [apply calculateSpecificity_spec|]. intros H s'.
  rewrite !calculateSpecificity_spec. unfold Laws.specificity.
  pose proof H as H'. rewrite (noBound_declared s) in H.
  rewrite (noBound_declared s') in H'.
  apply Nat.eqb_eq, length_zero_iff_nil in H, H'. rewrite H, H'.
  now rewrite (specificityOfMax_bounds_only s' s).
Qed.

Lemma specificity_is_average_tightness_witness :
  calculateSpecificity
    (SignatureExtractor.extractSignature Ref.host Fixture.leftSkewed)
    Fixture.lowComplexity
  = calculateSpecificity Laws.zeroSignature Fixture.lowComplexity.
Proof.
  apply (specificity_is_average_tightness Laws.zeroSignature
           Fixture.lowComplexity). reflexivity.
Defined.

(** The comparator never puts two evaluations before each other, nor one
    before itself; but it is not transitive: of three rules that match the
    empty window, the first goes before the second, the second before the
    third and the third before the first. *)
Theorem comparator_is_antisymmetric_not_transitive :
  (forall a b, (compareEvaluations a b <? 0) = true ->
               (compareEvaluations b a <? 0) = false)
  /\ (forall a, (compareEvaluations a a <? 0) = false)
  /\ (let a := Spec.evaluationOf Laws.zeroSignature ("tight"%string, Laws.tight) in
      let b := Spec.evaluationOf Laws.zeroSignature ("loose"%string, Laws.loose) in
      let c := Spec.evaluationOf Laws.zeroSignature ("middle"%string, Laws.middle) in
      (compareEvaluations a b <? 0) = true
      /\ (compareEvaluations b c <? 0) = true
      /\ (compareEvaluations c a <? 0) = true).
Proof.
  assert (H : forall a b, (compareEvaluations a b <? 0) = true ->
                          (compareEvaluations b a <? 0) = false).
  { intros a b. rewrite !compare_ranksBefore. apply ranksBefore_antisym. }
  split; [exact H|]. split.
  - intros a. destruct (compareEvaluations a a <? 0) eqn:E; [|reflexivity].
    now rewrite (H a a E) in E.
  - vm_compute. repeat split.
Qed.

(** Among rules none of which ranks before the first one registered that
    matches, that first one is recommended: ties go to registry order. *)
Theorem ties_go_to_registry_order host this w r1 r2 A cfgA :
  let s := SignatureExtractor.extractSignature host w in
  approachConfigs this = (r1 ++ (A, cfgA) :: r2)%list ->
  (forall n c, In (n, c) r1 -> Spec.satisfies s c = false) ->
  Spec.satisfies s cfgA = true ->
  (forall B cfgB, In (B, cfgB) r2 -> Spec.satisfies s cfgB = true ->
     Spec.ranksBefore (calculateSpecificity s cfgB) (or_zero (priority cfgB))
                      (calculateSpecificity s cfgA) (or_zero (priority cfgA))
     = false) ->
  exists r, fst (chooseApproach host w this) = Normal r
            /\ recommendedApproach r = A.
Proof.
  intros s E H1 HA H2. rewrite chooseApproach_eq. cbn [fst]. fold s.
  rewrite E, filter_app. cbn [filter].
  rewrite (filter_none (Spec.matched s) r1).
  2:{ intros [n c] Hin. unfold Spec.matched. cbn [snd].
      rewrite matches_satisfies. exact (H1 n c Hin). }
  assert (Hm : Spec.matched s (A, cfgA) = true)
    by (unfold Spec.matched; cbn [snd]; now rewrite matches_satisfies).
  rewrite Hm. cbn [app map].
  destruct (sort_first_stays compareEvaluations
              (Spec.evaluationOf s (A, cfgA))
              (map (Spec.evaluationOf s) (filter (Spec.matched s) r2)))
    as [rest ->].
  - intros y Hy. apply in_map_iff in Hy as [[B cfgB] [<- Hin]].
    apply filter_In in Hin as [Hin HmB]. unfold Spec.matched in HmB.
    cbn [snd] in HmB. rewrite matches_satisfies in HmB.
    rewrite compare_ranksBefore. exact (H2 B cfgB Hin HmB).
  - eexists. split; reflexivity.
Qed.

Lemma ties_go_to_registry_order_witness :
  exists r,
    fst (chooseApproach Ref.host Fixture.oneReading
           (constructor [Fixture.impossible; Laws.firstTwin; Laws.secondTwin]))
    = Normal r
    /\ recommendedApproach r = "first"%string.
Proof.
  apply (ties_go_to_registry_order Ref.host
           (constructor [Fixture.impossible; Laws.firstTwin; Laws.secondTwin])
           Fixture.oneReading
           [("impossible-approach"%string, Fixture.impossible)]
           [("second"%string, Laws.secondTwin)]
           "first"%string Laws.firstTwin).
  - reflexivity.
  - intros n c [E | []]. injection E as <- <-. vm_compute. reflexivity.
  - vm_compute. reflexivity.
  - intros B cfgB [E | []] _. injection E as <- <-. vm_compute. reflexivity.
Defined.

(** A matching rule is recommended when it ranks before every matching
    rule registered before it and no matching rule registered after it
    ranks before it. *)
Theorem unbeaten_rule_is_recommended host this w r1 r2 A cfgA :
  let s := SignatureExtractor.extractSignature host w in
  approachConfigs this = (r1 ++ (A, cfgA) :: r2)%list ->
  Spec.satisfies s cfgA = true ->
  (forall B cfgB, In (B, cfgB) r1 -> Spec.satisfies s cfgB = true ->
     Spec.ranksBefore (calculateSpecificity s cfgA) (or_zero (priority cfgA))
                      (calculateSpecificity s cfgB) (or_zero (priority cfgB))
     = true) ->
  (forall B cfgB, In (B, cfgB) r2 -> Spec.satisfies s cfgB = true ->
     Spec.ranksBefore (calculateSpecificity s cfgB) (or_zero (priority cfgB))
                      (calculateSpecificity s cfgA) (or_zero (priority cfgA))
     = false) ->
  exists r, fst (chooseApproach host w this) = Normal r
            /\ recommendedApproach r = A.
Proof.
  intros s E HA H1 H2. rewrite chooseApproach_eq. cbn [fst]. fold s.
  rewrite E, filter_app. cbn [filter].
  assert (Hm : Spec.matched s (A, cfgA) = true)
    by (unfold Spec.matched; cbn [snd]; now rewrite matches_satisfies).
  rewrite Hm, map_app. cbn [map].
  destruct (sort_head_ordered compareEvaluations
              (Spec.evaluationOf s (A, cfgA))
              (map (Spec.evaluationOf s) (filter (Spec.matched s) r1))
              (map (Spec.evaluationOf s) (filter (Spec.matched s) r2)))
    as [rest ->].
  - intros y Hy. apply in_map_iff in Hy as [[B cfgB] [<- Hin]].
    apply filter_In in Hin as [Hin HmB]. unfold Spec.matched in HmB.
    cbn [snd] in HmB. rewrite matches_satisfies in HmB.
    rewrite compare_ranksBefore. exact (H1 B cfgB Hin HmB).
  - intros y Hy. apply in_map_iff in Hy as [[B cfgB] [<- Hin]].
    apply filter_In in Hin as [Hin HmB]. unfold Spec.matched in HmB.
    cbn [snd] in HmB. rewrite matches_satisfies in HmB.
    rewrite compare_ranksBefore. exact (H2 B cfgB Hin HmB).
  - eexists. split; reflexivity.
Qed.

Lemma unbeaten_rule_is_recommended_witness :
  exists r,
    fst (chooseApproach Ref.host []
           (constructor [Laws.looser; Laws.tighter; Laws.between]))
    = Normal r
    /\ recommendedApproach r = "C"%string.
Proof.
  apply (unbeaten_rule_is_recommended Ref.host
           (constructor [Laws.looser; Laws.tighter; Laws.between]) []
           [("A"%string, Laws.looser)] [("B"%string, Laws.between)]
           "C"%string Laws.tighter).
  - reflexivity.
  - vm_compute. reflexivity.
  - intros B cfgB [E | []] _. injection E as <- <-. vm_compute. reflexivity.
  - intros B cfgB [E | []] _. injection E as <- <-. vm_compute. reflexivity.
Defined.

(** Where the comparison does not single out a rule, the order of the
    registry decides.  The three rules of the cycle are left as they are
    registered, whichever is first. *)
Example cycle_is_left_in_registry_order :
  (exists r,
      fst (chooseApproach Ref.host []
             (constructor [Laws.tight; Laws.loose; Laws.middle])) = Normal r
      /\ recommendedApproach r = "tight"%string)
  /\ (exists r,
         fst (chooseApproach Ref.host []
                (constructor [Laws.loose; Laws.middle; Laws.tight])) = Normal r
         /\ recommendedApproach r = "loose"%string)
  /\ (exists r,
         fst (chooseApproach Ref.host []
                (constructor [Laws.middle; Laws.tight; Laws.loose])) = Normal r
         /\ recommendedApproach r = "middle"%string).
Proof. repeat split; eexists; split; vm_compute; reflexivity. Qed.

(** Three rules each within 0.01 of the next are left as registered:
    the first is recommended although the specificity of the third
    exceeds its own by more than 0.01; registered in the opposite order,
    the tightest is. *)
Example neighbours_within_margin_keep_registry_order :
  let s := SignatureExtractor.extractSignature Ref.host [] in
  (0.01 <? calculateSpecificity s Laws.tighter
           - calculateSpecificity s Laws.looser) = true
  /\ (exists r,
         fst (chooseApproach Ref.host []
                (constructor [Laws.looser; Laws.between; Laws.tighter]))
         = Normal r
         /\ recommendedApproach r = "A"%string)
  /\ (exists r,
         fst (chooseApproach Ref.host []
                (constructor [Laws.tighter; Laws.between; Laws.looser]))
         = Normal r
         /\ recommendedApproach r = "C"%string).
Proof.
  split; [vm_compute; reflexivity|].
  split; eexists; split; vm_compute; reflexivity.
Qed.
End SelectorLaws.

(** ** NaN bounds, the shape of a recommendation, rules that do not match *)

Section RecommendationLaws.
Import HiveScoutBee.

Lemma isNaN_Prim2SF x : isNaN x = true -> Prim2SF x = S754_nan.
Proof.
  unfold isNaN. rewrite FloatAxioms.eqb_spec. unfold SFeqb.
  destruct (Prim2SF x) as [s|s| |s m e]; simpl; try reflexivity;
    try (destruct s; discriminate).
  destruct s; rewrite Z.compare_refl, Pos.compare_cont_refl; discriminate.
Qed.

(** NaN is neither at most nor at least any number. *)
Lemma leb_NaN x y :
  isNaN x = true -> (x <=? y)%float = false /\ (y <=? x)%float = false.
Proof.
  intros H. apply isNaN_Prim2SF in H. rewrite !leb_spec, H. split.
  - reflexivity.
  - unfold SFleb. now destruct (Prim2SF y) as [s|s| |s m e].
Qed.

Lemma hasNaN_unsatisfied (ds : list (number * number)) :
  existsb Laws.hasNaN ds = true ->
  forallb (fun vb => (snd vb <=? fst vb)%float) ds = false
  /\ forallb (fun vb => (fst vb <=? snd vb)%float) ds = false.
Proof.
  induction ds as [|[v b] ds IH]; simpl; [discriminate|].
  intros H. apply orb_true_iff in H as [H | H].
  - unfold Laws.hasNaN in H. simpl in H. apply orb_true_iff in H as [H | H].
    + destruct (leb_NaN v b H) as [-> ->]. now split.
    + destruct (leb_NaN b v H) as [-> ->]. now split.
  - destruct (IH H) as [-> ->]. now rewrite !andb_false_r.
Qed.

(** A rule one of whose declared bounds is NaN, or that bounds a signature
    field whose value is NaN, does not match. *)
Theorem nan_bound_never_matches s c :
  existsb Laws.hasNaN (Spec.declared s (minThresholds c)
                       ++ Spec.declared s (maxThresholds c)) = true ->
  matches (evaluateApproach s c) = false.
Proof.
  intros H. rewrite matches_satisfies. unfold Spec.satisfies.
  rewrite existsb_app in H. apply orb_true_iff in H as [H | H];
    destruct (hasNaN_unsatisfied _ H) as [H1 H2].
  - now rewrite H1.
  - now rewrite H2, andb_false_r.
Qed.

Lemma nan_bound_never_matches_witness :
  isNaN (variance (SignatureExtractor.extractSignature Ref.host
                     Laws.withInfinity)) = true
  /\ matches (evaluateApproach
                (SignatureExtractor.extractSignature Ref.host Laws.withInfinity)
                Laws.cappedVariance) = false.
Proof.
  split; [reflexivity|].
  apply (nan_bound_never_matches
           (SignatureExtractor.extractSignature Ref.host Laws.withInfinity)
           Laws.cappedVariance).
  reflexivity.
Defined.

(** Every matching approach is a registered name.  When none matches the
    recommendation is ["default"] with confidence 0; otherwise the
    recommended approach is one of the matching approaches, the only one
    when there is only one. *)
Theorem recommendation_is_a_matching_rule host this w :
  exists r,
    fst (chooseApproach host w this) = Normal r
    /\ incl (matchingApproaches r) (fst (getAvailableApproaches this))
    /\ (matchingApproaches r = [] ->
        recommendedApproach r = "default"%string /\ confidence r = 0%float)
    /\ (matchingApproaches r <> [] ->
        In (recommendedApproach r) (matchingApproaches r))
    /\ (forall n, matchingApproaches r = [n] -> recommendedApproach r = n).
Proof.
  rewrite chooseApproach_eq. cbn [fst].
  set (s := SignatureExtractor.extractSignature host w).
  set (hits := filter (Spec.matched s) (approachConfigs this)).
  assert (Hincl : incl (map fst hits) (keys (approachConfigs this))).
  { intros n Hn. apply in_map_iff in Hn as [[k c] [<- Hin]].
    apply filter_In in Hin as [Hin _]. exact (In_keys _ _ _ Hin). }
  destruct (sort compareEvaluations (map (Spec.evaluationOf s) hits))
    as [|first rest] eqn:E.
  - assert (hits = []) as ->.
    { destruct hits as [|h l]; [reflexivity|]. exfalso.
      apply (sort_not_nil compareEvaluations) in E; [assumption|discriminate]. }
    eexists. split; [reflexivity|].
    cbn [matchingApproaches recommendedApproach confidence map].
    repeat split; try discriminate.
    + intros n [].
    + intros H. now contradiction H.
  - assert (Hfirst : In (ev_name first) (map fst hits)).
    { assert (Hin : In first (first :: rest)) by now left.
      rewrite <- E in Hin. apply sort_In, in_map_iff in Hin as [e [<- Hin]].
      apply (in_map fst) in Hin. exact Hin. }
    eexists. split; [reflexivity|].
    cbn [matchingApproaches recommendedApproach confidence].
    split; [exact Hincl|]. split; [|split].
    + intros H. rewrite H in Hfirst. contradiction.
    + intros _. exact Hfirst.
    + intros n H. rewrite H in Hfirst. destruct Hfirst as [<- | []]. reflexivity.
Qed.

Lemma matched_satisfies s k c : Spec.matched s (k, c) = Spec.satisfies s c.
Proof. unfold Spec.matched. cbn [snd]. apply matches_satisfies. Qed.

Lemma filter_set_unmatched s (m : Map ApproachConfig) k v :
  Spec.satisfies s v = false ->
  (forall old, get m k = Some old -> Spec.satisfies s old = false) ->
  filter (Spec.matched s) (set m k v) = filter (Spec.matched s) m.
Proof.
  intros Hv. induction m as [|[k0 v0] m IH]; cbn [set get filter]; intros Hold.
  - now rewrite matched_satisfies, Hv.
  - destruct (String.eqb k0 k) eqn:E; cbn [filter].
    + now rewrite !matched_satisfies, Hv, (Hold v0 eq_refl).
    + now rewrite IH.
Qed.

Lemma filter_delete_unmatched s (m : Map ApproachConfig) k :
  (forall old, get m k = Some old -> Spec.satisfies s old = false) ->
  filter (Spec.matched s) (snd (delete m k)) = filter (Spec.matched s) m.
Proof.
  induction m as [|[k0 v0] m IH]; cbn [delete get filter]; intros Hold;
    [reflexivity|].
  destruct (String.eqb k0 k) eqn:E.
  - cbn [snd]. now rewrite matched_satisfies, (Hold v0 eq_refl).
  - specialize (IH Hold). destruct (delete m k) as [b r].
    cbn [snd filter] in *. now rewrite IH.
Qed.

(** Rules that do not match the window do not weigh on the
    recommendation: adding a rule that does not match (in place of one
    that did not match either, if the name was taken), or removing one that
    does not match, leaves what [chooseApproach] returns for the window
    unchanged. *)
Theorem unmatched_rules_do_not_weigh host this w a n :
  let s := SignatureExtractor.extractSignature host w in
  (Spec.satisfies s a = false ->
   (forall old, fst (getApproachConfig (name a) this) = Some old ->
                Spec.satisfies s old = false) ->
   fst (chooseApproach host w (snd (addApproach a this)))
   = fst (chooseApproach host w this))
  /\ ((forall old, fst (getApproachConfig n this) = Some old ->
                   Spec.satisfies s old = false) ->
      fst (chooseApproach host w (snd (removeApproach n this)))
      = fst (chooseApproach host w this)).
Proof.
  cbv zeta. unfold getApproachConfig, addApproach, removeApproach, read, write.
  cbn [fst snd]. split.
  - intros Ha Hold. rewrite !chooseApproach_eq. cbn [fst approachConfigs].
    now rewrite (filter_set_unmatched _ _ _ _ Ha Hold).
  - intros Hold. rewrite !chooseApproach_eq. cbn [fst].
    pose proof (filter_delete_unmatched
                  (SignatureExtractor.extractSignature host w)
                  (approachConfigs this) n Hold) as H.
    destruct (delete (approachConfigs this) n) as [b r].
    cbn [snd approachConfigs] in *. now rewrite H.
Qed.

Lemma unmatched_rules_do_not_weigh_witness :
  fst (chooseApproach Ref.host (Fixture.readings ["5"; "5"; "5"]%string)
         (snd (addApproach Fixture.impossible
                 (constructor Fixture.approachConfigs))))
  = fst (chooseApproach Ref.host (Fixture.readings ["5"; "5"; "5"]%string)
           (constructor Fixture.approachConfigs)).
Proof.
  apply (proj1 (unmatched_rules_do_not_weigh Ref.host
                  (constructor Fixture.approachConfigs)
                  (Fixture.readings ["5"; "5"; "5"]%string)
                  Fixture.impossible "none"%string)).
  - vm_compute. reflexivity.
  - intros old H. vm_compute in H. discriminate.
Defined.
End RecommendationLaws.
